(** * PWM fan controller ([src/fan-control.c]): model and verification

    The controller reads the SoC temperature from a thermal file, maps it to
    a PWM duty value by linear interpolation between two thresholds and
    writes that value to a GPIO pin through the pigpio library.

    The embedding below follows the C text function by function.  C [int]
    values are integers of [Z] with the 32-bit wrap-around written out,
    [float] and [double] values are the IEEE 754 binary32 and binary64
    numbers of the Standard Library's [SpecFloat] (round to nearest, ties to
    even), and the GPIO driver is a small state with the trace of the calls
    it received. *)

From Stdlib Require Import ZArith Lia List String Ascii Bool SpecFloat.
From Stdlib Require DecimalString DecimalPos DecimalZ.
Import ListNotations.
Local Open Scope Z_scope.

(* ===================================================================== *)
(** ** C integer types *)
(* ===================================================================== *)

Module CInt.

Definition INT_MAX : Z := 2147483647.
Definition INT_MIN : Z := -2147483648.
Definition UINT_MAX : Z := 4294967295.

(** Two's complement reduction of a mathematical integer to [int]. *)
Definition wrap_int (z : Z) : Z := (z + 2147483648) mod 4294967296 - 2147483648.

(** Reduction to [unsigned int]. *)
Definition wrap_uint (z : Z) : Z := z mod 4294967296.

(** [long] is at least 32 bits wide; the narrowest (ILP32, the 32-bit
    Raspberry Pi OS) is modelled. *)
Definition wrap_long (z : Z) : Z := wrap_int z.

Definition in_int (z : Z) : Prop := INT_MIN <= z <= INT_MAX.
Definition in_uint (z : Z) : Prop := 0 <= z <= UINT_MAX.

Definition int_sub (a b : Z) : Z := wrap_int (a - b).

(** [a / b] on [int]: truncation toward zero. *)
Definition int_div (a b : Z) : Z := wrap_int (Z.quot a b).

(** [a / b] and [a % b] on [unsigned int]. *)
Definition uint_div (a b : Z) : Z := a / b.
Definition uint_rem (a b : Z) : Z := a mod b.

Definition long_mul (a b : Z) : Z := wrap_long (a * b).

(** Clipping to the [int] range, the result of a float to [int]
    conversion on ARM ([VCVT]/[FCVTZS] saturate). *)
Definition saturate_int (z : Z) : Z :=
  if z <? INT_MIN then INT_MIN else if INT_MAX <? z then INT_MAX else z.

End CInt.
Import CInt.

(* ===================================================================== *)
(** ** C floating-point types *)
(* ===================================================================== *)

Module CFloat.

(** [float] is binary32: 24 bits of precision, [emax = 128]. *)
Definition prec32 : Z := 24.
Definition emax32 : Z := 128.
(** [double] is binary64: 53 bits of precision, [emax = 1024]. *)
Definition prec64 : Z := 53.
Definition emax64 : Z := 1024.

(** [(float) n] for an [int] n. *)
Definition f32_of_int (n : Z) : spec_float :=
  binary_normalize prec32 emax32 n 0 false.

Definition f32_div : spec_float -> spec_float -> spec_float :=
  SFdiv prec32 emax32.
Definition f32_mul : spec_float -> spec_float -> spec_float :=
  SFmul prec32 emax32.

(** The usual arithmetic conversion of a [float] operand to [double];
    every binary32 number is a binary64 number. *)
Definition f64_of_f32 (x : spec_float) : spec_float :=
  match x with
  | S754_finite s m e => binary_round prec64 emax64 s m e
  | _ => x
  end.

Definition f64_add : spec_float -> spec_float -> spec_float :=
  SFadd prec64 emax64.

(** The [double] constant [0.5]. *)
Definition f64_half : spec_float := S754_finite false 4503599627370496 (-53).

(** The integer part of a finite number (rounding toward zero). *)
Definition Ztrunc_finite (s : bool) (m : positive) (e : Z) : Z :=
  let a := match e with
           | Z0 => Zpos m
           | Zpos _ => Zpos m * 2 ^ e
           | Zneg p => Zpos m / 2 ^ Zpos p
           end in
  if s then - a else a.

(** [(int) x]: truncation toward zero.  Out of range, and for an
    infinity or a NaN, the C standard leaves the conversion undefined and
    the targets differ; the value below is the one of the program's
    target, ARM, whose conversion instructions saturate and send NaN
    to 0.  [int_of_float_defined], after it, says when the conversion is
    defined; the theorems about the value of a conversion are stated
    where it is. *)
Definition int_of_float (x : spec_float) : Z :=
  match x with
  | S754_zero _ => 0
  | S754_nan => 0
  | S754_infinity s => if s then INT_MIN else INT_MAX
  | S754_finite s m e => saturate_int (Ztrunc_finite s m e)
  end.

(** The conversion [(int) x] is defined: [x] is a number whose integer
    part fits an [int]. *)
Definition int_of_float_defined (x : spec_float) : Prop :=
  match x with
  | S754_zero _ => True
  | S754_finite s m e => INT_MIN <= Ztrunc_finite s m e <= INT_MAX
  | S754_infinity _ | S754_nan => False
  end.

End CFloat.
Import CFloat.

(* ===================================================================== *)
(** ** [fscanf] on the two formats the program uses *)
(* ===================================================================== *)

Module Scanf.

Definition isspace (c : ascii) : bool :=
  match c with
  | " "%char | "009"%char | "010"%char | "011"%char | "012"%char
  | "013"%char => true
  | _ => false
  end.

Definition digit_value (c : ascii) : option Z :=
  let n := Z.of_nat (nat_of_ascii c) in
  if (48 <=? n) && (n <=? 57) then Some (n - 48) else None.

Fixpoint skip_space (s : string) : string :=
  match s with
  | String c r => if isspace c then skip_space r else s
  | EmptyString => s
  end.

(** The longest prefix of decimal digits, accumulated on [acc]. *)
Fixpoint scan_digits (s : string) (acc : Z) : Z * string :=
  match s with
  | String c r =>
      match digit_value c with
      | Some d => scan_digits r (10 * acc + d)
      | None => (acc, s)
      end
  | EmptyString => (acc, s)
  end.

(** [%d]: leading white space is skipped, then an optional sign and at
    least one digit are read.  The value is the number written; whether
    it fits the [int] it is stored in is the caller's matter. *)
Definition scan_int (s : string) : option (Z * string) :=
  let s1 := skip_space s in
  let '(neg, s2) :=
    match s1 with
    | String "-"%char r => (true, r)
    | String "+"%char r => (false, r)
    | _ => (false, s1)
    end in
  match s2 with
  | String c _ =>
      match digit_value c with
      | Some _ =>
          let '(v, rest) := scan_digits s2 0 in
          Some ((if neg then - v else v), rest)
      | None => None
      end
  | EmptyString => None
  end.

(** The longest prefix free of white space. *)
Fixpoint scan_word (s : string) : string * string :=
  match s with
  | String c r =>
      if isspace c then (EmptyString, s)
      else let '(w, rest) := scan_word r in (String c w, rest)
  | EmptyString => (EmptyString, s)
  end.

(** [%s]: leading white space is skipped, then a non-empty word is read. *)
Definition scan_str (s : string) : option (string * string) :=
  match skip_space s with
  | EmptyString => None
  | s1 => Some (scan_word s1)
  end.

Inductive directive : Type :=
| DSpace                 (* white space in the format *)
| DLit (c : ascii)       (* an ordinary character *)
| DInt                   (* %d *)
| DStr.                  (* %s *)

Fixpoint parse_format (fmt : string) : list directive :=
  match fmt with
  | EmptyString => []
  | String "%"%char (String "d"%char r) => DInt :: parse_format r
  | String "%"%char (String "s"%char r) => DStr :: parse_format r
  | String c r =>
      if isspace c then DSpace :: parse_format r else DLit c :: parse_format r
  end.

Inductive scanned : Type :=
| SInt (v : Z)
| SStr (w : string).

(** The converted items in order, up to the first directive that fails;
    the i-th item goes to the i-th pointer argument. *)
Fixpoint run (ds : list directive) (input : string) : list scanned :=
  match ds with
  | [] => []
  | DSpace :: ds' => run ds' (skip_space input)
  | DLit c :: ds' =>
      match input with
      | String c' r => if Ascii.eqb c c' then run ds' r else []
      | EmptyString => []
      end
  | DInt :: ds' =>
      match scan_int input with
      | Some (v, r) => SInt v :: run ds' r
      | None => []
      end
  | DStr :: ds' =>
      match scan_str input with
      | Some (w, r) => SStr w :: run ds' r
      | None => []
      end
  end.

Definition fscanf (fmt input : string) : list scanned :=
  run (parse_format fmt) input.

End Scanf.
Import Scanf.

(* ===================================================================== *)
(** ** The GPIO driver *)
(* ===================================================================== *)

(** pigpio is an external library.  The model keeps what the program
    observes of it: the mode of every pin, and the calls received in order.
    Starting PWM on a pin may change the mode the driver reports for it
    (pigpio switches the pin to an output); [pwm_mode] is that change. *)

Module Gpio.

(** Mode numbers of [pigpio.h], as in the comment of [getPinMode]. *)
Definition PI_INPUT : Z := 0.
Definition PI_OUTPUT : Z := 1.

Inductive call : Type :=
| SetMode (gpio mode : Z)
| SetPWMfrequency (gpio frequency : Z)
| SetPWMrange (gpio range : Z)
| PWM (gpio dutycycle : Z)
| Terminate.

Record board : Type := mkBoard {
  pin_mode : Z -> Z;
  calls : list call
}.

Definition set_pin (f : Z -> Z) (gpio v : Z) : Z -> Z :=
  fun p => if p =? gpio then v else f p.

Section Driver.
Variable pwm_mode : Z -> Z.

Definition gpioGetMode (b : board) (gpio : Z) : Z := pin_mode b gpio.

Definition gpioSetMode (b : board) (gpio mode : Z) : board :=
  mkBoard (set_pin (pin_mode b) gpio mode) (calls b ++ [SetMode gpio mode]).

Definition gpioSetPWMfrequency (b : board) (gpio frequency : Z) : board :=
  mkBoard (pin_mode b) (calls b ++ [SetPWMfrequency gpio frequency]).

Definition gpioSetPWMrange (b : board) (gpio range : Z) : board :=
  mkBoard (pin_mode b) (calls b ++ [SetPWMrange gpio range]).

Definition gpioPWM (b : board) (gpio dutycycle : Z) : board :=
  mkBoard (set_pin (pin_mode b) gpio (pwm_mode (pin_mode b gpio)))
          (calls b ++ [PWM gpio dutycycle]).

Definition gpioTerminate (b : board) : board :=
  mkBoard (pin_mode b) (calls b ++ [Terminate]).
End Driver.

End Gpio.
Import Gpio.

(* ===================================================================== *)
(** ** Program state *)
(* ===================================================================== *)

(** The file-scope variables of lines 15-25. *)
Record globals : Type := mkGlobals {
  PWM_PIN : Z;
  FREQUENCY : Z;
  RPM_MAX : Z;
  RPM_MIN : Z;
  RPM_OFF : Z;
  TEMP_MAX : Z;
  TEMP_LOW : Z;
  WAIT : Z;
  origPwmPinMode : Z;
  tempLimitDiffPct : spec_float;
  thermalFilename : string
}.

(** Their initialisers. *)
Definition initial_globals : globals :=
  {| PWM_PIN := 18;
     FREQUENCY := 25000;
     RPM_MAX := 5000;
     RPM_MIN := 1500;
     RPM_OFF := 0;
     TEMP_MAX := 55;
     TEMP_LOW := 40;
     WAIT := 5000;
     origPwmPinMode := -1;
     tempLimitDiffPct := S754_zero false;
     thermalFilename := "/sys/class/thermal/thermal_zone0/temp" |}.

Definition set_PWM_PIN (v : Z) (g : globals) : globals :=
  mkGlobals v (FREQUENCY g) (RPM_MAX g) (RPM_MIN g) (RPM_OFF g) (TEMP_MAX g)
            (TEMP_LOW g) (WAIT g) (origPwmPinMode g) (tempLimitDiffPct g)
            (thermalFilename g).
Definition set_RPM_MAX (v : Z) (g : globals) : globals :=
  mkGlobals (PWM_PIN g) (FREQUENCY g) v (RPM_MIN g) (RPM_OFF g) (TEMP_MAX g)
            (TEMP_LOW g) (WAIT g) (origPwmPinMode g) (tempLimitDiffPct g)
            (thermalFilename g).
Definition set_RPM_MIN (v : Z) (g : globals) : globals :=
  mkGlobals (PWM_PIN g) (FREQUENCY g) (RPM_MAX g) v (RPM_OFF g) (TEMP_MAX g)
            (TEMP_LOW g) (WAIT g) (origPwmPinMode g) (tempLimitDiffPct g)
            (thermalFilename g).
Definition set_RPM_OFF (v : Z) (g : globals) : globals :=
  mkGlobals (PWM_PIN g) (FREQUENCY g) (RPM_MAX g) (RPM_MIN g) v (TEMP_MAX g)
            (TEMP_LOW g) (WAIT g) (origPwmPinMode g) (tempLimitDiffPct g)
            (thermalFilename g).
Definition set_TEMP_MAX (v : Z) (g : globals) : globals :=
  mkGlobals (PWM_PIN g) (FREQUENCY g) (RPM_MAX g) (RPM_MIN g) (RPM_OFF g) v
            (TEMP_LOW g) (WAIT g) (origPwmPinMode g) (tempLimitDiffPct g)
            (thermalFilename g).
Definition set_TEMP_LOW (v : Z) (g : globals) : globals :=
  mkGlobals (PWM_PIN g) (FREQUENCY g) (RPM_MAX g) (RPM_MIN g) (RPM_OFF g)
            (TEMP_MAX g) v (WAIT g) (origPwmPinMode g) (tempLimitDiffPct g)
            (thermalFilename g).
Definition set_WAIT (v : Z) (g : globals) : globals :=
  mkGlobals (PWM_PIN g) (FREQUENCY g) (RPM_MAX g) (RPM_MIN g) (RPM_OFF g)
            (TEMP_MAX g) (TEMP_LOW g) v (origPwmPinMode g) (tempLimitDiffPct g)
            (thermalFilename g).
Definition set_origPwmPinMode (v : Z) (g : globals) : globals :=
  mkGlobals (PWM_PIN g) (FREQUENCY g) (RPM_MAX g) (RPM_MIN g) (RPM_OFF g)
            (TEMP_MAX g) (TEMP_LOW g) (WAIT g) v (tempLimitDiffPct g)
            (thermalFilename g).
Definition set_tempLimitDiffPct (v : spec_float) (g : globals) : globals :=
  mkGlobals (PWM_PIN g) (FREQUENCY g) (RPM_MAX g) (RPM_MIN g) (RPM_OFF g)
            (TEMP_MAX g) (TEMP_LOW g) (WAIT g) (origPwmPinMode g) v
            (thermalFilename g).
Definition set_thermalFilename (v : string) (g : globals) : globals :=
  mkGlobals (PWM_PIN g) (FREQUENCY g) (RPM_MAX g) (RPM_MIN g) (RPM_OFF g)
            (TEMP_MAX g) (TEMP_LOW g) (WAIT g) (origPwmPinMode g)
            (tempLimitDiffPct g) v.

(** The files the program can open: a path has a content or cannot be
    opened ([fopen] returns [NULL]). *)
Definition filesystem : Type := string -> option string.

Record timespec : Type := mkTimespec { tv_sec : Z; tv_nsec : Z }.

(** The whole state: the globals, the [static] local [lastRpm] of
    [setFanRpm], the driver, and the intervals handed to [nanosleep]. *)
Record state : Type := mkState {
  vars : globals;
  lastRpm : Z;
  hw : board;
  slept : list timespec
}.

(** [static int lastRpm = 0;] *)
Definition initial_lastRpm : Z := 0.

(** A call either returns or has no defined behaviour. *)
Inductive outcome (A : Type) : Type :=
| Returns (a : A)
| Undefined.
Arguments Returns {A} a.
Arguments Undefined {A}.

(* ===================================================================== *)
(** ** The functions of [fan-control.c] *)
(* ===================================================================== *)

Definition confFilename : string := "/opt/gpio/fan/params.conf".
Definition confFormat : string :=
  "PWM_PIN=%d RPM_MAX=%d RPM_MIN=%d RPM_OFF=%d TEMP_MAX=%d TEMP_LOW=%d WAIT=%d THERMAL_FILE=%s".

(** [thermalFilename] is an array of 38 characters: the 37 of its
    initialiser and the terminating null. *)
Definition thermalFilename_size : nat := 38.

(** A converted item can be stored when it fits its destination: an
    [int] for [%d], [thermalFilename] for [%s] (the word and a null).
    Otherwise [fscanf] has no defined behaviour. *)
Definition fits (v : scanned) : bool :=
  match v with
  | SInt z => (INT_MIN <=? z) && (z <=? INT_MAX)
  | SStr w => Nat.ltb (String.length w) thermalFilename_size
  end.

(** The i-th converted item of [fscanf] goes to the i-th pointer argument
    of line 43: [&PWM_PIN, &RPM_MAX, &RPM_MIN, &RPM_OFF, &TEMP_MAX,
    &TEMP_LOW, &WAIT, thermalFilename]. *)
Definition store (i : nat) (v : scanned) (g : globals) : globals :=
  match i, v with
  | 0%nat, SInt z => set_PWM_PIN z g
  | 1%nat, SInt z => set_RPM_MAX z g
  | 2%nat, SInt z => set_RPM_MIN z g
  | 3%nat, SInt z => set_RPM_OFF z g
  | 4%nat, SInt z => set_TEMP_MAX z g
  | 5%nat, SInt z => set_TEMP_LOW z g
  | 6%nat, SInt z => set_WAIT z g
  | 7%nat, SStr w => set_thermalFilename w g
  | _, _ => g
  end.

Fixpoint store_from (i : nat) (vs : list scanned) (g : globals) : globals :=
  match vs with
  | [] => g
  | v :: vs' => store_from (S i) vs' (store i v g)
  end.

(** Line 51: [tempLimitDiffPct = (float) (TEMP_MAX-TEMP_LOW)/100;] *)
Definition calcTempLimitDiffPct (g : globals) : globals :=
  set_tempLimitDiffPct
    (f32_div (f32_of_int (int_sub (TEMP_MAX g) (TEMP_LOW g))) (f32_of_int 100)) g.

(** The journal messages are not modelled. *)
Definition initFanControl (fs : filesystem) (g : globals) : outcome globals :=
  match fs confFilename with
  | Some content =>
      let items := fscanf confFormat content in
      if forallb fits items
      then Returns (calcTempLimitDiffPct (store_from 0 items g))
      else Undefined
  | None => Returns (calcTempLimitDiffPct g)
  end.

(** [gpioInitialise] succeeds or not; nothing else of it is observed. *)
Definition initPigpio (initialised : bool) : Z :=
  if initialised then 0 else -1.

(** Line 80: [currTemp = ((float) currTemp/1000)+0.5;] --- the quotient is
    a [float], the sum a [double], the assignment truncates. *)
Definition milli_to_degrees (currTemp : Z) : Z :=
  int_of_float
    (f64_add (f64_of_f32 (f32_div (f32_of_int currTemp) (f32_of_int 1000)))
             f64_half).

(** [fopen]'s result is not tested: with no file, [fscanf] is called on a
    null stream.  When nothing is converted [currTemp] keeps its
    initialiser 0. *)
Definition getCurrTemp (fs : filesystem) (g : globals) : outcome Z :=
  match fs (thermalFilename g) with
  | None => Undefined
  | Some content =>
      match fscanf "%d" content with
      | SInt currTemp :: _ =>
          if fits (SInt currTemp) then Returns (milli_to_degrees currTemp)
          else Undefined
      | _ => Returns (milli_to_degrees 0)
      end
  end.

(** Lines 95-105 of [setFanRpm]: the value of [rpm] for a temperature. *)
Definition setFanRpm_rpm (g : globals) (currTemp : Z) : Z :=
  let tempDiff := int_sub currTemp (TEMP_LOW g) in
  if 0 <? tempDiff then
    let currTempDiffPct := f32_div (f32_of_int tempDiff) (tempLimitDiffPct g) in
    let rpm :=
      int_div (int_of_float (f32_mul currTempDiffPct (f32_of_int (RPM_MAX g))))
              100 in
    if rpm <? RPM_MIN g then RPM_MIN g
    else if RPM_MAX g <? rpm then RPM_MAX g
    else rpm
  else RPM_OFF g.

(** The [float] that line 102 converts to [int], for a temperature above
    [TEMP_LOW]: [currTempDiffPct*RPM_MAX]. *)
Definition setFanRpm_product (g : globals) (currTemp : Z) : spec_float :=
  let tempDiff := int_sub currTemp (TEMP_LOW g) in
  let currTempDiffPct := f32_div (f32_of_int tempDiff) (tempLimitDiffPct g) in
  f32_mul currTempDiffPct (f32_of_int (RPM_MAX g)).

(** [delay]: the interval handed to [nanosleep]. *)
Definition delay (waitMillisec : Z) : timespec :=
  let msInSec := 1000 in
  {| tv_sec := uint_div waitMillisec (wrap_uint msInSec);
     tv_nsec := long_mul (uint_rem waitMillisec (wrap_uint msInSec)) 1000000 |}.

Section Program.
Variable pwm_mode : Z -> Z.

Definition getPinMode (b : board) (pin : Z) : Z := gpioGetMode b pin.

Definition setFanSpeed (b : board) (pin speed : Z) : board :=
  gpioPWM pwm_mode b pin speed.

Definition setupPwm (st : state) : state :=
  let g := set_origPwmPinMode (getPinMode (hw st) (PWM_PIN (vars st))) (vars st) in
  let b1 := gpioSetMode (hw st) (PWM_PIN g) PI_OUTPUT in
  let b2 := gpioSetPWMfrequency b1 (PWM_PIN g) (FREQUENCY g) in
  let b3 := gpioSetPWMrange b2 (PWM_PIN g) (RPM_MAX g) in
  let b4 := setFanSpeed b3 (PWM_PIN g) (RPM_OFF g) in
  mkState g (lastRpm st) b4 (slept st).

Definition setFanRpm (fs : filesystem) (st : state) : outcome state :=
  match getCurrTemp fs (vars st) with
  | Undefined => Undefined
  | Returns currTemp =>
      let rpm := setFanRpm_rpm (vars st) currTemp in
      let b := if lastRpm st =? rpm then hw st
               else setFanSpeed (hw st) (PWM_PIN (vars st)) rpm in
      Returns (mkState (vars st) rpm b (slept st))
  end.

(** [start]: one element of [env] per iteration made before the signal
    handler clears [keepRunning]; it is the file system that iteration
    sees. *)
Fixpoint start (env : list filesystem) (st : state) : outcome state :=
  match env with
  | [] => Returns st
  | fs :: env' =>
      match setFanRpm fs st with
      | Undefined => Undefined
      | Returns st1 =>
          let t := delay (wrap_uint (WAIT (vars st1))) in
          start env' (mkState (vars st1) (lastRpm st1) (hw st1) (slept st1 ++ [t]))
      end
  end.

Definition cleanup (st : state) : state :=
  let g := vars st in
  let b1 := setFanSpeed (hw st) (PWM_PIN g) (RPM_OFF g) in
  let b2 := gpioSetMode b1 (PWM_PIN g) (origPwmPinMode g) in
  let b3 := gpioTerminate b2 in
  mkState g (lastRpm st) b3 (slept st).

(** [main]: the exit status and the final state. *)
Definition main (fs0 : filesystem) (initialised : bool) (b0 : board)
           (env : list filesystem) : outcome (Z * state) :=
  match initFanControl fs0 initial_globals with
  | Undefined => Undefined
  | Returns g =>
      let st0 := mkState g initial_lastRpm b0 [] in
      if initPigpio initialised <? 0 then Returns (1, st0)
      else
        match start env (setupPwm st0) with
        | Undefined => Undefined
        | Returns st => Returns (0, cleanup st)
        end
  end.
End Program.

(* ===================================================================== *)
(** ** Configurations and environments used in the statements *)
(* ===================================================================== *)

(** The configuration the program runs with when there is no
    [params.conf]. *)
Definition no_files : filesystem := fun _ => None.
Definition default_globals : globals := calcTempLimitDiffPct initial_globals.

(** The invariants of a configuration. *)
Definition valid_config (g : globals) : Prop :=
  RPM_OFF g <= RPM_MIN g <= RPM_MAX g /\ TEMP_LOW g < TEMP_MAX g.

(** A configuration that satisfies the invariants with negative duty
    bounds and a temperature range of 71214582 degrees, above 2^24. *)
Definition negative_duty_globals : globals :=
  calcTempLimitDiffPct
    (set_RPM_MAX (-21000000)
      (set_RPM_MIN (-25000000)
        (set_RPM_OFF (-30000000)
          (set_TEMP_MAX 2147485 (set_TEMP_LOW (-69067097) initial_globals))))).

(** A file system with one file. *)
Definition one_file (path content : string) : filesystem :=
  fun p => if String.eqb p path then Some content else None.

(** The eight variables [fscanf] may assign, in the order of the format. *)
Definition conf_fields (g : globals) : list scanned :=
  [SInt (PWM_PIN g); SInt (RPM_MAX g); SInt (RPM_MIN g); SInt (RPM_OFF g);
   SInt (TEMP_MAX g); SInt (TEMP_LOW g); SInt (WAIT g);
   SStr (thermalFilename g)].

(** What a conversion directive produces. *)
Inductive item_kind : Type := KInt | KStr.

Definition kind_of (v : scanned) : item_kind :=
  match v with SInt _ => KInt | SStr _ => KStr end.

Fixpoint conversions (ds : list directive) : list item_kind :=
  match ds with
  | [] => []
  | DInt :: ds' => KInt :: conversions ds'
  | DStr :: ds' => KStr :: conversions ds'
  | _ :: ds' => conversions ds'
  end.

(** [items] are of the kinds of a prefix of [ks]. *)
Fixpoint kinds_prefix (items : list scanned) (ks : list item_kind) : Prop :=
  match items, ks with
  | [], _ => True
  | v :: items', k :: ks' => kind_of v = k /\ kinds_prefix items' ks'
  | _ :: _, [] => False
  end.

(** Concrete environments: a board whose pins are all inputs, driven by a
    pigpio that makes a PWM pin an output; the state once [setupPwm] has
    run with the default configuration; sensor files. *)
Definition pigpio_pwm_mode : Z -> Z := fun _ => PI_OUTPUT.
Definition idle_board : board := mkBoard (fun _ => PI_INPUT) [].
Definition default_ready : state :=
  setupPwm pigpio_pwm_mode
    (mkState default_globals initial_lastRpm idle_board []).
Definition sensor_file (content : string) : filesystem :=
  one_file (thermalFilename default_globals) content.

(* ===================================================================== *)
(** ** Rounding to nearest, ties to even, in integer arithmetic *)
(* ===================================================================== *)

(** The proofs about [float] and [double] results compare [SpecFloat]'s
    operations with the definitions of this section.  A positive number is
    kept as a fraction [a / b] of integers counted in units of [2 ^ emin],
    the smallest positive number of the format, so that every finite
    number of the format is an integer.

    The position of a fraction with respect to an integer grid is a code
    [4 * m + c]: [m] is the integer part, [c = 0] when the fraction is
    [m], 1 when it lies below [m + 1/2], 2 when it is [m + 1/2] and 3
    above.  These are [SpecFloat]'s locations. *)

Definition loc_code (l : location) : Z :=
  match l with
  | loc_Exact => 0
  | loc_Inexact Lt => 1
  | loc_Inexact Eq => 2
  | loc_Inexact Gt => 3
  end.

(** The code held by a shift record: mantissa, round bit, sticky bit. *)
Definition rec_code (r : shr_record) : Z :=
  4 * shr_m r + (if shr_r r then 2 else 0) + (if shr_s r then 1 else 0).

(** The code of the fraction [a / b]. *)
Definition frac_code (a b : Z) : Z :=
  2 * ((2 * a) / b) + (if (2 * a) mod b =? 0 then 0 else 1).

(** The code of half the fraction. *)
Definition halve_code (k : Z) : Z :=
  2 * (k / 4) + (if k mod 4 =? 0 then 0 else 1).

(** The integer nearest to a coded fraction, a tie going to the even one. *)
Definition nearest_even (k : Z) : Z :=
  let m := k / 4 in
  let c := k mod 4 in
  if c <=? 1 then m
  else if c =? 2 then (if Z.even m then m else m + 1)
  else m + 1.

(** The exponent, above [emin], of the grid on which [a / b] is rounded
    with [prec] bits: 0 for subnormal numbers. *)
Definition grid_exp (prec a b : Z) : Z := Z.max (Z.log2 (a / b) + 1 - prec) 0.

(** [a / b] rounded to nearest-even with [prec] bits. *)
Definition rnd (prec a b : Z) : Z :=
  let E := grid_exp prec a b in
  nearest_even (frac_code a (b * 2 ^ E)) * 2 ^ E.

(** [x] is a positive normal number: a mantissa of [prec] bits, an
    exponent within [[lo, hi]], and the value [v] in units of
    [2 ^ emin]. *)
Definition normal_pos (prec emax : Z) (x : spec_float) (lo hi v : Z) : Prop :=
  exists m e,
    x = S754_finite false m e /\ Zdigits2 (Zpos m) = prec /\
    lo <= e <= hi /\ Zpos m * 2 ^ (e - emin prec emax) = v.

(** [x] is a positive finite number of value [v] in units of [2 ^ emin]. *)
Definition finite_pos (prec emax : Z) (x : spec_float) (v : Z) : Prop :=
  exists m e,
    x = S754_finite false m e /\ emin prec emax <= e /\
    Zpos m * 2 ^ (e - emin prec emax) = v.

(** The values, in units of [2 ^ -149], of [(float) n], of
    [tempLimitDiffPct] for a temperature range, of [currTempDiffPct] and
    of the product of line 102. *)
Definition int_value (n : Z) : Z := rnd prec32 (n * 2 ^ 149) 1.
Definition limit_value (range : Z) : Z :=
  rnd prec32 (int_value range * 2 ^ 149) (int_value 100).
Definition pct_value (range tempDiff : Z) : Z :=
  rnd prec32 (int_value tempDiff * 2 ^ 149) (limit_value range).
Definition product_value (range rpmMax tempDiff : Z) : Z :=
  rnd prec32 (pct_value range tempDiff * int_value rpmMax) (2 ^ 149).

(** The value of the [double] of line 80, in units of [2 ^ -1074]. *)
Definition degrees_value (n : Z) : Z :=
  rnd prec64
      (rnd prec64 (rnd prec32 (int_value n * 2 ^ 149) (int_value 1000) * 2 ^ 925) 1
       + 2 ^ 1073) 1.

(** The readings that round to [k] degrees run from [degrees_low k] to
    [degrees_high k]; [degrees_check k] evaluates line 80 at both ends. *)
Definition max_exact_reading : Z := 16777498.
Definition degrees_low (k : Z) : Z := if k =? 0 then 1 else 1000 * k - 500.
Definition degrees_high (k : Z) : Z := Z.min (1000 * k + 499) max_exact_reading.
Definition degrees_check (k : Z) : bool :=
  (milli_to_degrees (degrees_low k) =? k) && (milli_to_degrees (degrees_high k) =? k).
Fixpoint degrees_check_from (fuel : nat) (k : Z) : bool :=
  match fuel with
  | O => true
  | S fuel' => degrees_check k && degrees_check_from fuel' (k + 1)
  end.

(* ===================================================================== *)
(** ** Runs of the loop and the text of the files *)
(* ===================================================================== *)

(** The duties [setFanRpm] writes when the successive values of [rpm] are
    [rs] and [lastRpm] starts at [last] (lines 106-107). *)
Fixpoint written (last : Z) (rs : list Z) : list Z :=
  match rs with
  | [] => []
  | rpm :: rs' =>
      if last =? rpm then written rpm rs' else rpm :: written rpm rs'
  end.

(** No element of [ds] equals the one before it, [prev] standing before
    the first. *)
Fixpoint no_repeat (prev : Z) (ds : list Z) : Prop :=
  match ds with
  | [] => True
  | d :: ds' => d <> prev /\ no_repeat d ds'
  end.

(** The pin a driver call addresses. *)
Definition call_gpio (c : call) : option Z :=
  match c with
  | SetMode gpio _ | SetPWMfrequency gpio _ | SetPWMrange gpio _
  | PWM gpio _ => Some gpio
  | Terminate => None
  end.

(** The sensor gives the temperatures [ts], one per iteration. *)
Definition readings (g : globals) (env : list filesystem) (ts : list Z) : Prop :=
  Forall2 (fun fs t => getCurrTemp fs g = Returns t) env ts.

(** The decimal text of an integer, as [printf]'s [%d] writes it. *)
Definition decimal (z : Z) : string :=
  DecimalString.NilEmpty.string_of_int (Z.to_int z).

(** The end of a line. *)
Definition newline : string := String "010" EmptyString.

(** The text is white space only. *)
Fixpoint blank (s : string) : bool :=
  match s with
  | EmptyString => true
  | String c r => isspace c && blank r
  end.

(** The text does not go on with a digit. *)
Definition no_digit_ahead (s : string) : Prop :=
  match s with
  | EmptyString => True
  | String c _ => digit_value c = None
  end.

(** The text is empty or goes on with white space. *)
Definition ends_word (s : string) : Prop :=
  match s with
  | EmptyString => True
  | String c _ => isspace c = true
  end.

(** A non-empty word free of white space. *)
Fixpoint solid (w : string) : bool :=
  match w with
  | EmptyString => true
  | String c r => negb (isspace c) && solid r
  end.
Definition word (w : string) : Prop := w <> EmptyString /\ solid w = true.

(** A [params.conf] with its eight fields, [sep] between them and [tail]
    after the last. *)
Definition conf_text (sep : string) (pin rpmMax rpmMin rpmOff tempMax tempLow wait : Z)
           (thermalFile tail : string) : string :=
  "PWM_PIN=" ++ decimal pin ++ sep ++
  "RPM_MAX=" ++ decimal rpmMax ++ sep ++
  "RPM_MIN=" ++ decimal rpmMin ++ sep ++
  "RPM_OFF=" ++ decimal rpmOff ++ sep ++
  "TEMP_MAX=" ++ decimal tempMax ++ sep ++
  "TEMP_LOW=" ++ decimal tempLow ++ sep ++
  "WAIT=" ++ decimal wait ++ sep ++
  "THERMAL_FILE=" ++ thermalFile ++ tail.

(** The directives of a run of ordinary characters. *)
Fixpoint literal (s : string) : list directive :=
  match s with
  | EmptyString => []
  | String c r => DLit c :: literal r
  end.

(** The value of the digits [d] read after an accumulated [acc]. *)
Fixpoint uint_value (d : Decimal.uint) (acc : Z) : Z :=
  match d with
  | Decimal.Nil => acc
  | Decimal.D0 d' => uint_value d' (10 * acc)
  | Decimal.D1 d' => uint_value d' (10 * acc + 1)
  | Decimal.D2 d' => uint_value d' (10 * acc + 2)
  | Decimal.D3 d' => uint_value d' (10 * acc + 3)
  | Decimal.D4 d' => uint_value d' (10 * acc + 4)
  | Decimal.D5 d' => uint_value d' (10 * acc + 5)
  | Decimal.D6 d' => uint_value d' (10 * acc + 6)
  | Decimal.D7 d' => uint_value d' (10 * acc + 7)
  | Decimal.D8 d' => uint_value d' (10 * acc + 8)
  | Decimal.D9 d' => uint_value d' (10 * acc + 9)
  end.

(** The names of the seven integer fields of [confFormat], in its order,
    and the name of the last field. *)
Definition int_field_names : list string :=
  ["PWM_PIN="; "RPM_MAX="; "RPM_MIN="; "RPM_OFF="; "TEMP_MAX="; "TEMP_LOW=";
   "WAIT="]%string.
Definition thermal_field_name : string := "THERMAL_FILE=".

(** The start of a [params.conf]: the leading fields, each written as
    its name, the decimal text of its value and [sep], and then
    [rest]. *)
Fixpoint fields_text (sep : string) (names : list string) (vals : list Z)
         (rest : string) : string :=
  match names, vals with
  | name :: names', v :: vals' =>
      name ++ decimal v ++ sep ++ fields_text sep names' vals' rest
  | _, _ => rest
  end.

(** The directives of a run of integer fields, followed by [ds]. *)
Fixpoint int_fields (names : list string) (ds : list directive) : list directive :=
  match names with
  | [] => ds
  | name :: names' => literal name ++ DInt :: DSpace :: int_fields names' ds
  end.

(** The text [rest] that follows [k] leading fields does not hold the
    next field: it does not go on (after white space, when [k > 0]) with
    the name of field [k], or that name is followed by something its
    conversion refuses. *)
Definition next_name (k : nat) : string := nth k int_field_names thermal_field_name.
Definition next_value_fails (k : nat) (s : string) : Prop :=
  if (k <? 7)%nat then scan_int s = None else scan_str s = None.
Definition no_next_field (k : nat) (rest : string) : Prop :=
  let input := match k with O => rest | S _ => skip_space rest end in
  String.prefix (next_name k) input = false \/
  exists r, input = (next_name k ++ r)%string /\ next_value_fails k r.

(** The value of the [double] quotient of line 80 for a reading of [p]
    millidegrees, in units of [2 ^ -1074], and the value of the sum of
    line 80, negated, for a reading of [- p]. *)
Definition quotient_value (p : Z) : Z :=
  rnd prec64 (rnd prec32 (int_value p * 2 ^ 149) (int_value 1000) * 2 ^ 925) 1.
Definition below_zero_value (p : Z) : Z :=
  rnd prec64 (Z.max (quotient_value p - 2 ^ 1073) 0) 1.

(** Absolute zero, in millidegrees Celsius. *)
Definition absolute_zero : Z := -273150.

(** The readings below zero that line 80 turns into [- k] degrees run
    from [below_zero_low k] to [below_zero_high k];
    [below_zero_check k] evaluates line 80 at both ends. *)
Definition below_zero_low (k : Z) : Z := -1000 * k - 1499.
Definition below_zero_high (k : Z) : Z := if k =? 0 then -1 else -1000 * k - 500.
Definition below_zero_check (k : Z) : bool :=
  (milli_to_degrees (below_zero_low k) =? - k) &&
  (milli_to_degrees (below_zero_high k) =? - k).
Fixpoint below_zero_check_from (fuel : nat) (k : Z) : bool :=
  match fuel with
  | O => true
  | S fuel' => below_zero_check k && below_zero_check_from fuel' (k + 1)
  end.

(* ===================================================================== *)
(** * Verification *)
(* ===================================================================== *)

(** ** C integers *)

Lemma wrap_int_id (z : Z) : in_int z -> wrap_int z = z.
Proof.
  unfold in_int, INT_MIN, INT_MAX, wrap_int. intros H.
  rewrite Z.mod_small; lia.
Qed.

Lemma wrap_int_range (z : Z) : in_int (wrap_int z).
Proof.
  unfold in_int, INT_MIN, INT_MAX, wrap_int.
  pose proof (Z.mod_pos_bound (z + 2147483648) 4294967296). lia.
Qed.

Lemma saturate_int_range (z : Z) : in_int (saturate_int z).
Proof.
  unfold in_int, saturate_int, INT_MIN, INT_MAX.
  destruct (Z.ltb_spec z (-2147483648)); [lia|].
  destruct (Z.ltb_spec 2147483647 z); lia.
Qed.

Lemma saturate_int_mono (a b : Z) : a <= b -> saturate_int a <= saturate_int b.
Proof.
  unfold saturate_int, INT_MIN, INT_MAX. intros H.
  destruct (Z.ltb_spec a (-2147483648)), (Z.ltb_spec b (-2147483648));
    destruct (Z.ltb_spec 2147483647 a), (Z.ltb_spec 2147483647 b); lia.
Qed.

Lemma int_of_float_range (x : spec_float) : in_int (int_of_float x).
Proof.
  destruct x as [s|s| |s m e]; simpl.
  - unfold in_int, INT_MIN, INT_MAX; lia.
  - destruct s; unfold in_int, INT_MIN, INT_MAX; lia.
  - unfold in_int, INT_MIN, INT_MAX; lia.
  - apply saturate_int_range.
Qed.

(** Where the conversion is defined it is the integer part of the number:
    the value chosen out of range plays no part. *)
Lemma int_of_float_defined_trunc (x : spec_float) :
  int_of_float_defined x ->
  int_of_float x =
    match x with
    | S754_finite s m e => Ztrunc_finite s m e
    | _ => 0
    end.
Proof.
  destruct x as [s|s| |s m e]; cbn [int_of_float_defined int_of_float];
    try reflexivity; try contradiction.
  unfold saturate_int. intros [L U].
  destruct (Z.ltb_spec (Ztrunc_finite s m e) INT_MIN); [lia|].
  destruct (Z.ltb_spec INT_MAX (Ztrunc_finite s m e)); [lia|reflexivity].
Qed.

Lemma int_div_100 (a : Z) : in_int a -> int_div a 100 = Z.quot a 100.
Proof.
  intros H. unfold int_div. apply wrap_int_id.
  unfold in_int, INT_MIN, INT_MAX in *.
  assert (Z.quot (-2147483648) 100 <= Z.quot a 100) by (apply Z.quot_le_mono; lia).
  assert (Z.quot a 100 <= Z.quot 2147483647 100) by (apply Z.quot_le_mono; lia).
  change (Z.quot (-2147483648) 100) with (-21474836) in *.
  change (Z.quot 2147483647 100) with 21474836 in *. lia.
Qed.

(** ** The speed mapper: range and cut-off *)

(** The clamp of line 103. *)
Lemma clamp_range (lo hi r : Z) :
  lo <= hi ->
  lo <= (if r <? lo then lo else if hi <? r then hi else r) <= hi.
Proof.
  intros H. destruct (Z.ltb_spec r lo); [lia|].
  destruct (Z.ltb_spec hi r); lia.
Qed.

Lemma clamp_mono (lo hi r1 r2 : Z) :
  lo <= hi -> r1 <= r2 ->
  (if r1 <? lo then lo else if hi <? r1 then hi else r1) <=
  (if r2 <? lo then lo else if hi <? r2 then hi else r2).
Proof.
  intros H H12.
  destruct (Z.ltb_spec r1 lo), (Z.ltb_spec r2 lo);
    destruct (Z.ltb_spec hi r1), (Z.ltb_spec hi r2); lia.
Qed.

(** C1.  For every temperature and every configuration with
    [RPM_OFF <= RPM_MIN <= RPM_MAX] and [TEMP_LOW < TEMP_MAX], the value of
    [rpm] computed by [setFanRpm] is [RPM_OFF] or lies in
    [[RPM_MIN, RPM_MAX]]; it is never strictly between [RPM_OFF] and
    [RPM_MIN]. *)
Theorem setFanRpm_rpm_off_or_in_range (g : globals) (currTemp : Z) :
  valid_config g ->
  (setFanRpm_rpm g currTemp = RPM_OFF g \/
   RPM_MIN g <= setFanRpm_rpm g currTemp <= RPM_MAX g) /\
  ~ (RPM_OFF g < setFanRpm_rpm g currTemp < RPM_MIN g).
Proof.
  intros [[Hoff Hmin] _].
  assert (D : setFanRpm_rpm g currTemp = RPM_OFF g \/
              RPM_MIN g <= setFanRpm_rpm g currTemp <= RPM_MAX g).
  { unfold setFanRpm_rpm.
    destruct (0 <? int_sub currTemp (TEMP_LOW g)); [right|left; reflexivity].
    apply clamp_range; assumption. }
  split; [exact D|]. destruct D as [D|D]; lia.
Qed.

Lemma setFanRpm_rpm_off_or_in_range_witness :
  valid_config default_globals /\
  ((setFanRpm_rpm default_globals 47 = RPM_OFF default_globals \/
    RPM_MIN default_globals <= setFanRpm_rpm default_globals 47
      <= RPM_MAX default_globals) /\
   ~ (RPM_OFF default_globals < setFanRpm_rpm default_globals 47
        < RPM_MIN default_globals)).
Proof.
  assert (V : valid_config default_globals) by (unfold valid_config; simpl; lia).
  split; [exact V|].
  exact (setFanRpm_rpm_off_or_in_range default_globals 47 V).
Defined.

(** C2.  For every temperature at or below [TEMP_LOW] (the subtraction
    [currTemp - TEMP_LOW] being representable), [rpm] is exactly [RPM_OFF];
    in particular at [currTemp = TEMP_LOW]. *)
Theorem setFanRpm_rpm_at_or_below_low (g : globals) (currTemp : Z) :
  INT_MIN <= currTemp - TEMP_LOW g ->
  currTemp <= TEMP_LOW g ->
  setFanRpm_rpm g currTemp = RPM_OFF g /\
  setFanRpm_rpm g (TEMP_LOW g) = RPM_OFF g.
Proof.
  intros Hrep Hle. unfold setFanRpm_rpm, int_sub. split.
  - rewrite wrap_int_id by (unfold in_int, INT_MAX; lia).
    destruct (Z.ltb_spec 0 (currTemp - TEMP_LOW g)); [lia|reflexivity].
  - rewrite Z.sub_diag. reflexivity.
Qed.

Lemma setFanRpm_rpm_at_or_below_low_witness :
  setFanRpm_rpm default_globals 40 = 0 /\
  setFanRpm_rpm default_globals (TEMP_LOW default_globals) = 0.
Proof.
  apply (setFanRpm_rpm_at_or_below_low default_globals 40).
  - unfold INT_MIN; simpl; lia.
  - simpl; lia.
Defined.

(** ** [delay] *)

(** C10.  For every [unsigned int] argument the interval built by [delay]
    is exact: [tv_sec * 10^9 + tv_nsec = waitMillisec * 10^6] with
    [0 <= tv_nsec < 10^9]. *)
Theorem delay_exact (waitMillisec : Z) :
  in_uint waitMillisec ->
  tv_sec (delay waitMillisec) * 1000000000 + tv_nsec (delay waitMillisec)
    = waitMillisec * 1000000 /\
  0 <= tv_nsec (delay waitMillisec) < 1000000000.
Proof.
  unfold in_uint, UINT_MAX. intros H.
  unfold delay, uint_div, uint_rem, long_mul, wrap_long; simpl tv_sec; simpl tv_nsec.
  change (wrap_uint 1000) with 1000.
  pose proof (Z.mod_pos_bound waitMillisec 1000 ltac:(lia)) as Hm.
  pose proof (Z.div_mod waitMillisec 1000 ltac:(lia)) as Hd.
  rewrite wrap_int_id by (unfold in_int, INT_MIN, INT_MAX; lia).
  lia.
Qed.

Lemma delay_exact_witness :
  tv_sec (delay 5250) * 1000000000 + tv_nsec (delay 5250) = 5250 * 1000000 /\
  0 <= tv_nsec (delay 5250) < 1000000000.
Proof.
  apply (delay_exact 5250). unfold in_uint, UINT_MAX. lia.
Defined.

(** ** PWM set-up and clean-up *)

Lemma set_pin_same (f : Z -> Z) (gpio v : Z) : set_pin f gpio v gpio = v.
Proof. unfold set_pin. rewrite Z.eqb_refl. reflexivity. Qed.

(** C8.  Whatever the mode [m] of the PWM pin before [setupPwm], the
    set-up records [m] in [origPwmPinMode], and [cleanup] run after it
    leaves the pin in mode [m]; [cleanup] writes [RPM_OFF] first, then
    restores the mode, then releases the driver. *)
Theorem setupPwm_cleanup_restores_mode (pwm_mode : Z -> Z) (st : state) :
  let pin := PWM_PIN (vars st) in
  let m := gpioGetMode (hw st) pin in
  let st1 := setupPwm pwm_mode st in
  let st2 := cleanup pwm_mode st1 in
  origPwmPinMode (vars st1) = m /\
  In (SetMode pin PI_OUTPUT) (calls (hw st1)) /\
  gpioGetMode (hw st2) pin = m /\
  calls (hw st2) =
    calls (hw st1) ++ [PWM pin (RPM_OFF (vars st)); SetMode pin m; Terminate].
Proof.
  destruct st as [g l b sl]. cbv zeta. simpl vars. simpl hw.
  split; [reflexivity|]. split.
  { simpl. rewrite !in_app_iff. simpl. tauto. }
  split.
  - unfold cleanup, gpioGetMode. simpl. apply set_pin_same.
  - unfold cleanup. simpl. rewrite <- !app_assoc. reflexivity.
Qed.

(** [setFanRpm] and the loop leave the globals alone. *)
Lemma setFanRpm_vars (pwm_mode : Z -> Z) (fs : filesystem) (st st' : state) :
  setFanRpm pwm_mode fs st = Returns st' -> vars st' = vars st.
Proof.
  unfold setFanRpm. destruct (getCurrTemp fs (vars st)); [|discriminate].
  intros H; injection H as <-. reflexivity.
Qed.

Lemma start_vars (pwm_mode : Z -> Z) (env : list filesystem) :
  forall st st', start pwm_mode env st = Returns st' -> vars st' = vars st.
Proof.
  induction env as [|fs env IH]; intros st st' H; simpl in H.
  - injection H as <-. reflexivity.
  - destruct (setFanRpm pwm_mode fs st) as [st1|] eqn:E; [|discriminate].
    apply IH in H. simpl in H. rewrite H.
    eapply setFanRpm_vars; eassumption.
Qed.

(** A complete run: whenever [main] returns after a successful start of
    pigpio, it returns 0 and the PWM pin is back in the mode it had on
    entry, however many iterations the loop made. *)
Theorem main_restores_mode (pwm_mode : Z -> Z) (fs0 : filesystem) (b0 : board)
        (env : list filesystem) (code : Z) (st : state) :
  main pwm_mode fs0 true b0 env = Returns (code, st) ->
  code = 0 /\
  gpioGetMode (hw st) (PWM_PIN (vars st)) = gpioGetMode b0 (PWM_PIN (vars st)).
Proof.
  unfold main.
  destruct (initFanControl fs0 initial_globals) as [g|]; [|discriminate].
  cbn [initPigpio Z.ltb Z.compare].
  destruct (start pwm_mode env _) as [st1|] eqn:E; [|discriminate].
  intros H; injection H as <- <-. split; [reflexivity|].
  apply start_vars in E. unfold cleanup, gpioGetMode. simpl.
  rewrite E. simpl. apply set_pin_same.
Qed.

Lemma main_restores_mode_witness :
  0 = 0 /\
  gpioGetMode (hw (cleanup pigpio_pwm_mode default_ready)) 18 =
  gpioGetMode idle_board 18.
Proof.
  exact (main_restores_mode pigpio_pwm_mode no_files idle_board [] 0
           (cleanup pigpio_pwm_mode default_ready) eq_refl).
Defined.

(** ** The first iteration of the loop *)

(** C5 does not hold: [lastRpm] starts at 0, the default [RPM_OFF], and a
    first reading of 35 degrees with the default configuration gives the
    duty 0, which is not written. *)
Lemma first_duty_zero_not_written :
  initial_lastRpm = setFanRpm_rpm default_globals 35 /\
  setFanRpm pigpio_pwm_mode (sensor_file "35000") default_ready =
    Returns (mkState (vars default_ready) 0 (hw default_ready) []).
Proof. split; reflexivity. Qed.

(** C5, amended.  [lastRpm] is initialised to 0; on the first iteration the
    duty computed from the first reading is written to the driver exactly
    when it differs from 0. *)
Theorem first_iteration_writes_unless_zero (pwm_mode : Z -> Z)
        (fs : filesystem) (g : globals) (b : board) (sl : list timespec)
        (currTemp : Z) :
  getCurrTemp fs g = Returns currTemp ->
  initial_lastRpm = 0 /\
  exists st1,
    setFanRpm pwm_mode fs (mkState g initial_lastRpm b sl) = Returns st1 /\
    lastRpm st1 = setFanRpm_rpm g currTemp /\
    calls (hw st1) =
      calls b ++ (if setFanRpm_rpm g currTemp =? 0 then []
                  else [PWM (PWM_PIN g) (setFanRpm_rpm g currTemp)]).
Proof.
  intros H. split; [reflexivity|].
  unfold setFanRpm. simpl vars. rewrite H. eexists. split; [reflexivity|].
  split; [reflexivity|]. cbv beta iota zeta delta [hw lastRpm initial_lastRpm].
  rewrite (Z.eqb_sym 0).
  destruct (setFanRpm_rpm g currTemp =? 0).
  - rewrite app_nil_r. reflexivity.
  - reflexivity.
Qed.

Lemma first_iteration_writes_unless_zero_witness :
  initial_lastRpm = 0 /\
  exists st1,
    setFanRpm pigpio_pwm_mode (sensor_file "47000")
      (mkState default_globals initial_lastRpm idle_board []) = Returns st1 /\
    lastRpm st1 = setFanRpm_rpm default_globals 47 /\
    calls (hw st1) =
      calls idle_board ++ (if setFanRpm_rpm default_globals 47 =? 0 then []
                           else [PWM (PWM_PIN default_globals)
                                     (setFanRpm_rpm default_globals 47)]).
Proof.
  apply (first_iteration_writes_unless_zero pigpio_pwm_mode
           (sensor_file "47000") default_globals idle_board [] 47).
  reflexivity.
Defined.

(** ** The sensor reader on unusable input *)

Lemma fscanf_int (content : string) :
  fscanf "%d" content =
    match scan_int content with
    | Some (v, _) => [SInt v]
    | None => []
    end.
Proof.
  unfold fscanf. simpl. destruct (scan_int content) as [[v r]|]; reflexivity.
Qed.

(** C6 does not hold: a content that is not a number is read as the
    temperature 0, like a genuine reading of 0 millidegrees. *)
Lemma unparsable_reading_is_zero :
  scan_int "n/a" = None /\
  getCurrTemp (sensor_file "n/a") default_globals = Returns 0 /\
  getCurrTemp (sensor_file "0") default_globals = Returns 0.
Proof. repeat split; reflexivity. Qed.

(** C6, amended.  When the content of the sensor file does not start with
    an integer, [getCurrTemp] does not fail: it returns 0. *)
Theorem getCurrTemp_unparsable (fs : filesystem) (g : globals)
        (content : string) :
  fs (thermalFilename g) = Some content ->
  scan_int content = None ->
  getCurrTemp fs g = Returns 0.
Proof.
  intros Hf Hs. unfold getCurrTemp. rewrite Hf, fscanf_int, Hs. reflexivity.
Qed.

Lemma getCurrTemp_unparsable_witness :
  getCurrTemp (sensor_file "n/a") default_globals = Returns 0.
Proof.
  apply (getCurrTemp_unparsable (sensor_file "n/a") default_globals "n/a");
    reflexivity.
Defined.

(** ** Loading the configuration *)

(** [fscanf] converts items of the kinds its format asks for, in order,
    and stops at the first failure. *)
Lemma run_kinds (ds : list directive) :
  forall input, kinds_prefix (run ds input) (conversions ds).
Proof.
  induction ds as [|d ds IH]; intros input; [exact I|].
  destruct d; simpl.
  - apply IH.
  - destruct input as [|c' r]; [exact I|].
    destruct (Ascii.eqb c c'); [apply IH|exact I].
  - destruct (scan_int input) as [[v r]|]; [|exact I].
    simpl. split; [reflexivity|apply IH].
  - destruct (scan_str input) as [[w r]|]; [|exact I].
    simpl. split; [reflexivity|apply IH].
Qed.

Lemma confFormat_conversions :
  conversions (parse_format confFormat) = [KInt; KInt; KInt; KInt; KInt; KInt; KInt; KStr].
Proof. reflexivity. Qed.

Ltac next_item items H :=
  destruct items as [|[?z|?w] items];
  [ split; [|split; [|split; [|split]]]; (reflexivity || (simpl; lia))
  | try (simpl in H; destruct H as [? H]; discriminate)
  | try (simpl in H; destruct H as [? H]; discriminate) ];
  try (simpl in H; destruct H as [_ H]).

(** Storing a run of converted items overrides the leading fields and
    nothing else. *)
Lemma store_from_fields (items : list scanned) (g : globals) :
  kinds_prefix items [KInt; KInt; KInt; KInt; KInt; KInt; KInt; KStr] ->
  (List.length items <= 8)%nat /\
  conf_fields (store_from 0 items g) =
    items ++ skipn (List.length items) (conf_fields g) /\
  FREQUENCY (store_from 0 items g) = FREQUENCY g /\
  origPwmPinMode (store_from 0 items g) = origPwmPinMode g /\
  tempLimitDiffPct (store_from 0 items g) = tempLimitDiffPct g.
Proof.
  intros H.
  do 8 (next_item items H).
  destruct items; [|contradiction].
  split; [|split; [|split; [|split]]]; (reflexivity || (simpl; lia)).
Qed.

(** C7 does not hold as stated: a file whose second field does not parse
    still overrides the first, and a file holding only a later field
    overrides nothing. *)
Lemma partial_conf_overrides_prefix :
  fscanf confFormat "PWM_PIN=12 RPM_MAX=oops" = [SInt 12] /\
  initFanControl (one_file confFilename "PWM_PIN=12 RPM_MAX=oops") initial_globals
    = Returns (set_PWM_PIN 12 default_globals) /\
  PWM_PIN default_globals = 18 /\
  initFanControl (one_file confFilename "RPM_MAX=4000") initial_globals
    = Returns default_globals.
Proof. repeat split; reflexivity. Qed.

Lemma fscanf_confFormat_kinds (content : string) :
  kinds_prefix (fscanf confFormat content)
               [KInt; KInt; KInt; KInt; KInt; KInt; KInt; KStr].
Proof.
  unfold fscanf. rewrite <- confFormat_conversions. apply run_kinds.
Qed.

Lemma calcTempLimitDiffPct_fields (g : globals) :
  FREQUENCY (calcTempLimitDiffPct g) = FREQUENCY g /\
  conf_fields (calcTempLimitDiffPct g) = conf_fields g /\
  tempLimitDiffPct (calcTempLimitDiffPct g) =
    f32_div (f32_of_int (int_sub (TEMP_MAX (calcTempLimitDiffPct g))
                                 (TEMP_LOW (calcTempLimitDiffPct g))))
            (f32_of_int 100).
Proof. repeat split. Qed.

(** ** The speed mapper at the upper threshold *)

(** C3 at the default configuration: at 55 degrees the quotient
    [15 / 0.15f] rounds to the [float] just below 100, the product with
    5000 truncates to 499999, and the duty is 4999, not [RPM_MAX]. *)
Theorem setFanRpm_rpm_default_at_TEMP_MAX :
  tempLimitDiffPct default_globals = S754_finite false 10066330 (-26) /\
  f32_div (f32_of_int 15) (tempLimitDiffPct default_globals)
    = S754_finite false 13107199 (-17) /\
  f32_mul (S754_finite false 13107199 (-17)) (f32_of_int 5000)
    = S754_finite false 15999999 (-5) /\
  setFanRpm_rpm default_globals (TEMP_MAX default_globals) = 4999 /\
  RPM_MAX default_globals = 5000.
Proof. repeat split; reflexivity. Qed.

(* ===================================================================== *)
(** ** Rounding: codes, shifts and the nearest even integer *)
(* ===================================================================== *)

(** [SpecFloat] iterates over a [positive]; the proofs count in [nat]. *)
Lemma iter_pos_nat {A : Type} (f : A -> A) (p : positive) :
  forall x, iter_pos f p x = Nat.iter (Pos.to_nat p) f x.
Proof.
  induction p as [p IH|p IH|]; intros x.
  - change (iter_pos f p~1 x) with (iter_pos f p (iter_pos f p (f x))).
    rewrite !IH, Pos2Nat.inj_xI, Nat.iter_succ_r.
    replace (2 * Pos.to_nat p)%nat with (Pos.to_nat p + Pos.to_nat p)%nat by lia.
    rewrite Nat.iter_add. reflexivity.
  - change (iter_pos f p~0 x) with (iter_pos f p (iter_pos f p x)).
    rewrite !IH, Pos2Nat.inj_xO.
    replace (2 * Pos.to_nat p)%nat with (Pos.to_nat p + Pos.to_nat p)%nat by lia.
    rewrite Nat.iter_add. reflexivity.
  - reflexivity.
Qed.

Lemma rec_code_of_loc (m : Z) (l : location) :
  rec_code (shr_record_of_loc m l) = 4 * m + loc_code l.
Proof. destruct l as [|[| |]]; unfold rec_code; simpl; lia. Qed.

Lemma shr_1_m (r : shr_record) : 0 <= shr_m r -> shr_m (shr_1 r) = shr_m r / 2.
Proof.
  destruct r as [m rb sb]. cbn [shr_m]. intros H.
  destruct m as [|[p|p|]|p]; cbn [shr_1 shr_m]; try lia.
  - reflexivity.
  - rewrite Pos2Z.inj_xI. apply (Z.div_unique _ _ _ 1); lia.
  - rewrite Pos2Z.inj_xO. apply (Z.div_unique _ _ _ 0); lia.
  - reflexivity.
Qed.

Lemma div_mod_4 (q c : Z) :
  0 <= c < 4 -> (4 * q + c) / 4 = q /\ (4 * q + c) mod 4 = c.
Proof.
  intros Hc. split.
  - symmetry. apply (Z.div_unique _ _ _ c); lia.
  - symmetry. apply (Z.mod_unique _ _ q); lia.
Qed.

Lemma halve_code_eq (q c : Z) :
  0 <= c < 4 -> halve_code (4 * q + c) = 2 * q + (if c =? 0 then 0 else 1).
Proof.
  intros Hc. unfold halve_code. destruct (div_mod_4 q c Hc) as [-> ->]. reflexivity.
Qed.

(** One right shift of a record halves the fraction it locates. *)
Lemma shr_1_code (r : shr_record) :
  0 <= shr_m r -> rec_code (shr_1 r) = halve_code (rec_code r).
Proof.
  destruct r as [m rb sb]. unfold rec_code at 2. cbn [shr_m shr_r shr_s].
  intros H.
  replace (4 * m + (if rb then 2 else 0) + (if sb then 1 else 0))
    with (4 * m + ((if rb then 2 else 0) + (if sb then 1 else 0))) by lia.
  rewrite halve_code_eq by (destruct rb, sb; lia).
  unfold rec_code.
  destruct m as [|[p|p|]|p]; try lia; cbn [shr_1 shr_m shr_r shr_s];
    try rewrite Pos2Z.inj_xI; try rewrite Pos2Z.inj_xO;
    destruct rb, sb; cbn; lia.
Qed.

Lemma frac_code_split (a b : Z) :
  0 < b ->
  frac_code a b = 4 * (a / b) + (2 * (((2 * a) / b) mod 2) +
                                 (if (2 * a) mod b =? 0 then 0 else 1)) /\
  0 <= 2 * (((2 * a) / b) mod 2) + (if (2 * a) mod b =? 0 then 0 else 1) < 4.
Proof.
  intros Hb. unfold frac_code.
  assert (E : a / b = ((2 * a) / b) / 2).
  { rewrite Z.div_div by lia. rewrite (Z.mul_comm b 2).
    rewrite Z.div_mul_cancel_l by lia. reflexivity. }
  pose proof (Z.div_mod ((2 * a) / b) 2 ltac:(lia)) as D.
  pose proof (Z.mod_pos_bound ((2 * a) / b) 2 ltac:(lia)) as B.
  rewrite E. split.
  - lia.
  - destruct ((2 * a) mod b =? 0); lia.
Qed.

Lemma frac_code_div4 (a b : Z) : 0 < b -> frac_code a b / 4 = a / b.
Proof.
  intros Hb. destruct (frac_code_split a b Hb) as [E B].
  rewrite E. apply (div_mod_4 _ _ B).
Qed.

Ltac case_eqb0 :=
  repeat match goal with
         | |- context [?x =? 0] =>
             lazymatch x with
             | context [Z.eqb] => fail
             | _ => destruct (Z.eqb_spec x 0)
             end
         end.

(** Doubling the denominator halves the code. *)
Lemma frac_code_double (a b : Z) :
  0 < b -> frac_code a (2 * b) = halve_code (frac_code a b).
Proof.
  intros Hb. destruct (frac_code_split a b Hb) as [E B].
  rewrite E, (halve_code_eq _ _ B). unfold frac_code.
  rewrite Z.div_mul_cancel_l by lia.
  rewrite Z.mul_mod_distr_l by lia.
  pose proof (Z.div_mod a b ltac:(lia)) as D.
  pose proof (Z.mod_pos_bound a b Hb) as Bd.
  set (q := a / b) in *. set (r := a mod b) in *.
  destruct (Z.lt_ge_cases (2 * r) b) as [Hlt|Hge].
  - assert (E1 : (2 * a) / b = 2 * q)
      by (symmetry; apply (Z.div_unique _ _ _ (2 * r)); lia).
    assert (E2 : (2 * a) mod b = 2 * r)
      by (symmetry; apply (Z.mod_unique _ _ (2 * q)); lia).
    rewrite E1, E2. rewrite (Z.mul_comm 2 q), Z.mod_mul by lia.
    case_eqb0; lia.
  - assert (E1 : (2 * a) / b = 2 * q + 1)
      by (symmetry; apply (Z.div_unique _ _ _ (2 * r - b)); lia).
    assert (E2 : (2 * a) mod b = 2 * r - b)
      by (symmetry; apply (Z.mod_unique _ _ (2 * q + 1)); lia).
    rewrite E1, E2.
    replace ((2 * q + 1) mod 2) with 1
      by (apply (Z.mod_unique _ _ q); lia).
    case_eqb0; lia.
Qed.

Lemma frac_code_scale (a b c : Z) :
  0 < b -> 0 < c -> frac_code (a * c) (b * c) = frac_code a b.
Proof.
  intros Hb Hc. unfold frac_code.
  rewrite !Z.mul_assoc. rewrite Z.div_mul_cancel_r by lia.
  rewrite Z.mul_mod_distr_r by lia.
  case_eqb0; nia.
Qed.

Lemma frac_code_pow (a b : Z) (n : nat) :
  0 < b ->
  frac_code a (b * 2 ^ Z.of_nat n) = Nat.iter n halve_code (frac_code a b).
Proof.
  intros Hb. induction n as [|n IH].
  - simpl. rewrite Z.mul_1_r. reflexivity.
  - rewrite Nat2Z.inj_succ, Z.pow_succ_r by lia.
    replace (b * (2 * 2 ^ Z.of_nat n)) with (2 * (b * 2 ^ Z.of_nat n)) by ring.
    rewrite frac_code_double by (apply Z.mul_pos_pos; [lia|apply Z.pow_pos_nonneg; lia]).
    rewrite IH. reflexivity.
Qed.

Lemma frac_code_exact (m : Z) : frac_code m 1 = 4 * m.
Proof.
  unfold frac_code. rewrite Z.div_1_r, Z.mod_1_r. change (0 =? 0) with true. cbv iota. lia.
Qed.

Lemma div_le_cross (a b a' b' : Z) :
  0 < b -> 0 < b' -> a * b' <= a' * b -> a / b <= a' / b'.
Proof.
  intros Hb Hb' H.
  pose proof (Z.div_mod a b ltac:(lia)) as D.
  pose proof (Z.mod_pos_bound a b Hb) as Bd.
  pose proof (Z.div_mod a' b' ltac:(lia)) as D'.
  pose proof (Z.mod_pos_bound a' b' Hb') as Bd'.
  set (q := a / b) in *. set (r := a mod b) in *.
  set (q' := a' / b') in *. set (r' := a' mod b') in *.
  destruct (Z.le_gt_cases q q') as [L|G]; [exact L|exfalso].
  assert (H1 : b * b' * (q' + 1) <= b * b' * q)
    by (apply Z.mul_le_mono_nonneg_l; [apply Z.mul_nonneg_nonneg|]; lia).
  assert (H2 : 0 <= r * b') by (apply Z.mul_nonneg_nonneg; lia).
  assert (H3 : r' * b < b' * b) by (apply Z.mul_lt_mono_pos_r; lia).
  assert (H4 : a * b' = b * b' * q + r * b') by (rewrite D; ring).
  assert (H5 : a' * b = b * b' * q' + r' * b) by (rewrite D'; ring).
  lia.
Qed.

(** The code grows with the fraction. *)
Lemma frac_code_mono (a b a' b' : Z) :
  0 < b -> 0 < b' -> a * b' <= a' * b -> frac_code a b <= frac_code a' b'.
Proof.
  intros Hb Hb' H. unfold frac_code.
  assert (Hq : (2 * a) / b <= (2 * a') / b') by (apply div_le_cross; lia).
  pose proof (Z.div_mod (2 * a) b ltac:(lia)) as D.
  pose proof (Z.mod_pos_bound (2 * a) b Hb) as Bd.
  pose proof (Z.div_mod (2 * a') b' ltac:(lia)) as D'.
  set (q := (2 * a) / b) in *. set (r := (2 * a) mod b) in *.
  set (q' := (2 * a') / b') in *. set (r' := (2 * a') mod b') in *.
  case_eqb0; try lia.
  destruct (Z.eq_dec q q') as [Eq|Ne]; [|lia]. exfalso.
  assert (H4 : 2 * a * b' = b * b' * q + r * b') by (rewrite D; ring).
  assert (H5 : 2 * a' * b = b * b' * q') by (rewrite D'; lia).
  assert (H2 : 0 < r * b') by (apply Z.mul_pos_pos; lia).
  lia.
Qed.

Lemma nearest_even_eq (q c : Z) :
  0 <= c < 4 ->
  nearest_even (4 * q + c) =
    if c <=? 1 then q else if c =? 2 then (if Z.even q then q else q + 1) else q + 1.
Proof.
  intros Hc. unfold nearest_even. destruct (div_mod_4 q c Hc) as [-> ->]. reflexivity.
Qed.

Lemma nearest_even_bounds (k : Z) : k / 4 <= nearest_even k <= k / 4 + 1.
Proof.
  unfold nearest_even.
  destruct (k mod 4 <=? 1); [lia|].
  destruct (k mod 4 =? 2); [|lia].
  destruct (Z.even (k / 4)); lia.
Qed.

Lemma nearest_even_4 (m : Z) : nearest_even (4 * m) = m.
Proof.
  replace (4 * m) with (4 * m + 0) by lia.
  rewrite nearest_even_eq by lia. reflexivity.
Qed.

Lemma nearest_even_mono (k k' : Z) : k <= k' -> nearest_even k <= nearest_even k'.
Proof.
  intros H.
  pose proof (Z.div_mod k 4 ltac:(lia)) as D.
  pose proof (Z.mod_pos_bound k 4 ltac:(lia)) as B.
  pose proof (Z.div_mod k' 4 ltac:(lia)) as D'.
  pose proof (Z.mod_pos_bound k' 4 ltac:(lia)) as B'.
  destruct (Z.eq_dec (k / 4) (k' / 4)) as [E|N].
  - unfold nearest_even. rewrite <- E.
    destruct (Z.leb_spec (k mod 4) 1), (Z.leb_spec (k' mod 4) 1);
      destruct (Z.eqb_spec (k mod 4) 2), (Z.eqb_spec (k' mod 4) 2);
      destruct (Z.even (k / 4)); lia.
  - pose proof (nearest_even_bounds k). pose proof (nearest_even_bounds k').
    assert (k / 4 <= k' / 4) by (apply Z.div_le_mono; lia). lia.
Qed.

Lemma nearest_even_lower (k lo : Z) : 4 * lo <= k -> lo <= nearest_even k.
Proof.
  intros H. rewrite <- (nearest_even_4 lo). apply nearest_even_mono. exact H.
Qed.

Lemma nearest_even_upper (k hi : Z) : k <= 4 * hi -> nearest_even k <= hi.
Proof.
  intros H. rewrite <- (nearest_even_4 hi). apply nearest_even_mono. exact H.
Qed.

(** [SpecFloat]'s choice of the rounded mantissa is [nearest_even]. *)
Lemma round_nearest_even_code (r : shr_record) :
  round_nearest_even (shr_m r) (loc_of_shr_record r) = nearest_even (rec_code r).
Proof.
  destruct r as [m rb sb]. unfold rec_code. cbn [shr_m shr_r shr_s].
  replace (4 * m + (if rb then 2 else 0) + (if sb then 1 else 0))
    with (4 * m + ((if rb then 2 else 0) + (if sb then 1 else 0))) by lia.
  rewrite nearest_even_eq by (destruct rb, sb; lia).
  destruct rb, sb; reflexivity.
Qed.

Lemma lt_pow2_log2_succ (n : Z) : 0 <= n -> n < 2 ^ (Z.log2 n + 1).
Proof.
  intros H. destruct (Z.eq_dec n 0) as [->|N].
  - reflexivity.
  - apply Z.log2_spec. lia.
Qed.

Lemma pow2_pos (e : Z) : 0 <= e -> 0 < 2 ^ e.
Proof. intros H. apply Z.pow_pos_nonneg; lia. Qed.

Lemma grid_exp_nonneg (prec a b : Z) : 0 <= grid_exp prec a b.
Proof. unfold grid_exp. lia. Qed.

Lemma grid_exp_mono (prec a b a' b' : Z) :
  0 < b -> 0 < b' -> a * b' <= a' * b ->
  grid_exp prec a b <= grid_exp prec a' b'.
Proof.
  intros Hb Hb' H. unfold grid_exp.
  pose proof (Z.log2_le_mono _ _ (div_le_cross a b a' b' Hb Hb' H)). lia.
Qed.

Lemma frac_code_floor (a b : Z) :
  0 < b -> 4 * (a / b) <= frac_code a b <= 4 * (a / b) + 3.
Proof.
  intros Hb. destruct (frac_code_split a b Hb) as [E B]. lia.
Qed.

(** The mantissa [rnd] chooses has at most [prec] bits, or is [2 ^ prec]. *)
Lemma rnd_mantissa_upper (prec a b : Z) :
  0 < prec -> 0 < b -> 0 <= a ->
  nearest_even (frac_code a (b * 2 ^ grid_exp prec a b)) <= 2 ^ prec.
Proof.
  intros Hp Hb Ha.
  pose proof (grid_exp_nonneg prec a b) as HE.
  set (E := grid_exp prec a b) in *.
  pose proof (pow2_pos E HE) as HpE.
  apply nearest_even_upper.
  pose proof (frac_code_floor a (b * 2 ^ E) ltac:(nia)) as [_ U].
  rewrite <- Z.div_div in U by lia.
  assert (Hq : 0 <= a / b) by (apply Z.div_pos; lia).
  assert (Hlt : a / b / 2 ^ E < 2 ^ prec).
  { apply Z.div_lt_upper_bound; [lia|].
    rewrite <- Z.pow_add_r by lia.
    pose proof (lt_pow2_log2_succ (a / b) Hq) as L.
    assert (Z.log2 (a / b) + 1 <= E + prec) by (unfold E, grid_exp; lia).
    pose proof (Z.pow_le_mono_r 2 (Z.log2 (a / b) + 1) (E + prec) ltac:(lia) ltac:(lia)).
    lia. }
  lia.
Qed.

(** In the normal range the mantissa has at least [prec] bits. *)
Lemma rnd_mantissa_lower (prec a b : Z) :
  0 < prec -> 0 < b -> 0 < a / b -> prec <= Z.log2 (a / b) + 1 ->
  2 ^ (prec - 1) <= nearest_even (frac_code a (b * 2 ^ grid_exp prec a b)).
Proof.
  intros Hp Hb Hq Hn.
  pose proof (grid_exp_nonneg prec a b) as HE.
  assert (EE : grid_exp prec a b = Z.log2 (a / b) + 1 - prec)
    by (unfold grid_exp; lia).
  set (E := grid_exp prec a b) in *.
  pose proof (pow2_pos E HE) as HpE.
  apply nearest_even_lower.
  pose proof (frac_code_floor a (b * 2 ^ E) ltac:(nia)) as [L _].
  rewrite <- Z.div_div in L by lia.
  assert (Hge : 2 ^ (prec - 1) <= a / b / 2 ^ E).
  { apply Z.div_le_lower_bound; [lia|].
    rewrite <- Z.pow_add_r by lia.
    replace (E + (prec - 1)) with (Z.log2 (a / b)) by lia.
    apply Z.log2_spec. exact Hq. }
  lia.
Qed.

(** Rounding to nearest-even is monotone: on one grid because the codes
    are ordered, across grids because a power of two lies in between. *)
Lemma rnd_mono (prec a b a' b' : Z) :
  0 < prec -> 0 < b -> 0 < b' -> 0 <= a -> a * b' <= a' * b ->
  rnd prec a b <= rnd prec a' b'.
Proof.
  intros Hp Hb Hb' Ha H.
  assert (Ha' : 0 <= a') by nia.
  pose proof (grid_exp_mono prec a b a' b' Hb Hb' H) as HEE.
  pose proof (grid_exp_nonneg prec a b) as HE.
  pose proof (rnd_mantissa_upper prec a b Hp Hb Ha) as U.
  unfold rnd. cbv zeta.
  destruct (Z.eq_dec (grid_exp prec a b) (grid_exp prec a' b')) as [Eq|Ne].
  - rewrite <- Eq. set (E := grid_exp prec a b) in *.
    pose proof (pow2_pos E HE) as HpE.
    apply Z.mul_le_mono_nonneg_r; [lia|].
    apply nearest_even_mono. apply frac_code_mono; try nia.
  - assert (Hlt : grid_exp prec a b < grid_exp prec a' b') by lia.
    assert (Hn : prec <= Z.log2 (a' / b') + 1) by (unfold grid_exp in Hlt; lia).
    assert (Hq' : 0 < a' / b').
    { destruct (Z.le_gt_cases (a' / b') 0) as [Le|Gt]; [|exact Gt].
      apply Z.log2_nonpos in Le. unfold grid_exp in Hlt. lia. }
    pose proof (rnd_mantissa_lower prec a' b' Hp Hb' Hq' Hn) as L.
    set (E := grid_exp prec a b) in *. set (E' := grid_exp prec a' b') in *.
    pose proof (pow2_pos E HE) as HpE.
    pose proof (pow2_pos E' ltac:(lia)) as HpE'.
    apply Z.le_trans with (2 ^ prec * 2 ^ E).
    + apply Z.mul_le_mono_nonneg_r; lia.
    + apply Z.le_trans with (2 ^ (prec - 1) * 2 ^ E').
      * rewrite <- !Z.pow_add_r by lia. apply Z.pow_le_mono_r; lia.
      * apply Z.mul_le_mono_nonneg_r; lia.
Qed.

Lemma digits2_pos_log2 (p : positive) : Zpos (digits2_pos p) = Z.log2 (Zpos p) + 1.
Proof.
  assert (S : forall q, digits2_pos q = Pos.size q).
  { induction q as [q IH|q IH|]; simpl; rewrite ?IH; reflexivity. }
  destruct p as [p|p|]; simpl; rewrite ?S, ?Pos2Z.inj_succ; lia.
Qed.

Lemma Zdigits2_log2 (m : Z) : 0 < m -> Zdigits2 m = Z.log2 m + 1.
Proof.
  destruct m as [|p|p]; try lia. intros _. apply digits2_pos_log2.
Qed.

Lemma iter_shr_1_code (k : nat) (r : shr_record) :
  0 <= shr_m r ->
  rec_code (Nat.iter k shr_1 r) = Nat.iter k halve_code (rec_code r) /\
  shr_m (Nat.iter k shr_1 r) = shr_m r / 2 ^ Z.of_nat k.
Proof.
  intros H. induction k as [|k [IH1 IH2]].
  - simpl. rewrite Z.div_1_r. split; reflexivity.
  - assert (P : 0 <= shr_m (Nat.iter k shr_1 r)).
    { rewrite IH2. apply Z.div_pos; [lia|apply pow2_pos; lia]. }
    cbn [Nat.iter nat_rect]. fold (Nat.iter k shr_1 r). fold (Nat.iter k halve_code (rec_code r)).
    rewrite shr_1_code by exact P. rewrite shr_1_m by exact P.
    rewrite IH1, IH2. split; [reflexivity|].
    rewrite Nat2Z.inj_succ, Z.pow_succ_r by lia.
    rewrite Z.div_div by (try apply pow2_pos; lia).
    f_equal. ring.
Qed.

Lemma shr_nat (r : shr_record) (e n : Z) :
  0 <= n -> shr r e n = (Nat.iter (Z.to_nat n) shr_1 r, e + n).
Proof.
  intros H. destruct n as [|p|p]; try lia.
  - simpl. rewrite Z.add_0_r. reflexivity.
  - unfold shr. rewrite iter_pos_nat. reflexivity.
Qed.

Section Shifting.
Variables prec emax : Z.
Hypothesis Hprec : 0 < prec.

Lemma fexp_ge_emin (e : Z) : emin prec emax <= fexp prec emax e.
Proof. unfold fexp. lia. Qed.

(** Shifting a located mantissa to its canonical exponent keeps it
    located: the code becomes the code of the same fraction on the
    coarser grid. *)
Lemma shr_fexp_code (m e : Z) (l : location) (a b : Z) :
  0 <= m -> 0 < b -> emin prec emax <= e -> e <= fexp prec emax (Zdigits2 m + e) ->
  4 * m + loc_code l = frac_code a (b * 2 ^ (e - emin prec emax)) ->
  exists r,
    shr_fexp prec emax m e l = (r, fexp prec emax (Zdigits2 m + e)) /\
    rec_code r = frac_code a (b * 2 ^ (fexp prec emax (Zdigits2 m + e) - emin prec emax)) /\
    shr_m r = m / 2 ^ (fexp prec emax (Zdigits2 m + e) - e).
Proof.
  intros Hm Hb He Hc Hcode.
  set (E := fexp prec emax (Zdigits2 m + e)) in *.
  unfold shr_fexp. fold E.
  rewrite shr_nat by lia.
  destruct (iter_shr_1_code (Z.to_nat (E - e)) (shr_record_of_loc m l)) as [C M].
  { destruct l as [|[| |]]; simpl; exact Hm. }
  eexists. split; [f_equal; lia|]. split.
  - rewrite C, rec_code_of_loc, Hcode.
    rewrite <- frac_code_pow by (apply Z.mul_pos_pos; [lia|apply pow2_pos; lia]).
    rewrite Z2Nat.id by lia. rewrite <- Z.mul_assoc, <- Z.pow_add_r by lia.
    do 3 f_equal. lia.
  - rewrite M. rewrite Z2Nat.id by lia.
    destruct l as [|[| |]]; reflexivity.
Qed.

(** The magnitude read off a located mantissa is that of the fraction. *)
Lemma located_log2 (m a b s : Z) :
  0 < m -> 0 < b -> 0 <= s -> m = a / (b * 2 ^ s) ->
  Z.log2 m = Z.log2 (a / b) - s.
Proof.
  intros Hm Hb Hs E.
  pose proof (pow2_pos s Hs) as Hp.
  rewrite <- Z.div_div in E by lia.
  assert (Hq : 0 < a / b).
  { destruct (Z.le_gt_cases (a / b) 0) as [L|G]; [|exact G].
    exfalso. assert (a / b / 2 ^ s <= 0 / 2 ^ s) by (apply Z.div_le_mono; lia).
    rewrite Z.div_0_l in H by lia. lia. }
  pose proof (Z.log2_spec (a / b) Hq) as [L U].
  pose proof (Z.log2_nonneg (a / b)) as N.
  assert (Hs2 : s <= Z.log2 (a / b)).
  { destruct (Z.le_gt_cases s (Z.log2 (a / b))) as [Le|Gt]; [exact Le|exfalso].
    assert (a / b < 2 ^ s).
    { apply Z.lt_le_trans with (2 ^ Z.succ (Z.log2 (a / b))); [exact U|].
      apply Z.pow_le_mono_r; lia. }
    rewrite Z.div_small in E by lia. lia. }
  apply Z.log2_unique; [lia|]. rewrite E. split.
  - apply Z.div_le_lower_bound; [lia|].
    rewrite <- Z.pow_add_r by lia.
    replace (s + (Z.log2 (a / b) - s)) with (Z.log2 (a / b)) by lia. exact L.
  - apply Z.div_lt_upper_bound; [lia|].
    rewrite <- Z.pow_add_r by lia.
    replace (s + Z.succ (Z.log2 (a / b) - s)) with (Z.succ (Z.log2 (a / b))) by lia.
    exact U.
Qed.
End Shifting.

Section RoundAux.
Variables prec emax : Z.
Hypothesis Hprec : 0 < prec.

(** [binary_round_aux], the rounding step shared by all operations of
    [SpecFloat]: when the mantissa [m] with location [l] at exponent [e]
    locates the fraction [a / b], the result is the finite number of value
    [rnd prec a b]; it is normal when the fraction is in the normal
    range. *)
Lemma binary_round_aux_spec (m e : Z) (l : location) (a b : Z) :
  0 < m -> 0 < b ->
  emin prec emax <= e -> e <= fexp prec emax (Zdigits2 m + e) ->
  4 * m + loc_code l = frac_code a (b * 2 ^ (e - emin prec emax)) ->
  fexp prec emax (Zdigits2 m + e) + 1 <= emax - prec ->
  exists m' e',
    binary_round_aux prec emax false m e l = S754_finite false m' e' /\
    Zpos m' * 2 ^ (e' - emin prec emax) = rnd prec a b /\
    fexp prec emax (Zdigits2 m + e) <= e' <= fexp prec emax (Zdigits2 m + e) + 1 /\
    (emin prec emax <= Zdigits2 m + e - prec -> Zdigits2 (Zpos m') = prec).
Proof.
  intros Hm Hb He Hc Hcode Hov.
  destruct (shr_fexp_code prec emax m e l a b ltac:(lia) Hb He Hc Hcode)
    as (r & Hs & Hr & Hrm).
  pose proof (fexp_ge_emin prec emax (Zdigits2 m + e)) as HEmin.
  set (E := fexp prec emax (Zdigits2 m + e)) in *.
  set (s := e - emin prec emax) in *.
  assert (Hs0 : 0 <= s) by (unfold s; lia).
  pose proof (pow2_pos s Hs0) as Hps.
  (* the integer part of the located fraction *)
  assert (Hfl : m = a / (b * 2 ^ s)).
  { rewrite <- frac_code_div4 by nia. rewrite <- Hcode.
    symmetry. apply div_mod_4. destruct l as [|[| |]]; simpl; lia. }
  assert (Hd : Zdigits2 m = Z.log2 (a / b) - s + 1).
  { rewrite Zdigits2_log2 by lia.
    rewrite (located_log2 m a b s Hm Hb Hs0 Hfl). reflexivity. }
  assert (HG : E - emin prec emax = grid_exp prec a b).
  { unfold E, fexp, grid_exp. rewrite Hd. unfold s. lia. }
  assert (Ha : 0 <= a).
  { destruct (Z.le_gt_cases 0 a) as [L|G]; [exact L|exfalso].
    assert (a / (b * 2 ^ s) < 0) by (apply Z.div_lt_upper_bound; nia). lia. }
  set (M1 := nearest_even (frac_code a (b * 2 ^ (E - emin prec emax)))) in *.
  assert (Hrnd : M1 * 2 ^ (E - emin prec emax) = rnd prec a b).
  { unfold rnd, M1. rewrite HG. reflexivity. }
  assert (HU : M1 <= 2 ^ prec).
  { unfold M1. rewrite HG. apply rnd_mantissa_upper; assumption. }
  assert (Hfloor : shr_m r <= M1 <= shr_m r + 1).
  { assert (Q : rec_code r / 4 = shr_m r).
    { unfold rec_code. replace (4 * shr_m r + (if shr_r r then 2 else 0) + (if shr_s r then 1 else 0))
        with (4 * shr_m r + ((if shr_r r then 2 else 0) + (if shr_s r then 1 else 0))) by lia.
      apply div_mod_4. destruct (shr_r r), (shr_s r); lia. }
    rewrite <- Q, Hr. apply nearest_even_bounds. }
  assert (HL : 1 <= M1 /\ (emin prec emax <= Zdigits2 m + e - prec -> 2 ^ (prec - 1) <= M1)
               /\ (Zdigits2 m + e - prec < emin prec emax -> M1 < 2 ^ prec)).
  { destruct (Z.le_gt_cases (emin prec emax) (Zdigits2 m + e - prec)) as [Nrm|Sub].
    - assert (L : 2 ^ (prec - 1) <= M1).
      { unfold M1. rewrite HG. apply rnd_mantissa_lower; try assumption.
        + rewrite Hfl in Hm. rewrite <- Z.div_div in Hm by lia.
          destruct (Z.le_gt_cases (a / b) 0) as [Le|Gt]; [|exact Gt]. exfalso.
          assert (a / b / 2 ^ s <= 0 / 2 ^ s) by (apply Z.div_le_mono; lia).
          rewrite Z.div_0_l in H by lia. lia.
        + rewrite Hd in Nrm. unfold s in Nrm. lia. }
      pose proof (pow2_pos (prec - 1) ltac:(lia)). repeat split; lia.
    - assert (EE : E = e) by (unfold E, fexp in *; lia).
      rewrite EE, Z.sub_diag, Z.pow_0_r, Z.div_1_r in Hrm.
      repeat split; try lia. intros _.
      assert (m < 2 ^ (prec - 1)).
      { apply Z.log2_lt_pow2; [lia|]. rewrite Zdigits2_log2 in Sub by lia.
        unfold fexp in Hc. lia. }
      assert (2 ^ prec = 2 * 2 ^ (prec - 1)).
      { rewrite <- Z.pow_succ_r by lia. f_equal. lia. }
      lia. }
  destruct HL as (HL1 & HLn & HLs).
  unfold binary_round_aux. rewrite Hs.
  rewrite round_nearest_even_code, Hr. fold M1.
  destruct (Z.eq_dec M1 (2 ^ prec)) as [Carry|NoCarry].
  - (* the rounded mantissa is [2 ^ prec]: one more shift *)
    assert (Nrm : emin prec emax <= Zdigits2 m + e - prec).
    { destruct (Z.le_gt_cases (emin prec emax) (Zdigits2 m + e - prec)); [assumption|].
      specialize (HLs ltac:(lia)). lia. }
    assert (EE : E = Zdigits2 m + e - prec) by (unfold E, fexp; lia).
    assert (HdM : Zdigits2 M1 = prec + 1).
    { rewrite Zdigits2_log2 by lia. rewrite Carry, Z.log2_pow2 by lia. reflexivity. }
    unfold shr_fexp. rewrite HdM.
    replace (fexp prec emax (prec + 1 + E) - E) with 1 by (unfold fexp; lia).
    rewrite shr_nat by lia.
    destruct (iter_shr_1_code (Z.to_nat 1) (shr_record_of_loc M1 loc_Exact)
                ltac:(simpl; lia)) as [_ Hm2].
    rewrite Hm2. cbn [shr_record_of_loc shr_m].
    change (Z.of_nat (Z.to_nat 1)) with 1. rewrite Z.pow_1_r, Carry.
    assert (P2 : 2 ^ prec / 2 = 2 ^ (prec - 1)).
    { replace (2 ^ prec) with (2 ^ (prec - 1) * 2).
      - apply Z.div_mul. lia.
      - rewrite Z.mul_comm, <- Z.pow_succ_r by lia. f_equal. lia. }
    rewrite P2.
    pose proof (pow2_pos (prec - 1) ltac:(lia)) as Hpp.
    destruct (2 ^ (prec - 1)) as [|p|p] eqn:Ep; try lia.
    replace (E + 1 <=? emax - prec) with true by (symmetry; apply Z.leb_le; lia).
    exists p, (E + 1). split; [reflexivity|]. split; [|split; [lia|]].
    + rewrite <- Hrnd, Carry, <- Ep. rewrite <- !Z.pow_add_r by lia. f_equal. lia.
    + intros _. rewrite Zdigits2_log2 by lia. rewrite <- Ep, Z.log2_pow2 by lia. lia.
  - (* no carry: the mantissa is already canonical *)
    assert (Hlt : M1 < 2 ^ prec) by lia.
    assert (HdM : fexp prec emax (Zdigits2 M1 + E) - E = 0).
    { rewrite Zdigits2_log2 by lia.
      assert (Z.log2 M1 < prec) by (apply Z.log2_lt_pow2; lia).
      destruct (Z.le_gt_cases (emin prec emax) (Zdigits2 m + e - prec)) as [Nrm|Sub].
      - specialize (HLn Nrm).
        assert (prec - 1 <= Z.log2 M1) by (apply Z.log2_le_pow2; lia).
        unfold E, fexp in *. lia.
      - unfold E, fexp in *. lia. }
    unfold shr_fexp. rewrite HdM. cbn [shr shr_record_of_loc shr_m].
    destruct M1 as [|p|p] eqn:Ep; try lia.
    replace (E <=? emax - prec) with true by (symmetry; apply Z.leb_le; lia).
    exists p, E. split; [reflexivity|]. split; [exact Hrnd|]. split; [lia|].
    intros Nrm. specialize (HLn Nrm).
    rewrite Zdigits2_log2 by lia.
    assert (Z.log2 (Z.pos p) = prec - 1).
    { apply Z.log2_unique; [lia|]. split; [exact HLn|].
      replace (Z.succ (prec - 1)) with prec by lia. exact Hlt. }
    lia.
Qed.
End RoundAux.

(* ===================================================================== *)
(** ** The operations of [SpecFloat] on positive normal numbers *)
(* ===================================================================== *)

(** [rnd] depends on the fraction only. *)
Lemma rnd_scale (prec a b c : Z) :
  0 < b -> 0 < c -> rnd prec (a * c) (b * c) = rnd prec a b.
Proof.
  intros Hb Hc. unfold rnd, grid_exp.
  rewrite Z.div_mul_cancel_r by lia. cbv zeta.
  set (E := Z.max (Z.log2 (a / b) + 1 - prec) 0).
  pose proof (pow2_pos E ltac:(lia)).
  replace (b * c * 2 ^ E) with (b * 2 ^ E * c) by ring.
  rewrite frac_code_scale by nia. reflexivity.
Qed.

Lemma pos_iter_xO (m d : positive) : Zpos (Pos.iter xO m d) = Zpos m * 2 ^ Zpos d.
Proof.
  rewrite Pos2Nat.inj_iter. rewrite <- (positive_nat_Z d).
  induction (Pos.to_nat d) as [|n IH].
  - simpl. lia.
  - rewrite Nat2Z.inj_succ, Z.pow_succ_r by lia. simpl nat_rect.
    rewrite Pos2Z.inj_xO, IH. ring.
Qed.

Lemma shl_align_spec (mx : positive) (ex ex' : Z) :
  snd (shl_align mx ex ex') = Z.min ex ex' /\
  Zpos (fst (shl_align mx ex ex')) = Zpos mx * 2 ^ (ex - Z.min ex ex').
Proof.
  unfold shl_align. destruct (ex' - ex) as [|d|d] eqn:D; cbn [fst snd].
  - rewrite Z.min_l by lia. rewrite Z.sub_diag. simpl. lia.
  - rewrite Z.min_l by lia. rewrite Z.sub_diag. simpl. lia.
  - rewrite Z.min_r by lia. split; [reflexivity|].
    rewrite pos_iter_xO. f_equal. f_equal. lia.
Qed.

Lemma log2_mul_pow2' (m k : Z) : 0 < m -> 0 <= k -> Z.log2 (m * 2 ^ k) = Z.log2 m + k.
Proof.
  intros Hm Hk. rewrite <- Z.shiftl_mul_pow2 by lia. apply Z.log2_shiftl; lia.
Qed.

Section BinaryRound.
Variables prec emax : Z.
Hypothesis Hprec : 0 < prec.

(** [binary_round] rounds the number [mx * 2 ^ ex]. *)
Lemma binary_round_spec (mx : positive) (ex : Z) :
  emin prec emax <= ex ->
  fexp prec emax (Zdigits2 (Zpos mx) + ex) + 1 <= emax - prec ->
  exists m' e',
    binary_round prec emax false mx ex = S754_finite false m' e' /\
    Zpos m' * 2 ^ (e' - emin prec emax) = rnd prec (Zpos mx * 2 ^ (ex - emin prec emax)) 1 /\
    fexp prec emax (Zdigits2 (Zpos mx) + ex) <= e'
      <= fexp prec emax (Zdigits2 (Zpos mx) + ex) + 1 /\
    (emin prec emax <= Zdigits2 (Zpos mx) + ex - prec -> Zdigits2 (Zpos m') = prec).
Proof.
  intros He Hov. unfold binary_round.
  set (E := fexp prec emax (Zpos (digits2_pos mx) + ex)).
  change (Zdigits2 (Zpos mx)) with (Zpos (digits2_pos mx)) in *. fold E in Hov. fold E.
  destruct (shl_align_spec mx ex E) as [Hz Hm].
  destruct (shl_align mx ex E) as [mz ez]. cbn [fst snd] in Hz, Hm.
  pose proof (fexp_ge_emin prec emax (Zpos (digits2_pos mx) + ex)) as HE. fold E in HE.
  assert (Hdig : Zdigits2 (Zpos mz) + ez = Zpos (digits2_pos mx) + ex).
  { rewrite Zdigits2_log2 by lia. rewrite Hm, log2_mul_pow2' by lia.
    rewrite digits2_pos_log2. lia. }
  destruct (binary_round_aux_spec prec emax Hprec (Zpos mz) ez loc_Exact
              (Zpos mx * 2 ^ (ex - emin prec emax)) 1) as (m' & e' & R1 & R2 & R3 & R4).
  - lia.
  - lia.
  - lia.
  - rewrite Hdig. fold E. lia.
  - simpl loc_code. rewrite Z.add_0_r, Z.mul_1_l.
    replace (Zpos mx * 2 ^ (ex - emin prec emax))
      with (Zpos mz * 2 ^ (ez - emin prec emax)).
    + rewrite <- (Z.mul_1_l (2 ^ (ez - emin prec emax))) at 2.
      rewrite frac_code_scale by (try apply pow2_pos; lia).
      rewrite frac_code_exact. reflexivity.
    + rewrite Hm, <- Z.mul_assoc, <- Z.pow_add_r by lia. do 2 f_equal. lia.
  - rewrite Hdig. fold E. exact Hov.
  - rewrite Hdig in R3, R4. fold E in R3.
    exists m', e'. repeat split; try assumption; lia.
Qed.
End BinaryRound.

Lemma digits_bounds (p : positive) (d : Z) :
  Zdigits2 (Zpos p) = d -> 2 ^ (d - 1) <= Zpos p < 2 ^ d.
Proof.
  intros H. rewrite Zdigits2_log2 in H by lia.
  pose proof (Z.log2_spec (Zpos p) ltac:(lia)) as [L U].
  replace (d - 1) with (Z.log2 (Zpos p)) by lia.
  replace d with (Z.succ (Z.log2 (Zpos p))) by lia. split; assumption.
Qed.

Lemma digits_range (m lo hi : Z) :
  0 <= lo -> 2 ^ lo <= m < 2 ^ hi -> lo + 1 <= Zdigits2 m <= hi.
Proof.
  intros Hlo [L U].
  pose proof (pow2_pos lo Hlo).
  rewrite Zdigits2_log2 by lia.
  assert (lo <= Z.log2 m) by (apply Z.log2_le_pow2; lia).
  assert (Z.log2 m < hi).
  { apply Z.log2_lt_pow2; lia. }
  lia.
Qed.

(** The location [SpecFloat] gives a remainder [k] of a division by [nb]
    is the code of [k / nb]. *)
Lemma new_location_code (nb k : Z) :
  0 < nb -> 0 <= k < nb -> loc_code (new_location nb k) = frac_code k nb.
Proof.
  intros Hnb Hk. unfold frac_code, new_location.
  assert (Ev : Z.even nb = true -> 2 * k + 1 <> nb /\ True).
  { intros E. split; [|exact I]. intros C.
    rewrite <- C, Z.add_comm, Z.even_add_mul_2 in E. discriminate. }
  assert (Od : Z.even nb = false -> 2 * k <> nb).
  { intros E C. rewrite <- C, Z.even_mul in E. discriminate. }
  assert (Cases : k = 0 \/ (k <> 0 /\ (2 * k < nb \/ 2 * k = nb \/ nb < 2 * k))) by lia.
  destruct Cases as [->|[Nz Cases]].
  - change (2 * 0) with 0. rewrite Zdiv_0_l, Zmod_0_l.
    destruct (Z.even nb); reflexivity.
  - assert (Q : (2 * k) / nb = (if 2 * k <? nb then 0 else 1) /\
                (2 * k) mod nb = (if 2 * k <? nb then 2 * k else 2 * k - nb)).
    { destruct (Z.ltb_spec (2 * k) nb).
      - rewrite Z.div_small, Z.mod_small by lia. split; reflexivity.
      - split; [symmetry; apply (Z.div_unique _ _ _ (2 * k - nb)); lia
               |symmetry; apply (Z.mod_unique _ _ 1); lia]. }
    destruct Q as [-> ->].
    destruct (Z.even nb) eqn:E.
    + unfold new_location_even. destruct (Z.eqb_spec k 0); [lia|].
      destruct (Z.compare_spec (2 * k) nb) as [C|C|C];
        destruct (Z.ltb_spec (2 * k) nb); try lia;
        match goal with |- context [?x =? 0] => destruct (Z.eqb_spec x 0) end;
        try lia; reflexivity.
    + unfold new_location_odd. destruct (Z.eqb_spec k 0); [lia|].
      specialize (Od eq_refl).
      destruct (Z.compare_spec (2 * k + 1) nb) as [C|C|C];
        destruct (Z.ltb_spec (2 * k) nb); try lia;
        match goal with |- context [?x =? 0] => destruct (Z.eqb_spec x 0) end;
        try lia; reflexivity.
Qed.

Lemma frac_code_div_eucl (a b : Z) :
  0 < b -> frac_code a b = 4 * (a / b) + frac_code (a mod b) b.
Proof.
  intros Hb. unfold frac_code.
  pose proof (Z.div_mod a b ltac:(lia)) as D.
  assert (E1 : (2 * a) / b = 2 * (a / b) + (2 * (a mod b)) / b).
  { replace (2 * a) with ((2 * (a / b)) * b + 2 * (a mod b)) at 1 by lia.
    rewrite Z.div_add_l by lia. reflexivity. }
  assert (E2 : (2 * a) mod b = (2 * (a mod b)) mod b).
  { replace (2 * a) with (2 * (a mod b) + (2 * (a / b)) * b) at 1 by lia.
    apply Z.mod_add. lia. }
  rewrite E1, E2. lia.
Qed.

Section Multiplication.
Variables prec emax : Z.
Hypothesis Hprec : 0 < prec.
Hypothesis Hemin : emin prec emax <= 0.

(** The product of two positive normal numbers is their exact product,
    rounded. *)
Lemma SFmul_spec (mx my : positive) (ex ey : Z) :
  Zdigits2 (Zpos mx) = prec -> Zdigits2 (Zpos my) = prec ->
  emin prec emax <= ex -> emin prec emax <= ey ->
  emin prec emax <= ex + ey ->
  ex + ey + prec + 1 <= emax - prec ->
  normal_pos prec emax
    (SFmul prec emax (S754_finite false mx ex) (S754_finite false my ey))
    (ex + ey + prec - 1) (ex + ey + prec + 1)
    (rnd prec ((Zpos mx * 2 ^ (ex - emin prec emax)) *
               (Zpos my * 2 ^ (ey - emin prec emax)))
              (2 ^ (- emin prec emax))).
Proof.
  intros Dx Dy Hex Hey Hxy Hov.
  pose proof (digits_bounds mx prec Dx) as [Lx Ux].
  pose proof (digits_bounds my prec Dy) as [Ly Uy].
  pose proof (pow2_pos (prec - 1) ltac:(lia)) as Hpp.
  assert (Hd : 2 * prec - 1 <= Zdigits2 (Zpos (mx * my)) <= 2 * prec).
  { rewrite Pos2Z.inj_mul.
    pose proof (digits_range (Zpos mx * Zpos my) (prec - 1 + (prec - 1)) (prec + prec)
                  ltac:(lia)) as R.
    rewrite !Z.pow_add_r in R by lia.
    specialize (R ltac:(split; nia)). lia. }
  unfold SFmul. cbn [xorb].
  destruct (binary_round_aux_spec prec emax Hprec (Zpos (mx * my)) (ex + ey) loc_Exact
              (Zpos mx * Zpos my * 2 ^ (ex + ey - emin prec emax)) 1)
    as (m' & e' & R1 & R2 & R3 & R4).
  - lia.
  - lia.
  - lia.
  - unfold fexp. lia.
  - simpl loc_code. rewrite Z.add_0_r, Z.mul_1_l, Pos2Z.inj_mul.
    rewrite <- (Z.mul_1_l (2 ^ (ex + ey - emin prec emax))) at 2.
    rewrite frac_code_scale by (try apply pow2_pos; lia).
    rewrite frac_code_exact. reflexivity.
  - unfold fexp. lia.
  - exists m', e'. split; [exact R1|]. split; [apply R4; lia|].
    split; [unfold fexp in R3; lia|].
    rewrite R2.
    rewrite <- (rnd_scale prec _ 1 (2 ^ (- emin prec emax)))
      by (try apply pow2_pos; lia).
    rewrite Z.mul_1_l. f_equal.
    replace (ex + ey - emin prec emax)
      with ((ex - emin prec emax) + (ey - emin prec emax) + emin prec emax) by lia.
    rewrite <- !Z.mul_assoc. f_equal.
    rewrite (Z.mul_comm (2 ^ (ex - emin prec emax))).
    rewrite <- !Z.mul_assoc. f_equal.
    rewrite <- !Z.pow_add_r by lia. f_equal. lia.
Qed.
End Multiplication.

Section Division.
Variables prec emax : Z.
Hypothesis Hprec : 0 < prec.
Hypothesis Hemin : emin prec emax <= 0.

(** The quotient of two positive normal numbers is their exact quotient,
    rounded. *)
Lemma SFdiv_spec (mx my : positive) (ex ey : Z) :
  Zdigits2 (Zpos mx) = prec -> Zdigits2 (Zpos my) = prec ->
  emin prec emax <= ex -> emin prec emax <= ey ->
  emin prec emax <= ex - ey - prec ->
  ex - ey - prec + 2 <= emax - prec ->
  normal_pos prec emax
    (SFdiv prec emax (S754_finite false mx ex) (S754_finite false my ey))
    (ex - ey - prec) (ex - ey - prec + 2)
    (rnd prec (Zpos mx * 2 ^ (ex - emin prec emax) * 2 ^ (- emin prec emax))
              (Zpos my * 2 ^ (ey - emin prec emax))).
Proof.
  intros Dx Dy Hex Hey Hlo Hov.
  pose proof (digits_bounds mx prec Dx) as [Lx Ux].
  pose proof (digits_bounds my prec Dy) as [Ly Uy].
  pose proof (pow2_pos (prec - 1) ltac:(lia)) as Hpp.
  pose proof (pow2_pos prec ltac:(lia)) as Hpp1.
  assert (P2 : 2 ^ prec = 2 * 2 ^ (prec - 1)).
  { rewrite <- Z.pow_succ_r by lia. f_equal. lia. }
  unfold SFdiv, SFdiv_core_binary. cbn [xorb]. rewrite Dx, Dy.
  replace (Z.min (fexp prec emax (prec + ex - (prec + ey))) (ex - ey))
    with (ex - ey - prec) by (unfold fexp; lia).
  replace (ex - ey - (ex - ey - prec)) with prec by lia.
  set (e' := ex - ey - prec) in *.
  assert (Hm' : match prec with
                | 0 => Zpos mx
                | Zpos _ => Z.shiftl (Zpos mx) prec
                | Zneg _ => 0
                end = Zpos mx * 2 ^ prec).
  { destruct prec as [|p|p] eqn:Ep; try lia. apply Z.shiftl_mul_pow2. lia. }
  rewrite Hm'. clear Hm'.
  set (m' := Zpos mx * 2 ^ prec) in *.
  pose proof (Z.div_mod m' (Zpos my) ltac:(lia)) as DM.
  pose proof (Z.mod_pos_bound m' (Zpos my) ltac:(lia)) as BM.
  unfold Z.div, Z.modulo in DM, BM.
  destruct (Z.div_eucl m' (Zpos my)) as [q r]. 
  assert (Hq : 2 ^ (prec - 1) <= q < 2 ^ (prec + 1)).
  { rewrite Z.pow_add_r by lia. change (2 ^ 1) with 2. unfold m' in DM. split; nia. }
  pose proof (digits_range q (prec - 1) (prec + 1) ltac:(lia) Hq) as Dq.
  destruct (binary_round_aux_spec prec emax Hprec q e' (new_location (Zpos my) r)
              (Zpos mx * 2 ^ (ex - emin prec emax) * 2 ^ (- emin prec emax))
              (Zpos my * 2 ^ (ey - emin prec emax)))
    as (m2 & e2 & R1 & R2 & R3 & R4).
  - lia.
  - apply Z.mul_pos_pos; [lia|apply pow2_pos; lia].
  - lia.
  - unfold fexp. lia.
  - rewrite new_location_code by lia.
    assert (Eq : q = m' / Zpos my) by (apply (Z.div_unique_pos _ _ _ r); lia).
    assert (Er : r = m' mod Zpos my) by (apply (Z.mod_unique_pos _ _ q); lia).
    rewrite Eq, Er, <- frac_code_div_eucl by lia.
    rewrite <- (frac_code_scale m' (Zpos my) (2 ^ (ex - prec - 2 * emin prec emax)))
      by (try apply pow2_pos; lia).
    f_equal.
    + unfold m'. rewrite <- !Z.mul_assoc, <- !Z.pow_add_r by lia. do 2 f_equal. lia.
    + rewrite <- !Z.mul_assoc, <- !Z.pow_add_r by lia. do 2 f_equal. unfold e'. lia.
  - unfold fexp. lia.
  - exists m2, e2. split; [exact R1|]. split; [apply R4; lia|].
    split; [unfold fexp in R3; lia|]. exact R2.
Qed.
End Division.

Section Addition.
Variables prec emax : Z.
Hypothesis Hprec : 0 < prec.
Hypothesis Hemin : emin prec emax <= 0.

Lemma normal_pos_finite (x : spec_float) (lo hi v : Z) :
  emin prec emax <= lo -> normal_pos prec emax x lo hi v -> finite_pos prec emax x v.
Proof.
  intros Hlo (m & e & E & _ & R & V). exists m, e. repeat split; try assumption; lia.
Qed.

(** The sum of two positive numbers below [2 ^ k] is their exact sum,
    rounded. *)
Lemma SFadd_spec (mx my : positive) (ex ey k : Z) :
  emin prec emax <= ex -> emin prec emax <= ey ->
  Zdigits2 (Zpos mx) + ex <= k -> Zdigits2 (Zpos my) + ey <= k ->
  fexp prec emax (k + 1) + 1 <= emax - prec ->
  finite_pos prec emax (SFadd prec emax (S754_finite false mx ex) (S754_finite false my ey))
    (rnd prec (Zpos mx * 2 ^ (ex - emin prec emax) +
               Zpos my * 2 ^ (ey - emin prec emax)) 1).
Proof.
  intros Hex Hey Kx Ky Hov.
  unfold SFadd, cond_Zopp.
  set (ez := Z.min ex ey).
  destruct (shl_align_spec mx ex ez) as [_ Ax].
  destruct (shl_align_spec my ey ez) as [_ Ay].
  rewrite (Z.min_r ex ez) in Ax by (unfold ez; lia).
  rewrite (Z.min_r ey ez) in Ay by (unfold ez; lia).
  set (ax := fst (shl_align mx ex ez)) in *.
  set (ay := fst (shl_align my ey ez)) in *.
  change (Zpos ax + Zpos ay) with (Zpos (ax + ay)).
  unfold binary_normalize.
  assert (Hez : emin prec emax <= ez) by (unfold ez; lia).
  pose proof (pow2_pos (ex - ez) ltac:(unfold ez; lia)) as Px.
  pose proof (pow2_pos (ey - ez) ltac:(unfold ez; lia)) as Py.
  assert (Hd : Zdigits2 (Zpos (ax + ay)) + ez <= k + 1).
  { destruct (digits_bounds mx _ eq_refl) as [_ Ux].
    destruct (digits_bounds my _ eq_refl) as [_ Uy].
    assert (Bx : Zpos ax < 2 ^ (k - ez)).
    { rewrite Ax. apply Z.lt_le_trans with (2 ^ Zdigits2 (Zpos mx) * 2 ^ (ex - ez)).
      - apply Z.mul_lt_mono_pos_r; lia.
      - rewrite <- Z.pow_add_r by (try (unfold ez); simpl; lia).
        apply Z.pow_le_mono_r; lia. }
    assert (By : Zpos ay < 2 ^ (k - ez)).
    { rewrite Ay. apply Z.lt_le_trans with (2 ^ Zdigits2 (Zpos my) * 2 ^ (ey - ez)).
      - apply Z.mul_lt_mono_pos_r; lia.
      - rewrite <- Z.pow_add_r by (try (unfold ez); simpl; lia).
        apply Z.pow_le_mono_r; lia. }
    assert (0 <= k - ez).
    { destruct (Z.le_gt_cases 0 (k - ez)); [assumption|].
      rewrite Z.pow_neg_r in Bx by lia. lia. }
    pose proof (digits_range (Zpos (ax + ay)) 0 (k - ez + 1) ltac:(lia)) as R.
    rewrite Z.pow_add_r, Z.pow_0_r, Z.pow_1_r in R by lia.
    rewrite Pos2Z.inj_add in *. specialize (R ltac:(lia)). lia. }
  destruct (binary_round_spec prec emax Hprec (ax + ay) ez Hez) as (m' & e' & R1 & R2 & R3 & _).
  - assert (fexp prec emax (Zdigits2 (Zpos (ax + ay)) + ez) <= fexp prec emax (k + 1))
      by (unfold fexp; lia).
    lia.
  - exists m', e'. split; [exact R1|]. split.
    + pose proof (fexp_ge_emin prec emax (Zdigits2 (Zpos (ax + ay)) + ez)). lia.
    + rewrite R2. f_equal. rewrite Pos2Z.inj_add, Ax, Ay.
      rewrite Z.mul_add_distr_r, <- !Z.mul_assoc, <- !Z.pow_add_r by (try (unfold ez); lia).
      f_equal; do 2 f_equal; lia.
Qed.

(** The integer part in terms of the scaled value. *)
Lemma Ztrunc_finite_scaled (m : positive) (e : Z) :
  emin prec emax <= e ->
  Ztrunc_finite false m e = (Zpos m * 2 ^ (e - emin prec emax)) / 2 ^ (- emin prec emax).
Proof.
  intros He. unfold Ztrunc_finite.
  pose proof (pow2_pos (- emin prec emax) ltac:(lia)) as Pm.
  destruct e as [|p|p].
  - rewrite Z.sub_0_l. rewrite Z.div_mul by lia. reflexivity.
  - replace (Zpos p - emin prec emax) with (Zpos p + (- emin prec emax)) by lia.
    rewrite Z.pow_add_r, Z.mul_assoc, Z.div_mul by lia. reflexivity.
  - replace (- emin prec emax) with (Zpos p + (Zneg p - emin prec emax)) by lia.
    rewrite Z.pow_add_r by lia.
    rewrite Z.div_mul_cancel_r; [reflexivity|lia|].
    pose proof (pow2_pos (Zneg p - emin prec emax) ltac:(lia)). lia.
Qed.
End Addition.

Section NormalNumbers.
Variables prec emax : Z.
Hypothesis Hprec : 0 < prec.
Hypothesis Hemin : emin prec emax <= 0.

Lemma normal_pos_value_pos (x : spec_float) (lo hi v : Z) :
  emin prec emax <= lo -> normal_pos prec emax x lo hi v -> 0 < v.
Proof.
  intros Hlo (m & e & _ & _ & R & <-).
  apply Z.mul_pos_pos; [lia|apply pow2_pos; lia].
Qed.

Lemma SFdiv_normal (x y : spec_float) (lo1 hi1 v1 lo2 hi2 v2 : Z) :
  normal_pos prec emax x lo1 hi1 v1 -> normal_pos prec emax y lo2 hi2 v2 ->
  emin prec emax <= lo1 -> emin prec emax <= lo2 ->
  emin prec emax <= lo1 - hi2 - prec ->
  hi1 - lo2 - prec + 2 <= emax - prec ->
  normal_pos prec emax (SFdiv prec emax x y)
    (lo1 - hi2 - prec) (hi1 - lo2 - prec + 2)
    (rnd prec (v1 * 2 ^ (- emin prec emax)) v2).
Proof.
  intros (mx & ex & -> & Dx & Rx & <-) (my & ey & -> & Dy & Ry & <-) H1 H2 H3 H4.
  destruct (SFdiv_spec prec emax Hprec Hemin mx my ex ey Dx Dy)
    as (m & e & E & D & R & V); try lia.
  exists m, e. repeat split; try assumption; lia.
Qed.

Lemma SFmul_normal (x y : spec_float) (lo1 hi1 v1 lo2 hi2 v2 : Z) :
  normal_pos prec emax x lo1 hi1 v1 -> normal_pos prec emax y lo2 hi2 v2 ->
  emin prec emax <= lo1 -> emin prec emax <= lo2 ->
  emin prec emax <= lo1 + lo2 ->
  hi1 + hi2 + prec + 1 <= emax - prec ->
  normal_pos prec emax (SFmul prec emax x y)
    (lo1 + lo2 + prec - 1) (hi1 + hi2 + prec + 1)
    (rnd prec (v1 * v2) (2 ^ (- emin prec emax))).
Proof.
  intros (mx & ex & -> & Dx & Rx & <-) (my & ey & -> & Dy & Ry & <-) H1 H2 H3 H4.
  destruct (SFmul_spec prec emax Hprec Hemin mx my ex ey Dx Dy)
    as (m & e & E & D & R & V); try lia.
  exists m, e. repeat split; try assumption; lia.
Qed.

(** The conversion of a positive integer below [2 ^ k]. *)
Lemma of_int_normal (n k : Z) :
  0 < n < 2 ^ k -> k - prec + 1 <= emax - prec ->
  emin prec emax <= 1 - prec ->
  normal_pos prec emax (binary_normalize prec emax n 0 false)
    (1 - prec) (k - prec + 1) (rnd prec (n * 2 ^ (- emin prec emax)) 1).
Proof.
  intros [Hn Hk] Hov Hlo.
  destruct n as [|p|p]; try lia. unfold binary_normalize.
  assert (K0 : 0 <= k).
  { destruct (Z.le_gt_cases 0 k); [assumption|]. rewrite Z.pow_neg_r in Hk; lia. }
  pose proof (digits_range (Zpos p) 0 k ltac:(lia) ltac:(simpl (2 ^ 0); lia)) as D.
  destruct (binary_round_spec prec emax Hprec p 0 Hemin) as (m & e & E & V & R & N).
  - unfold fexp. lia.
  - exists m, e. split; [exact E|]. split; [apply N; lia|].
    split; [unfold fexp in R; lia|]. rewrite V, Z.sub_0_l. reflexivity.
Qed.

(** The conversion to [int] of a positive number is the integer part of
    its value, clipped. *)
Lemma int_of_float_finite (x : spec_float) (v : Z) :
  finite_pos prec emax x v ->
  int_of_float x = saturate_int (v / 2 ^ (- emin prec emax)).
Proof.
  intros (m & e & -> & He & <-). unfold int_of_float.
  rewrite (Ztrunc_finite_scaled prec emax Hemin m e He). reflexivity.
Qed.
End NormalNumbers.

(* ===================================================================== *)
(** ** The interpolation of [setFanRpm] *)
(* ===================================================================== *)

(** ** binary32 *)

Lemma emin32 : emin prec32 emax32 = -149.
Proof. reflexivity. Qed.

Lemma prec32_pos : 0 < prec32.
Proof. reflexivity. Qed.

Lemma emin32_nonpos : emin prec32 emax32 <= 0.
Proof. rewrite emin32. lia. Qed.

Lemma f32_of_int_normal (n : Z) :
  1 <= n <= INT_MAX ->
  normal_pos prec32 emax32 (f32_of_int n) (-23) 8 (rnd prec32 (n * 2 ^ 149) 1).
Proof.
  intros Hn. unfold INT_MAX in Hn.
  apply (of_int_normal prec32 emax32 prec32_pos emin32_nonpos n 31).
  - change (2 ^ 31) with 2147483648. lia.
  - unfold prec32, emax32. lia.
  - rewrite emin32. unfold prec32. lia.
Qed.

Lemma f32_div_normal (x y : spec_float) (lo1 hi1 v1 lo2 hi2 v2 : Z) :
  normal_pos prec32 emax32 x lo1 hi1 v1 -> normal_pos prec32 emax32 y lo2 hi2 v2 ->
  -149 <= lo1 -> -149 <= lo2 -> -125 <= lo1 - hi2 -> hi1 - lo2 <= 102 ->
  normal_pos prec32 emax32 (f32_div x y) (lo1 - hi2 - 24) (hi1 - lo2 - 22)
    (rnd prec32 (v1 * 2 ^ 149) v2).
Proof.
  intros Hx Hy H1 H2 H3 H4.
  pose proof (SFdiv_normal prec32 emax32 prec32_pos emin32_nonpos
                x y lo1 hi1 v1 lo2 hi2 v2 Hx Hy) as S.
  rewrite emin32 in S. unfold prec32 at 1 2 3 4 5 6, emax32 at 1 in S.
  specialize (S ltac:(lia) ltac:(lia) ltac:(lia) ltac:(lia)).
  replace (hi1 - lo2 - 22) with (hi1 - lo2 - 24 + 2) by lia. exact S.
Qed.

Lemma f32_mul_normal (x y : spec_float) (lo1 hi1 v1 lo2 hi2 v2 : Z) :
  normal_pos prec32 emax32 x lo1 hi1 v1 -> normal_pos prec32 emax32 y lo2 hi2 v2 ->
  -149 <= lo1 -> -149 <= lo2 -> -149 <= lo1 + lo2 -> hi1 + hi2 <= 79 ->
  normal_pos prec32 emax32 (f32_mul x y) (lo1 + lo2 + 23) (hi1 + hi2 + 25)
    (rnd prec32 (v1 * v2) (2 ^ 149)).
Proof.
  intros Hx Hy H1 H2 H3 H4.
  pose proof (SFmul_normal prec32 emax32 prec32_pos emin32_nonpos
                x y lo1 hi1 v1 lo2 hi2 v2 Hx Hy) as S.
  rewrite emin32 in S. unfold prec32 at 1 2 3 4 5, emax32 at 1 in S.
  specialize (S ltac:(lia) ltac:(lia) ltac:(lia) ltac:(lia)).
  replace (lo1 + lo2 + 23) with (lo1 + lo2 + 24 - 1) by lia.
  replace (hi1 + hi2 + 25) with (hi1 + hi2 + 24 + 1) by lia. exact S.
Qed.

Lemma pow2_149_pos : 0 < 2 ^ 149.
Proof. apply pow2_pos. lia. Qed.

(** The conversion of an [int] to [float] is monotone. *)
Lemma rnd_of_int_mono (prec n n' u : Z) :
  0 < prec -> 0 < u -> 0 <= n <= n' ->
  rnd prec (n * u) 1 <= rnd prec (n' * u) 1.
Proof.
  intros Hp Hu Hn. apply rnd_mono; try lia; nia.
Qed.

(** ** The interpolation of [setFanRpm], in exact terms *)

Lemma limit_normal (range : Z) :
  1 <= range <= INT_MAX ->
  normal_pos prec32 emax32 (f32_div (f32_of_int range) (f32_of_int 100))
    (-55) 9 (limit_value range).
Proof.
  intros Hr.
  pose proof (f32_div_normal _ _ _ _ _ _ _ _
                (f32_of_int_normal range Hr)
                (f32_of_int_normal 100 ltac:(unfold INT_MAX; lia))
                ltac:(lia) ltac:(lia) ltac:(lia) ltac:(lia)) as S.
  exact S.
Qed.

Lemma pct_normal (range tempDiff : Z) :
  1 <= range <= INT_MAX -> 1 <= tempDiff <= INT_MAX ->
  normal_pos prec32 emax32
    (f32_div (f32_of_int tempDiff) (f32_div (f32_of_int range) (f32_of_int 100)))
    (-56) 41 (pct_value range tempDiff).
Proof.
  intros Hr Hd.
  pose proof (f32_div_normal _ _ _ _ _ _ _ _
                (f32_of_int_normal tempDiff Hd) (limit_normal range Hr)
                ltac:(lia) ltac:(lia) ltac:(lia) ltac:(lia)) as S.
  exact S.
Qed.

(** The integer of line 102, before the division by 100. *)
Lemma product_int (range rpmMax tempDiff : Z) :
  1 <= range <= INT_MAX -> 1 <= rpmMax <= INT_MAX -> 1 <= tempDiff <= INT_MAX ->
  int_of_float
    (f32_mul (f32_div (f32_of_int tempDiff)
                      (f32_div (f32_of_int range) (f32_of_int 100)))
             (f32_of_int rpmMax))
  = saturate_int (product_value range rpmMax tempDiff / 2 ^ 149).
Proof.
  intros Hr HR Hd.
  pose proof (f32_mul_normal _ _ _ _ _ _ _ _
                (pct_normal range tempDiff Hr Hd) (f32_of_int_normal rpmMax HR)
                ltac:(lia) ltac:(lia) ltac:(lia) ltac:(lia)) as S.
  apply (normal_pos_finite prec32 emax32) in S; [|rewrite emin32; lia].
  apply (int_of_float_finite prec32 emax32 emin32_nonpos) in S.
  rewrite emin32 in S. exact S.
Qed.

Lemma int_value_pos (n : Z) : 1 <= n <= INT_MAX -> 0 < int_value n.
Proof.
  intros Hn.
  refine (normal_pos_value_pos prec32 emax32 _ (-23) 8 _ _ (f32_of_int_normal n Hn)).
  rewrite emin32. lia.
Qed.

Lemma limit_value_pos (range : Z) : 1 <= range <= INT_MAX -> 0 < limit_value range.
Proof.
  intros Hr.
  refine (normal_pos_value_pos prec32 emax32 _ (-55) 9 _ _ (limit_normal range Hr)).
  rewrite emin32. lia.
Qed.

Lemma pct_value_pos (range d : Z) :
  1 <= range <= INT_MAX -> 1 <= d <= INT_MAX -> 0 < pct_value range d.
Proof.
  intros Hr Hd.
  refine (normal_pos_value_pos prec32 emax32 _ (-56) 41 _ _ (pct_normal range d Hr Hd)).
  rewrite emin32. lia.
Qed.

(** Each step of the interpolation is monotone in the temperature
    difference. *)
Lemma product_value_mono (range rpmMax d d' : Z) :
  1 <= range <= INT_MAX -> 1 <= rpmMax <= INT_MAX ->
  1 <= d -> d <= d' -> d' <= INT_MAX ->
  product_value range rpmMax d <= product_value range rpmMax d'.
Proof.
  intros Hr HR H1 H2 H3.
  pose proof pow2_149_pos as P.
  pose proof (int_value_pos rpmMax HR) as PR.
  pose proof (limit_value_pos range Hr) as PL.
  pose proof (int_value_pos d ltac:(lia)) as Pd.
  pose proof (pct_value_pos range d Hr ltac:(lia)) as Pp.
  assert (Hi : int_value d <= int_value d').
  { apply rnd_of_int_mono; [reflexivity|lia|lia]. }
  assert (Hp : pct_value range d <= pct_value range d').
  { apply rnd_mono.
    - reflexivity.
    - exact PL.
    - exact PL.
    - apply Z.mul_nonneg_nonneg; lia.
    - apply Z.mul_le_mono_nonneg_r; [lia|].
      apply Z.mul_le_mono_nonneg_r; lia. }
  apply rnd_mono.
  - reflexivity.
  - exact P.
  - exact P.
  - apply Z.mul_nonneg_nonneg; lia.
  - apply Z.mul_le_mono_nonneg_r; [lia|].
    apply Z.mul_le_mono_nonneg_r; lia.
Qed.

(** The integer of line 102 before the division by 100 grows with the
    temperature difference. *)
Lemma product_int_mono (range rpmMax d d' : Z) :
  1 <= range <= INT_MAX -> 0 <= rpmMax <= INT_MAX ->
  1 <= d -> d <= d' -> d' <= INT_MAX ->
  int_of_float
    (f32_mul (f32_div (f32_of_int d)
                      (f32_div (f32_of_int range) (f32_of_int 100)))
             (f32_of_int rpmMax))
  <= int_of_float
    (f32_mul (f32_div (f32_of_int d')
                      (f32_div (f32_of_int range) (f32_of_int 100)))
             (f32_of_int rpmMax)).
Proof.
  intros Hr HR H1 H2 H3.
  destruct (Z.eq_dec rpmMax 0) as [->|Nz].
  - destruct (pct_normal range d Hr ltac:(lia)) as (m & e & -> & _).
    destruct (pct_normal range d' Hr ltac:(lia)) as (m' & e' & -> & _).
    simpl. lia.
  - rewrite !product_int by lia.
    apply saturate_int_mono. apply Z.div_le_mono; [apply pow2_149_pos|].
    apply product_value_mono; lia.
Qed.

(** Above [TEMP_LOW] the duty grows with the temperature, for every
    configuration left by line 51.  Out of the range of [int] this is a
    fact about the saturating conversion; the theorems use it where the
    conversion is defined. *)
Lemma setFanRpm_rpm_mono_above_low (g : globals) (t1 t2 : Z) :
  RPM_MIN g <= RPM_MAX g ->
  1 <= TEMP_MAX g - TEMP_LOW g <= INT_MAX ->
  0 <= RPM_MAX g <= INT_MAX ->
  TEMP_LOW g < t1 -> t1 <= t2 -> t2 - TEMP_LOW g <= INT_MAX ->
  setFanRpm_rpm (calcTempLimitDiffPct g) t1 <=
  setFanRpm_rpm (calcTempLimitDiffPct g) t2.
Proof.
  intros Hm Hr HR H1 H2 H3.
  unfold setFanRpm_rpm, calcTempLimitDiffPct, set_tempLimitDiffPct.
  cbn [TEMP_LOW TEMP_MAX RPM_MAX RPM_MIN RPM_OFF tempLimitDiffPct].
  unfold int_sub.
  rewrite !wrap_int_id by (unfold in_int, INT_MIN, INT_MAX in *; lia).
  destruct (Z.ltb_spec 0 (t1 - TEMP_LOW g)); [|lia].
  destruct (Z.ltb_spec 0 (t2 - TEMP_LOW g)); [|lia].
  rewrite !int_div_100 by apply int_of_float_range.
  apply clamp_mono; [exact Hm|].
  apply Z.quot_le_mono; [lia|].
  apply product_int_mono; lia.
Qed.

(** The product of line 102 in exact terms. *)
Lemma product_finite (range rpmMax tempDiff : Z) :
  1 <= range <= INT_MAX -> 1 <= rpmMax <= INT_MAX -> 1 <= tempDiff <= INT_MAX ->
  finite_pos prec32 emax32
    (f32_mul (f32_div (f32_of_int tempDiff)
                      (f32_div (f32_of_int range) (f32_of_int 100)))
             (f32_of_int rpmMax))
    (product_value range rpmMax tempDiff).
Proof.
  intros Hr HR Hd.
  pose proof (f32_mul_normal _ _ _ _ _ _ _ _
                (pct_normal range tempDiff Hr Hd) (f32_of_int_normal rpmMax HR)
                ltac:(lia) ltac:(lia) ltac:(lia) ltac:(lia)) as S.
  apply (normal_pos_finite prec32 emax32) in S; [exact S|rewrite emin32; lia].
Qed.

(** The conversion of a positive number is defined when its integer part
    does not exceed [INT_MAX]. *)
Lemma int_of_float_defined_finite (x : spec_float) (v : Z) :
  finite_pos prec32 emax32 x v ->
  (int_of_float_defined x <-> v / 2 ^ 149 <= INT_MAX).
Proof.
  intros (m & e & -> & He & <-). unfold int_of_float_defined.
  rewrite (Ztrunc_finite_scaled prec32 emax32 emin32_nonpos m e He).
  rewrite emin32 in *. change (- -149) with 149.
  assert (0 <= Zpos m * 2 ^ (e - -149) / 2 ^ 149).
  { apply Z.div_pos; [|apply pow2_149_pos].
    apply Z.mul_nonneg_nonneg; [lia|]. apply Z.pow_nonneg. lia. }
  unfold INT_MIN. split; [intros [_ H1]; exact H1|intros H1; split; lia].
Qed.

(** Where the conversion of line 102 is defined for a temperature, it is
    defined for every lower temperature above [TEMP_LOW]. *)
Lemma setFanRpm_product_defined_below (g : globals) (t1 t2 : Z) :
  1 <= TEMP_MAX g - TEMP_LOW g <= INT_MAX ->
  0 <= RPM_MAX g <= INT_MAX ->
  TEMP_LOW g < t1 -> t1 <= t2 -> t2 - TEMP_LOW g <= INT_MAX ->
  int_of_float_defined (setFanRpm_product (calcTempLimitDiffPct g) t2) ->
  int_of_float_defined (setFanRpm_product (calcTempLimitDiffPct g) t1).
Proof.
  intros Hr HR H1 H2 H3.
  unfold setFanRpm_product, calcTempLimitDiffPct, set_tempLimitDiffPct.
  cbn [TEMP_LOW TEMP_MAX RPM_MAX tempLimitDiffPct]. cbv zeta.
  unfold int_sub.
  rewrite !wrap_int_id by (unfold in_int, INT_MIN, INT_MAX in *; lia).
  destruct (Z.eq_dec (RPM_MAX g) 0) as [->|Nz].
  - intros _.
    destruct (pct_normal (TEMP_MAX g - TEMP_LOW g) (t1 - TEMP_LOW g)
                Hr ltac:(lia)) as (m & e & -> & _).
    exact I.
  - pose proof (product_finite (TEMP_MAX g - TEMP_LOW g) (RPM_MAX g)
                  (t1 - TEMP_LOW g) Hr ltac:(lia) ltac:(lia)) as F1.
    pose proof (product_finite (TEMP_MAX g - TEMP_LOW g) (RPM_MAX g)
                  (t2 - TEMP_LOW g) Hr ltac:(lia) ltac:(lia)) as F2.
    rewrite (int_of_float_defined_finite _ _ F1).
    rewrite (int_of_float_defined_finite _ _ F2).
    intros D2.
    pose proof (product_value_mono (TEMP_MAX g - TEMP_LOW g) (RPM_MAX g)
                  (t1 - TEMP_LOW g) (t2 - TEMP_LOW g)
                  Hr ltac:(lia) ltac:(lia) ltac:(lia) ltac:(lia)) as M.
    pose proof (Z.div_le_mono _ _ (2 ^ 149) pow2_149_pos M). lia.
Qed.

(** C4 does not hold for every configuration that satisfies the
    invariants.  With [RPM_MAX = -21000000], [TEMP_LOW = -69067097] and
    [TEMP_MAX = 2147485] the range is 71214582 degrees and
    [tempLimitDiffPct] is 712145.8125.  The sensor reader returns 0 for a
    reading of 0 and 2147484 for the largest one.  At 0 degrees the
    product of line 102 is -2036674304 and the duty is clamped to
    [RPM_MAX]; at 2147484 degrees the quotient of line 101 is the [float]
    just above 100, the product is -2100000128 and the duty -21000001.
    Both conversions to [int] are defined. *)
Lemma negative_RPM_MAX_not_monotone :
  valid_config negative_duty_globals /\
  getCurrTemp (sensor_file "0") negative_duty_globals = Returns 0 /\
  getCurrTemp (sensor_file "2147483647") negative_duty_globals
    = Returns 2147484 /\
  TEMP_LOW negative_duty_globals < 0 /\
  2147484 < TEMP_MAX negative_duty_globals /\
  int_of_float_defined (setFanRpm_product negative_duty_globals 0) /\
  int_of_float_defined (setFanRpm_product negative_duty_globals 2147484) /\
  setFanRpm_rpm negative_duty_globals 0 = -21000000 /\
  setFanRpm_rpm negative_duty_globals 2147484 = -21000001 /\
  ~ setFanRpm_rpm negative_duty_globals 0
      <= setFanRpm_rpm negative_duty_globals 2147484.
Proof.
  split; [unfold valid_config; vm_compute; repeat split; discriminate|].
  split; [vm_compute; reflexivity|]. split; [vm_compute; reflexivity|].
  split; [reflexivity|]. split; [reflexivity|].
  split; [vm_compute; split; discriminate|].
  split; [vm_compute; split; discriminate|].
  split; [vm_compute; reflexivity|]. split; [vm_compute; reflexivity|].
  vm_compute. intros H. apply H. reflexivity.
Qed.

(** C4, amended.  In the interpolation region the duty is monotone when
    [RPM_MAX] is not negative and the conversion of line 102 is defined:
    for temperatures [TEMP_LOW < t1 <= t2 < TEMP_MAX] such that the
    product of line 102 at [t2] fits an [int] (it then does at [t1]), the
    duty at [t1] is at most the duty at [t2], and both lie in
    [[RPM_MIN, RPM_MAX]].  The configuration is any one that satisfies
    the invariants, as line 51 leaves it, with a temperature range
    [TEMP_MAX - TEMP_LOW] and an [RPM_MAX] that fit an [int]. *)
Theorem setFanRpm_rpm_monotone (g : globals) (t1 t2 : Z) :
  valid_config g ->
  TEMP_MAX g - TEMP_LOW g <= INT_MAX ->
  0 <= RPM_MAX g <= INT_MAX ->
  TEMP_LOW g < t1 -> t1 <= t2 -> t2 < TEMP_MAX g ->
  int_of_float_defined (setFanRpm_product (calcTempLimitDiffPct g) t2) ->
  int_of_float_defined (setFanRpm_product (calcTempLimitDiffPct g) t1) /\
  setFanRpm_rpm (calcTempLimitDiffPct g) t1
    <= setFanRpm_rpm (calcTempLimitDiffPct g) t2 /\
  RPM_MIN g <= setFanRpm_rpm (calcTempLimitDiffPct g) t1 <= RPM_MAX g /\
  RPM_MIN g <= setFanRpm_rpm (calcTempLimitDiffPct g) t2 <= RPM_MAX g.
Proof.
  intros [[Hoff Hmin] Ht] Hr HR H1 H2 H3 D2.
  split; [apply (setFanRpm_product_defined_below g t1 t2); (exact D2 || lia)|].
  split; [apply setFanRpm_rpm_mono_above_low; lia|].
  assert (In : forall t, TEMP_LOW g < t < TEMP_MAX g ->
               RPM_MIN g <= setFanRpm_rpm (calcTempLimitDiffPct g) t <= RPM_MAX g).
  { intros t Hlt. unfold setFanRpm_rpm, calcTempLimitDiffPct, set_tempLimitDiffPct.
    cbn [TEMP_LOW TEMP_MAX RPM_MAX RPM_MIN RPM_OFF tempLimitDiffPct].
    unfold int_sub.
    rewrite wrap_int_id by (unfold in_int, INT_MIN, INT_MAX in *; lia).
    destruct (Z.ltb_spec 0 (t - TEMP_LOW g)); [|lia].
    apply clamp_range. exact Hmin. }
  split; apply In; lia.
Qed.

Lemma setFanRpm_rpm_monotone_witness :
  int_of_float_defined (setFanRpm_product (calcTempLimitDiffPct initial_globals) 45) /\
  setFanRpm_rpm (calcTempLimitDiffPct initial_globals) 45
    <= setFanRpm_rpm (calcTempLimitDiffPct initial_globals) 50 /\
  RPM_MIN initial_globals
    <= setFanRpm_rpm (calcTempLimitDiffPct initial_globals) 45
    <= RPM_MAX initial_globals /\
  RPM_MIN initial_globals
    <= setFanRpm_rpm (calcTempLimitDiffPct initial_globals) 50
    <= RPM_MAX initial_globals.
Proof.
  apply (setFanRpm_rpm_monotone initial_globals 45 50).
  - unfold valid_config. cbn [RPM_OFF RPM_MIN RPM_MAX TEMP_LOW TEMP_MAX initial_globals]. lia.
  - cbn [TEMP_LOW TEMP_MAX initial_globals]. unfold INT_MAX. lia.
  - cbn [RPM_MAX initial_globals]. unfold INT_MAX. lia.
  - cbn [TEMP_LOW initial_globals]. lia.
  - lia.
  - cbn [TEMP_MAX initial_globals]. lia.
  - vm_compute. split; discriminate.
Defined.

(** With the default configuration every temperature above [TEMP_MAX]
    and up to 64464 degrees gives [RPM_MAX]: at 56 degrees the quotient
    of line 102 is 5333, and it does not decrease afterwards.  Up to
    64464 degrees the product of line 102 fits an [int] (it is 2147466624
    there), so that the conversion is defined. *)
Theorem setFanRpm_rpm_default_above_TEMP_MAX (currTemp : Z) :
  TEMP_MAX default_globals < currTemp -> currTemp <= 64464 ->
  int_of_float_defined (setFanRpm_product default_globals currTemp) /\
  setFanRpm_rpm default_globals currTemp = RPM_MAX default_globals.
Proof.
  intros H1 H2. change (TEMP_MAX default_globals) with 55 in H1.
  change (RPM_MAX default_globals) with 5000.
  split.
  - apply (setFanRpm_product_defined_below initial_globals currTemp 64464).
    + cbn [TEMP_MAX TEMP_LOW initial_globals]. unfold INT_MAX. lia.
    + cbn [RPM_MAX initial_globals]. unfold INT_MAX. lia.
    + cbn [TEMP_LOW initial_globals]. lia.
    + exact H2.
    + cbn [TEMP_LOW initial_globals]. unfold INT_MAX. lia.
    + vm_compute. split; discriminate.
  - pose proof (setFanRpm_rpm_mono_above_low initial_globals 56 currTemp) as M.
    change (calcTempLimitDiffPct initial_globals) with default_globals in M.
    cbn [RPM_MIN RPM_MAX TEMP_MAX TEMP_LOW initial_globals] in M.
    unfold INT_MAX in *.
    specialize (M ltac:(lia) ltac:(lia) ltac:(lia) ltac:(lia) ltac:(lia) ltac:(lia)).
    change (setFanRpm_rpm default_globals 56) with 5000 in M.
    assert (U : setFanRpm_rpm default_globals currTemp <= 5000).
    { unfold setFanRpm_rpm.
      change (RPM_OFF default_globals) with 0.
      change (RPM_MIN default_globals) with 1500.
      change (RPM_MAX default_globals) with 5000.
      destruct (0 <? int_sub currTemp (TEMP_LOW default_globals)); [|lia].
      apply (clamp_range 1500 5000). lia. }
    lia.
Qed.

Lemma setFanRpm_rpm_default_above_TEMP_MAX_witness :
  int_of_float_defined (setFanRpm_product default_globals 60) /\
  setFanRpm_rpm default_globals 60 = RPM_MAX default_globals.
Proof.
  apply (setFanRpm_rpm_default_above_TEMP_MAX 60).
  - change (TEMP_MAX default_globals) with 55. lia.
  - lia.
Defined.

(* ===================================================================== *)
(** ** The conversion of [getCurrTemp] *)
(* ===================================================================== *)

(** ** binary64 and the conversion of line 80 *)

Lemma emin64 : emin prec64 emax64 = -1074.
Proof. reflexivity. Qed.

Lemma prec64_pos : 0 < prec64.
Proof. reflexivity. Qed.

Lemma emin64_nonpos : emin prec64 emax64 <= 0.
Proof. rewrite emin64. lia. Qed.

(** A [float] converted to [double] keeps its value. *)
Lemma f64_of_f32_normal (x : spec_float) (lo hi v : Z) :
  normal_pos prec32 emax32 x lo hi v -> -149 <= lo -> hi <= 900 ->
  normal_pos prec64 emax64 (f64_of_f32 x) (lo - 29) (hi - 28)
    (rnd prec64 (v * 2 ^ 925) 1).
Proof.
  intros (m & e & -> & D & R & <-) Hlo Hhi. unfold f64_of_f32.
  rewrite emin32.
  destruct (binary_round_spec prec64 emax64 prec64_pos m e) as (m' & e' & E & V & B & N).
  - rewrite emin64. lia.
  - rewrite D. unfold fexp. rewrite emin64. unfold prec32, prec64, emax64. lia.
  - rewrite D in B, N. unfold fexp in B, N. rewrite emin64 in B, N, V.
    unfold prec32, prec64 in B, N.
    exists m', e'. split; [exact E|]. split; [apply N; lia|]. split; [lia|].
    rewrite emin64. rewrite V. f_equal.
    rewrite <- Z.mul_assoc, <- Z.pow_add_r by lia. do 2 f_equal. lia.
Qed.

Lemma f64_half_value : Zpos 4503599627370496 * 2 ^ (-53 - -1074) = 2 ^ 1073.
Proof.
  change (Zpos 4503599627370496) with (2 ^ 52).
  rewrite <- Z.pow_add_r by lia. reflexivity.
Qed.

Lemma f64_add_half (x : spec_float) (lo hi v : Z) :
  normal_pos prec64 emax64 x lo hi v -> -1074 <= lo -> hi <= 900 ->
  finite_pos prec64 emax64 (f64_add x f64_half) (rnd prec64 (v + 2 ^ 1073) 1).
Proof.
  intros (m & e & -> & D & R & <-) Hlo Hhi. unfold f64_add, f64_half.
  pose proof (SFadd_spec prec64 emax64 prec64_pos
                m 4503599627370496 e (-53) (Z.max (prec64 + e) 0)) as S.
  rewrite emin64 in S. rewrite D in S.
  rewrite f64_half_value in S. rewrite emin64.
  apply S.
  - lia.
  - lia.
  - lia.
  - change (Zdigits2 (Zpos 4503599627370496)) with 53. lia.
  - unfold fexp. rewrite emin64. unfold prec64, emax64. lia.
Qed.

(** Line 80 in exact terms. *)
Lemma milli_to_degrees_value (n : Z) :
  1 <= n <= INT_MAX ->
  milli_to_degrees n = saturate_int (degrees_value n / 2 ^ 1074).
Proof.
  intros Hn. unfold milli_to_degrees.
  pose proof (f32_div_normal _ _ _ _ _ _ _ _
                (f32_of_int_normal n Hn)
                (f32_of_int_normal 1000 ltac:(unfold INT_MAX; lia))
                ltac:(lia) ltac:(lia) ltac:(lia) ltac:(lia)) as Q.
  apply f64_of_f32_normal in Q; [|lia|lia].
  apply f64_add_half in Q; [|lia|lia].
  apply (int_of_float_finite prec64 emax64 emin64_nonpos) in Q.
  rewrite emin64 in Q. exact Q.
Qed.

Lemma rnd_nonneg (prec a b : Z) : 0 <= a -> 0 < b -> 0 <= rnd prec a b.
Proof.
  intros Ha Hb. unfold rnd. cbv zeta.
  pose proof (grid_exp_nonneg prec a b) as HE.
  set (E := grid_exp prec a b) in *.
  pose proof (pow2_pos E HE).
  apply Z.mul_nonneg_nonneg; [|lia].
  apply nearest_even_lower.
  pose proof (frac_code_floor a (b * 2 ^ E) ltac:(nia)) as [L _].
  assert (0 <= a / (b * 2 ^ E)) by (apply Z.div_pos; nia). lia.
Qed.

Lemma degrees_value_mono (n n' : Z) :
  1 <= n -> n <= n' -> n' <= INT_MAX -> degrees_value n <= degrees_value n'.
Proof.
  intros H1 H2 H3. unfold degrees_value.
  pose proof (int_value_pos 1000 ltac:(unfold INT_MAX; lia)) as P1000.
  pose proof (int_value_pos n ltac:(lia)) as Pn.
  assert (Hi : int_value n <= int_value n').
  { apply rnd_of_int_mono; [reflexivity|apply pow2_149_pos|lia]. }
  pose proof pow2_149_pos as P149.
  pose proof (pow2_pos 925 ltac:(lia)) as P925.
  pose proof (pow2_pos 1073 ltac:(lia)) as P1073.
  assert (Hq : rnd prec32 (int_value n * 2 ^ 149) (int_value 1000)
               <= rnd prec32 (int_value n' * 2 ^ 149) (int_value 1000)).
  { apply rnd_mono.
    - reflexivity.
    - exact P1000.
    - exact P1000.
    - apply Z.mul_nonneg_nonneg; lia.
    - apply Z.mul_le_mono_nonneg_r; [lia|]. apply Z.mul_le_mono_nonneg_r; lia. }
  assert (Hq0 : 0 <= rnd prec32 (int_value n * 2 ^ 149) (int_value 1000)).
  { apply rnd_nonneg; [apply Z.mul_nonneg_nonneg; lia|exact P1000]. }
  set (q := rnd prec32 (int_value n * 2 ^ 149) (int_value 1000)) in *.
  set (q' := rnd prec32 (int_value n' * 2 ^ 149) (int_value 1000)) in *.
  assert (Hc : rnd prec64 (q * 2 ^ 925) 1 <= rnd prec64 (q' * 2 ^ 925) 1).
  { apply rnd_of_int_mono; [reflexivity|exact P925|lia]. }
  assert (Hc0 : 0 <= rnd prec64 (q * 2 ^ 925) 1).
  { apply rnd_nonneg; [apply Z.mul_nonneg_nonneg; lia|lia]. }
  apply rnd_mono.
  - reflexivity.
  - lia.
  - lia.
  - lia.
  - lia.
Qed.

(** The conversion of line 80 is monotone in the reading. *)
Lemma milli_to_degrees_mono (n n' : Z) :
  1 <= n -> n <= n' -> n' <= INT_MAX ->
  milli_to_degrees n <= milli_to_degrees n'.
Proof.
  intros H1 H2 H3. rewrite !milli_to_degrees_value by lia.
  apply saturate_int_mono. apply Z.div_le_mono; [apply pow2_pos; lia|].
  apply degrees_value_mono; assumption.
Qed.

Lemma degrees_check_from_spec (fuel : nat) :
  forall k0, degrees_check_from fuel k0 = true ->
  forall k, k0 <= k < k0 + Z.of_nat fuel -> degrees_check k = true.
Proof.
  induction fuel as [|fuel IH]; intros k0 H k Hk.
  - simpl in Hk. lia.
  - cbn [degrees_check_from] in H. apply andb_prop in H as [H0 H1].
    destruct (Z.eq_dec k k0) as [->|Ne]; [exact H0|].
    apply (IH (k0 + 1) H1). rewrite Nat2Z.inj_succ in Hk. lia.
Qed.

(** Line 80 evaluated at both ends of each of the 16778 intervals. *)
Lemma degrees_checked : degrees_check_from (Z.to_nat 16778) 0 = true.
Proof. vm_compute. reflexivity. Qed.

(** Up to 16777.498 degrees the reading is rounded to the nearest degree,
    halves up. *)
Lemma milli_to_degrees_rounds (n : Z) :
  0 <= n <= 16777498 -> milli_to_degrees n = (n + 500) / 1000.
Proof.
  intros Hn.
  destruct (Z.eq_dec n 0) as [->|Nz]; [reflexivity|].
  set (k := (n + 500) / 1000).
  pose proof (Z.div_mod (n + 500) 1000 ltac:(lia)) as D.
  pose proof (Z.mod_pos_bound (n + 500) 1000 ltac:(lia)) as B.
  fold k in D.
  assert (Hk : 0 <= k < 0 + Z.of_nat (Z.to_nat 16778)).
  { rewrite Z2Nat.id by lia. lia. }
  pose proof (degrees_check_from_spec _ 0 degrees_checked k Hk) as C.
  unfold degrees_check in C. apply andb_prop in C as [C1 C2].
  apply Z.eqb_eq in C1, C2.
  assert (L : degrees_low k <= n).
  { unfold degrees_low. destruct (Z.eqb_spec k 0); lia. }
  assert (L1 : 1 <= degrees_low k).
  { unfold degrees_low. destruct (Z.eqb_spec k 0); lia. }
  assert (U : n <= degrees_high k)
    by (unfold degrees_high, max_exact_reading; lia).
  assert (U1 : degrees_high k <= INT_MAX)
    by (unfold degrees_high, max_exact_reading, INT_MAX; lia).
  pose proof (milli_to_degrees_mono (degrees_low k) n L1 L ltac:(lia)).
  pose proof (milli_to_degrees_mono n (degrees_high k) ltac:(lia) U U1).
  lia.
Qed.

(** C9 does not hold for every reading: 16777499 millidegrees is not a
    [float]; it becomes 16777500, the quotient 16777.5, and the result
    16778 instead of 16777. *)
Lemma reading_16777499_rounds_up :
  getCurrTemp (sensor_file "16777499") default_globals = Returns 16778 /\
  (16777499 + 500) / 1000 = 16777.
Proof. split; reflexivity. Qed.

(** C9, amended.  For a sensor reading [n] from 0 to 16777498
    millidegrees, [getCurrTemp] returns [n] rounded to the nearest degree,
    halves rounding up; a reading of 41499 gives 41 and one of 41500
    gives 42. *)
Theorem getCurrTemp_rounds (fs : filesystem) (g : globals)
        (content rest : string) (n : Z) :
  fs (thermalFilename g) = Some content ->
  scan_int content = Some (n, rest) ->
  0 <= n <= 16777498 ->
  getCurrTemp fs g = Returns ((n + 500) / 1000) /\
  milli_to_degrees 41499 = 41 /\ milli_to_degrees 41500 = 42.
Proof.
  intros Hf Hs Hn. split; [|split; reflexivity].
  unfold getCurrTemp. rewrite Hf, fscanf_int, Hs.
  assert (F : fits (SInt n) = true).
  { unfold fits, INT_MIN, INT_MAX. apply andb_true_intro.
    split; apply Z.leb_le; lia. }
  rewrite F, milli_to_degrees_rounds by exact Hn. reflexivity.
Qed.

Lemma getCurrTemp_rounds_witness :
  getCurrTemp (sensor_file "41499") default_globals = Returns ((41499 + 500) / 1000) /\
  milli_to_degrees 41499 = 41 /\ milli_to_degrees 41500 = 42.
Proof.
  apply (getCurrTemp_rounds (sensor_file "41499") default_globals
           "41499" EmptyString 41499); [reflexivity|reflexivity|lia].
Defined.

(* ===================================================================== *)
(** * Further properties *)
(* ===================================================================== *)

(** ** The speed mapper over all temperatures *)

(** A hotter reading never gives a lower duty: over the whole range of
    temperatures (below [TEMP_LOW], between the thresholds and above
    [TEMP_MAX]) the duty is monotone, for a configuration that satisfies
    the invariants with a non-negative [RPM_MAX], as long as the
    conversion of line 102 is defined at the higher temperature (it then
    is at the lower one). *)
Theorem setFanRpm_rpm_monotone_everywhere (g : globals) (t1 t2 : Z) :
  valid_config g ->
  TEMP_MAX g - TEMP_LOW g <= INT_MAX ->
  0 <= RPM_MAX g <= INT_MAX ->
  INT_MIN <= t1 - TEMP_LOW g -> t2 - TEMP_LOW g <= INT_MAX ->
  t1 <= t2 ->
  (TEMP_LOW g < t2 ->
   int_of_float_defined (setFanRpm_product (calcTempLimitDiffPct g) t2)) ->
  (TEMP_LOW g < t1 ->
   int_of_float_defined (setFanRpm_product (calcTempLimitDiffPct g) t1)) /\
  setFanRpm_rpm (calcTempLimitDiffPct g) t1
    <= setFanRpm_rpm (calcTempLimitDiffPct g) t2.
Proof.
  intros [[Hoff Hmin] Ht] Hr HR H1 H2 H12 D2.
  split.
  { intros Hi. apply (setFanRpm_product_defined_below g t1 t2); try lia.
    apply D2. lia. }
  destruct (Z.le_gt_cases t1 (TEMP_LOW g)) as [Lo|Hi].
  - assert (E1 : setFanRpm_rpm (calcTempLimitDiffPct g) t1 = RPM_OFF g).
    { unfold setFanRpm_rpm, calcTempLimitDiffPct, set_tempLimitDiffPct.
      cbn [TEMP_LOW TEMP_MAX RPM_MAX RPM_MIN RPM_OFF tempLimitDiffPct].
      unfold int_sub.
      rewrite wrap_int_id by (unfold in_int, INT_MIN, INT_MAX in *; lia).
      destruct (Z.ltb_spec 0 (t1 - TEMP_LOW g)); [lia|reflexivity]. }
    rewrite E1.
    unfold setFanRpm_rpm, calcTempLimitDiffPct, set_tempLimitDiffPct.
    cbn [TEMP_LOW TEMP_MAX RPM_MAX RPM_MIN RPM_OFF tempLimitDiffPct].
    destruct (0 <? int_sub t2 (TEMP_LOW g)); [|lia].
    match goal with
    | |- _ <= (if ?r <? _ then _ else _) =>
        pose proof (clamp_range (RPM_MIN g) (RPM_MAX g) r Hmin)
    end. lia.
  - apply setFanRpm_rpm_mono_above_low; lia.
Qed.

Lemma setFanRpm_rpm_monotone_everywhere_witness :
  (TEMP_LOW initial_globals < 30 ->
   int_of_float_defined (setFanRpm_product (calcTempLimitDiffPct initial_globals) 30)) /\
  setFanRpm_rpm (calcTempLimitDiffPct initial_globals) 30
    <= setFanRpm_rpm (calcTempLimitDiffPct initial_globals) 70.
Proof.
  apply (setFanRpm_rpm_monotone_everywhere initial_globals 30 70).
  - unfold valid_config. cbn [RPM_OFF RPM_MIN RPM_MAX TEMP_LOW TEMP_MAX initial_globals]. lia.
  - cbn [TEMP_LOW TEMP_MAX initial_globals]. unfold INT_MAX. lia.
  - cbn [RPM_MAX initial_globals]. unfold INT_MAX. lia.
  - cbn [TEMP_LOW initial_globals]. unfold INT_MIN. lia.
  - cbn [TEMP_LOW initial_globals]. unfold INT_MAX. lia.
  - lia.
  - intros _. vm_compute. split; discriminate.
Defined.

(** With the default configuration the duty between the thresholds is
    the exact interpolation
    [(t - TEMP_LOW) * RPM_MAX / (TEMP_MAX - TEMP_LOW)], rounded down and
    raised to [RPM_MIN], except at 49 and 55 degrees, where the [float]
    quotient of line 101 falls just below 60 and 100 per cent and the
    duty is one less (2999 and 4999). *)
Theorem setFanRpm_rpm_default_table (t : Z) :
  TEMP_LOW default_globals < t <= TEMP_MAX default_globals ->
  setFanRpm_rpm default_globals t =
    Z.max (RPM_MIN default_globals)
          ((t - TEMP_LOW default_globals) * RPM_MAX default_globals
             / (TEMP_MAX default_globals - TEMP_LOW default_globals)
           - (if (t =? 49) || (t =? 55) then 1 else 0)).
Proof.
  change (TEMP_LOW default_globals) with 40.
  change (TEMP_MAX default_globals) with 55. intros H.
  assert (C : t = 41 \/ t = 42 \/ t = 43 \/ t = 44 \/ t = 45 \/ t = 46 \/
              t = 47 \/ t = 48 \/ t = 49 \/ t = 50 \/ t = 51 \/ t = 52 \/
              t = 53 \/ t = 54 \/ t = 55) by lia.
  repeat (destruct C as [->|C]; [vm_compute; reflexivity|]).
  subst t. vm_compute. reflexivity.
Qed.

Lemma setFanRpm_rpm_default_table_witness :
  setFanRpm_rpm default_globals 49 =
    Z.max (RPM_MIN default_globals)
          ((49 - TEMP_LOW default_globals) * RPM_MAX default_globals
             / (TEMP_MAX default_globals - TEMP_LOW default_globals)
           - (if (49 =? 49) || (49 =? 55) then 1 else 0)).
Proof.
  apply (setFanRpm_rpm_default_table 49). simpl. lia.
Defined.

(** ** The divisor of line 101 *)

(** [tempLimitDiffPct] is zero exactly when the two thresholds are
    equal; with [TEMP_LOW < TEMP_MAX] it is a positive finite [float], so
    that line 101 does not divide by zero. *)
Theorem tempLimitDiffPct_zero_iff (g : globals) :
  TEMP_LOW g <= TEMP_MAX g -> TEMP_MAX g - TEMP_LOW g <= INT_MAX ->
  (tempLimitDiffPct (calcTempLimitDiffPct g) = S754_zero false
     <-> TEMP_MAX g = TEMP_LOW g) /\
  (TEMP_LOW g < TEMP_MAX g ->
     exists m e,
       tempLimitDiffPct (calcTempLimitDiffPct g) = S754_finite false m e).
Proof.
  intros Hle Hr.
  unfold calcTempLimitDiffPct, set_tempLimitDiffPct. cbn [tempLimitDiffPct].
  unfold int_sub.
  rewrite wrap_int_id by (unfold in_int, INT_MIN, INT_MAX in *; lia).
  assert (P : TEMP_LOW g < TEMP_MAX g ->
              exists m e,
                f32_div (f32_of_int (TEMP_MAX g - TEMP_LOW g)) (f32_of_int 100)
                = S754_finite false m e).
  { intros Hlt.
    destruct (limit_normal (TEMP_MAX g - TEMP_LOW g) ltac:(lia))
      as (m & e & E & _).
    exists m, e. exact E. }
  split; [|exact P]. split.
  - intros Z0. destruct (Z.eq_dec (TEMP_MAX g) (TEMP_LOW g)) as [E|Ne]; [exact E|].
    destruct (P ltac:(lia)) as (m & e & E). rewrite E in Z0. discriminate Z0.
  - intros ->. rewrite Z.sub_diag. reflexivity.
Qed.

Lemma tempLimitDiffPct_zero_iff_witness :
  (tempLimitDiffPct (calcTempLimitDiffPct initial_globals) = S754_zero false
     <-> TEMP_MAX initial_globals = TEMP_LOW initial_globals) /\
  (TEMP_LOW initial_globals < TEMP_MAX initial_globals ->
     exists m e,
       tempLimitDiffPct (calcTempLimitDiffPct initial_globals)
       = S754_finite false m e).
Proof.
  apply (tempLimitDiffPct_zero_iff initial_globals);
    unfold INT_MAX; simpl; lia.
Defined.

(** For ordered thresholds, a temperature above [TEMP_LOW] and a positive
    [RPM_MAX], the quotient of line 101 and the product of line 102 are
    positive finite [float]s: the interpolation produces no zero, no
    infinity and no NaN. *)
Theorem interpolation_is_finite (g : globals) (currTemp : Z) :
  TEMP_LOW g < TEMP_MAX g -> TEMP_MAX g - TEMP_LOW g <= INT_MAX ->
  1 <= RPM_MAX g <= INT_MAX ->
  TEMP_LOW g < currTemp -> currTemp - TEMP_LOW g <= INT_MAX ->
  let tempDiff := int_sub currTemp (TEMP_LOW g) in
  let currTempDiffPct :=
    f32_div (f32_of_int tempDiff) (tempLimitDiffPct (calcTempLimitDiffPct g)) in
  (exists m e, currTempDiffPct = S754_finite false m e) /\
  (exists m e,
     f32_mul currTempDiffPct (f32_of_int (RPM_MAX g)) = S754_finite false m e).
Proof.
  intros Ht Hr HR Hc Hd. cbv zeta.
  unfold calcTempLimitDiffPct, set_tempLimitDiffPct. cbn [tempLimitDiffPct].
  unfold int_sub.
  rewrite !wrap_int_id by (unfold in_int, INT_MIN, INT_MAX in *; lia).
  pose proof (pct_normal (TEMP_MAX g - TEMP_LOW g) (currTemp - TEMP_LOW g)
                ltac:(lia) ltac:(lia)) as Q.
  pose proof (f32_mul_normal _ _ _ _ _ _ _ _ Q (f32_of_int_normal (RPM_MAX g) HR)
                ltac:(lia) ltac:(lia) ltac:(lia) ltac:(lia)) as M.
  split.
  - destruct Q as (m & e & E & _). exists m, e. exact E.
  - destruct M as (m & e & E & _). exists m, e. exact E.
Qed.

Lemma interpolation_is_finite_witness :
  let tempDiff := int_sub 47 (TEMP_LOW initial_globals) in
  let currTempDiffPct :=
    f32_div (f32_of_int tempDiff)
            (tempLimitDiffPct (calcTempLimitDiffPct initial_globals)) in
  (exists m e, currTempDiffPct = S754_finite false m e) /\
  (exists m e,
     f32_mul currTempDiffPct (f32_of_int (RPM_MAX initial_globals))
     = S754_finite false m e).
Proof.
  apply (interpolation_is_finite initial_globals 47);
    unfold INT_MAX; simpl; lia.
Defined.

(** ** The sensor reader over all readings *)

(** The sign goes through the rounding unchanged. *)
Lemma binary_round_aux_opp (prec emax : Z) (m e : Z) (l : location) :
  binary_round_aux prec emax true m e l
  = SFopp (binary_round_aux prec emax false m e l).
Proof.
  unfold binary_round_aux.
  destruct (shr_fexp prec emax m e l) as [r e'].
  destruct (shr_fexp prec emax _ e' loc_Exact) as [r' e''].
  destruct (shr_m r') as [|q|q]; [reflexivity| |reflexivity].
  destruct (e'' <=? emax - prec); reflexivity.
Qed.

Lemma binary_round_opp (prec emax : Z) (m : positive) (e : Z) :
  binary_round prec emax true m e = SFopp (binary_round prec emax false m e).
Proof.
  unfold binary_round. destruct (shl_align m e _) as [mz ez].
  apply binary_round_aux_opp.
Qed.

Lemma f32_div_opp (mx my : positive) (ex ey : Z) :
  f32_div (S754_finite true mx ex) (S754_finite false my ey)
  = SFopp (f32_div (S754_finite false mx ex) (S754_finite false my ey)).
Proof.
  unfold f32_div, SFdiv. cbn [xorb].
  destruct (SFdiv_core_binary prec32 emax32 (Zpos mx) ex (Zpos my) ey) as [[mz ez] lz].
  apply binary_round_aux_opp.
Qed.

Lemma rnd_zero (prec : Z) : rnd prec 0 1 = 0.
Proof.
  unfold rnd. cbv zeta.
  pose proof (pow2_pos (grid_exp prec 0 1) (grid_exp_nonneg prec 0 1)) as P.
  set (b := 1 * 2 ^ grid_exp prec 0 1) in *.
  assert (F : frac_code 0 b = 0).
  { unfold frac_code. change (2 * 0) with 0.
    rewrite Z.div_0_l, Z.mod_0_l by lia. reflexivity. }
  rewrite F. reflexivity.
Qed.

Lemma rnd_half64 : rnd prec64 (2 ^ 1073) 1 = 2 ^ 1073.
Proof. vm_compute. reflexivity. Qed.

(** A negative [double] above -2^900 plus one half, converted to [int]. *)
Lemma f64_add_half_opp (m : positive) (e : Z) :
  -1074 <= e -> Zdigits2 (Zpos m) + e <= 900 ->
  int_of_float (f64_add (S754_finite true m e) f64_half)
  = saturate_int
      (- (rnd prec64 (Z.max (Zpos m * 2 ^ (e + 1074) - 2 ^ 1073) 0) 1 / 2 ^ 1074)).
Proof.
  intros He Hd.
  unfold f64_add, f64_half, SFadd, cond_Zopp.
  set (ez := Z.min e (-53)).
  destruct (shl_align_spec m e ez) as [_ Ax].
  destruct (shl_align_spec 4503599627370496 (-53) ez) as [_ Ay].
  rewrite (Z.min_r e ez) in Ax by (unfold ez; lia).
  rewrite (Z.min_r (-53) ez) in Ay by (unfold ez; lia).
  set (ax := fst (shl_align m e ez)) in *.
  set (ay := fst (shl_align 4503599627370496 (-53) ez)) in *.
  assert (Hez : -1074 <= ez <= -53) by (unfold ez; lia).
  pose proof (pow2_pos (e - ez) ltac:(lia)) as Px.
  pose proof (pow2_pos (-53 - ez) ltac:(lia)) as Py.
  pose proof (pow2_pos (ez + 1074) ltac:(lia)) as Pz.
  assert (Vx : Zpos ax * 2 ^ (ez + 1074) = Zpos m * 2 ^ (e + 1074)).
  { rewrite Ax, <- Z.mul_assoc, <- Z.pow_add_r by lia. do 2 f_equal. lia. }
  assert (Vy : Zpos ay * 2 ^ (ez + 1074) = 2 ^ 1073).
  { rewrite Ay. change (Zpos 4503599627370496) with (2 ^ 52).
    rewrite <- !Z.pow_add_r by lia. f_equal. lia. }
  assert (Bx : Zpos ax < 2 ^ (900 - ez)).
  { destruct (digits_bounds m _ eq_refl) as [_ Ux].
    rewrite Ax. apply Z.lt_le_trans with (2 ^ Zdigits2 (Zpos m) * 2 ^ (e - ez)).
    - apply Z.mul_lt_mono_pos_r; lia.
    - rewrite <- Z.pow_add_r by (simpl; lia). apply Z.pow_le_mono_r; lia. }
  assert (By : Zpos ay < 2 ^ (900 - ez)).
  { rewrite Ay. change (Zpos 4503599627370496) with (2 ^ 52).
    rewrite <- Z.pow_add_r by lia. apply Z.pow_lt_mono_r; lia. }
  assert (Dg : forall d : positive,
             Zpos d <= Z.max (Zpos ax) (Zpos ay) ->
             fexp prec64 emax64 (Zdigits2 (Zpos d) + ez) + 1 <= emax64 - prec64).
  { intros d Hdd.
    pose proof (digits_range (Zpos d) 0 (900 - ez) ltac:(lia)) as R.
    rewrite Z.pow_0_r in R. specialize (R ltac:(lia)).
    unfold fexp. rewrite emin64. unfold emax64, prec64. lia. }
  destruct (- Zpos ax + Zpos ay) as [|d|d] eqn:Ed; unfold binary_normalize.
  - (* the number is minus one half *)
    assert (Z0 : Zpos m * 2 ^ (e + 1074) - 2 ^ 1073 = 0).
    { rewrite <- Vx, <- Vy. nia. }
    rewrite Z0. cbn [Z.max Z.compare]. rewrite rnd_zero. reflexivity.
  - (* above minus one half: the sum is below one half *)
    destruct (binary_round_spec prec64 emax64 prec64_pos d ez) as (m' & e' & R1 & R2 & R3 & _).
    + rewrite emin64. lia.
    + apply Dg. lia.
    + rewrite R1. unfold int_of_float.
      pose proof (fexp_ge_emin prec64 emax64 (Zdigits2 (Zpos d) + ez)) as Hf.
      rewrite (Ztrunc_finite_scaled prec64 emax64 emin64_nonpos m' e') by lia.
      rewrite R2. rewrite emin64 in *.
      replace (ez - -1074) with (ez + 1074) by lia.
      replace (- -1074) with 1074 by lia.
      assert (Neg : Zpos m * 2 ^ (e + 1074) - 2 ^ 1073 <= 0).
      { rewrite <- Vx, <- Vy. nia. }
      rewrite Z.max_r by exact Neg. rewrite rnd_zero.
      assert (U : rnd prec64 (Zpos d * 2 ^ (ez + 1074)) 1 <= 2 ^ 1073).
      { rewrite <- rnd_half64. apply rnd_mono.
        - reflexivity.
        - lia.
        - lia.
        - lia.
        - rewrite !Z.mul_1_r. rewrite <- Vy.
          apply Z.mul_le_mono_nonneg_r; lia. }
      assert (L : 0 <= rnd prec64 (Zpos d * 2 ^ (ez + 1074)) 1).
      { apply rnd_nonneg; lia. }
      rewrite Z.div_small.
      * reflexivity.
      * split; [exact L|]. apply Z.le_lt_trans with (2 ^ 1073); [exact U|].
        apply Z.pow_lt_mono_r; lia.
  - (* below minus one half *)
    rewrite binary_round_opp.
    destruct (binary_round_spec prec64 emax64 prec64_pos d ez) as (m' & e' & R1 & R2 & R3 & _).
    + rewrite emin64. lia.
    + apply Dg. lia.
    + rewrite R1. cbn [SFopp negb]. unfold int_of_float.
      change (Ztrunc_finite true m' e') with (- Ztrunc_finite false m' e').
      pose proof (fexp_ge_emin prec64 emax64 (Zdigits2 (Zpos d) + ez)) as Hf.
      rewrite (Ztrunc_finite_scaled prec64 emax64 emin64_nonpos m' e') by lia.
      rewrite R2. rewrite emin64 in *.
      replace (ez - -1074) with (ez + 1074) by lia.
      replace (- -1074) with 1074 by lia.
      assert (Pos : Zpos m * 2 ^ (e + 1074) - 2 ^ 1073 = Zpos d * 2 ^ (ez + 1074)).
      { rewrite <- Vx, <- Vy. nia. }
      rewrite Pos, Z.max_l by lia. reflexivity.
Qed.

(** Line 80 for a reading below zero, in exact terms. *)
Lemma milli_to_degrees_below_zero_value (p : Z) :
  1 <= p <= INT_MAX ->
  milli_to_degrees (- p) = saturate_int (- (below_zero_value p / 2 ^ 1074)).
Proof.
  intros Hp. unfold milli_to_degrees.
  pose proof (f32_of_int_normal p Hp) as N1.
  pose proof (f32_of_int_normal 1000 ltac:(unfold INT_MAX; lia)) as N2.
  pose proof (f32_div_normal _ _ _ _ _ _ _ _ N1 N2
                ltac:(lia) ltac:(lia) ltac:(lia) ltac:(lia)) as Q.
  pose proof Q as D. apply f64_of_f32_normal in D; [|lia|lia].
  destruct p as [|pp|pp]; try lia.
  change (- Zpos pp) with (Zneg pp).
  assert (O1 : f32_of_int (Zneg pp) = SFopp (f32_of_int (Zpos pp))).
  { unfold f32_of_int, binary_normalize. apply binary_round_opp. }
  rewrite O1.
  destruct N1 as (m1 & e1 & E1 & _). destruct N2 as (m2 & e2 & E2 & _).
  rewrite E1 in Q, D |- *. rewrite E2 in Q, D |- *. cbn [SFopp negb].
  rewrite f32_div_opp.
  destruct Q as (m3 & e3 & E3 & _). rewrite E3 in D |- *. cbn [SFopp negb].
  unfold f64_of_f32 in D |- *. rewrite binary_round_opp.
  destruct D as (m4 & e4 & E4 & D4 & R4 & V4). rewrite E4. cbn [SFopp negb].
  unfold prec64 in D4.
  rewrite f64_add_half_opp by lia.
  rewrite emin64 in V4.
  replace (e4 + 1074) with (e4 - -1074) by lia. rewrite V4.
  unfold below_zero_value, quotient_value, int_value. reflexivity.
Qed.

Lemma quotient_value_mono (p p' : Z) :
  1 <= p -> p <= p' -> p' <= INT_MAX -> 0 <= quotient_value p <= quotient_value p'.
Proof.
  intros H1 H2 H3. unfold quotient_value.
  pose proof (int_value_pos 1000 ltac:(unfold INT_MAX; lia)) as P1000.
  pose proof (int_value_pos p ltac:(lia)) as Pn.
  assert (Hi : int_value p <= int_value p').
  { apply rnd_of_int_mono; [reflexivity|apply pow2_149_pos|lia]. }
  pose proof pow2_149_pos as P149.
  pose proof (pow2_pos 925 ltac:(lia)) as P925.
  assert (Hq : rnd prec32 (int_value p * 2 ^ 149) (int_value 1000)
               <= rnd prec32 (int_value p' * 2 ^ 149) (int_value 1000)).
  { apply rnd_mono.
    - reflexivity.
    - exact P1000.
    - exact P1000.
    - apply Z.mul_nonneg_nonneg; lia.
    - apply Z.mul_le_mono_nonneg_r; [lia|]. apply Z.mul_le_mono_nonneg_r; lia. }
  assert (Hq0 : 0 <= rnd prec32 (int_value p * 2 ^ 149) (int_value 1000)).
  { apply rnd_nonneg; [apply Z.mul_nonneg_nonneg; lia|exact P1000]. }
  split.
  - apply rnd_nonneg; [apply Z.mul_nonneg_nonneg; lia|lia].
  - apply rnd_of_int_mono; [reflexivity|exact P925|lia].
Qed.

(** Below zero too, a colder reading never gives a higher temperature. *)
Lemma milli_to_degrees_mono_below_zero (n n' : Z) :
  - INT_MAX <= n -> n <= n' -> n' <= -1 ->
  milli_to_degrees n <= milli_to_degrees n'.
Proof.
  intros H1 H2 H3.
  replace n with (- (- n)) by lia. replace n' with (- (- n')) by lia.
  rewrite !milli_to_degrees_below_zero_value by lia.
  apply saturate_int_mono.
  pose proof (quotient_value_mono (- n') (- n) ltac:(lia) ltac:(lia) ltac:(lia)) as [Q0 Q].
  assert (B : below_zero_value (- n') <= below_zero_value (- n)).
  { unfold below_zero_value. apply rnd_mono; [reflexivity|lia..]. }
  pose proof (Z.div_le_mono _ _ (2 ^ 1074) (pow2_pos 1074 ltac:(lia)) B). lia.
Qed.

(** Line 80 is monotone over all of [int]. *)
Lemma milli_to_degrees_mono_int (a b : Z) :
  INT_MIN <= a -> a <= b -> b <= INT_MAX ->
  milli_to_degrees a <= milli_to_degrees b.
Proof.
  intros Ha Hab Hb.
  assert (Z1 : milli_to_degrees 0 = milli_to_degrees 1) by reflexivity.
  assert (Z2 : milli_to_degrees (-1) = milli_to_degrees 0) by reflexivity.
  assert (Z3 : milli_to_degrees INT_MIN = milli_to_degrees (- INT_MAX))
    by (vm_compute; reflexivity).
  assert (P : forall x y, 0 <= x -> x <= y -> y <= INT_MAX ->
                          milli_to_degrees x <= milli_to_degrees y).
  { intros x y Hx Hxy Hy.
    destruct (Z.eq_dec x 0) as [->|Nx].
    - destruct (Z.eq_dec y 0) as [->|Ny]; [lia|].
      rewrite Z1. apply milli_to_degrees_mono; lia.
    - apply milli_to_degrees_mono; lia. }
  assert (N : forall x y, INT_MIN <= x -> x <= y -> y <= -1 ->
                          milli_to_degrees x <= milli_to_degrees y).
  { intros x y Hx Hxy Hy.
    destruct (Z.eq_dec x INT_MIN) as [->|Nx].
    - destruct (Z.eq_dec y INT_MIN) as [->|Ny]; [lia|].
      rewrite Z3. apply milli_to_degrees_mono_below_zero;
        unfold INT_MIN, INT_MAX in *; lia.
    - apply milli_to_degrees_mono_below_zero;
        unfold INT_MIN, INT_MAX in *; lia. }
  destruct (Z.le_gt_cases 0 a) as [A0|A0].
  - apply P; lia.
  - destruct (Z.le_gt_cases b (-1)) as [B0|B0].
    + apply N; lia.
    + apply Z.le_trans with (milli_to_degrees (-1)).
      * apply N; lia.
      * rewrite Z2. apply P; lia.
Qed.

(** A hotter sensor reading never yields a lower temperature, over all
    the readings an [int] holds, and the temperature lies between
    -2147483 and 2147484 degrees. *)
Theorem getCurrTemp_monotone (fs fs' : filesystem) (g : globals)
        (content content' rest rest' : string) (n n' : Z) :
  fs (thermalFilename g) = Some content ->
  fs' (thermalFilename g) = Some content' ->
  scan_int content = Some (n, rest) ->
  scan_int content' = Some (n', rest') ->
  INT_MIN <= n -> n <= n' -> n' <= INT_MAX ->
  exists t t',
    getCurrTemp fs g = Returns t /\ getCurrTemp fs' g = Returns t' /\
    -2147483 <= t /\ t <= t' /\ t' <= 2147484.
Proof.
  intros Hf Hf' Hs Hs' H0 H1 H2.
  assert (F : forall k, INT_MIN <= k <= INT_MAX -> fits (SInt k) = true).
  { intros k Hk. unfold fits. apply andb_true_intro.
    split; apply Z.leb_le; lia. }
  exists (milli_to_degrees n), (milli_to_degrees n').
  unfold getCurrTemp. rewrite Hf, Hf', !fscanf_int, Hs, Hs'.
  rewrite !F by lia.
  split; [reflexivity|]. split; [reflexivity|].
  assert (Lo : milli_to_degrees INT_MIN = -2147483) by (vm_compute; reflexivity).
  assert (Hi : milli_to_degrees INT_MAX = 2147484) by (vm_compute; reflexivity).
  split; [|split].
  - rewrite <- Lo. apply milli_to_degrees_mono_int; lia.
  - apply milli_to_degrees_mono_int; lia.
  - rewrite <- Hi. apply milli_to_degrees_mono_int; lia.
Qed.

Lemma getCurrTemp_monotone_witness :
  exists t t',
    getCurrTemp (sensor_file "-1500") default_globals = Returns t /\
    getCurrTemp (sensor_file "41500") default_globals = Returns t' /\
    -2147483 <= t /\ t <= t' /\ t' <= 2147484.
Proof.
  apply (getCurrTemp_monotone (sensor_file "-1500") (sensor_file "41500")
           default_globals "-1500" "41500" EmptyString EmptyString (-1500) 41500);
    try reflexivity; unfold INT_MIN, INT_MAX; lia.
Defined.

(** Whatever the sensor reads, the subtraction of line 99 does not
    overflow when [TEMP_LOW] is within 2145336163 of zero. *)
Theorem tempDiff_does_not_overflow (fs : filesystem) (g : globals)
        (content rest : string) (n : Z) :
  fs (thermalFilename g) = Some content ->
  scan_int content = Some (n, rest) ->
  INT_MIN <= n <= INT_MAX ->
  -2145336163 <= TEMP_LOW g <= 2145336163 ->
  exists currTemp,
    getCurrTemp fs g = Returns currTemp /\
    in_int (currTemp - TEMP_LOW g) /\
    int_sub currTemp (TEMP_LOW g) = currTemp - TEMP_LOW g.
Proof.
  intros Hf Hs Hn Hl.
  exists (milli_to_degrees n).
  assert (F : fits (SInt n) = true).
  { unfold fits. apply andb_true_intro. split; apply Z.leb_le; lia. }
  unfold getCurrTemp. rewrite Hf, fscanf_int, Hs, F.
  split; [reflexivity|].
  assert (Lo : milli_to_degrees INT_MIN = -2147483) by (vm_compute; reflexivity).
  assert (Hi : milli_to_degrees INT_MAX = 2147484) by (vm_compute; reflexivity).
  pose proof (milli_to_degrees_mono_int INT_MIN n ltac:(lia) ltac:(lia) ltac:(lia)) as L.
  pose proof (milli_to_degrees_mono_int n INT_MAX ltac:(lia) ltac:(lia) ltac:(lia)) as U.
  rewrite Lo in L. rewrite Hi in U.
  assert (I : in_int (milli_to_degrees n - TEMP_LOW g)).
  { unfold in_int, INT_MIN, INT_MAX. lia. }
  split; [exact I|]. unfold int_sub. apply wrap_int_id. exact I.
Qed.

Lemma tempDiff_does_not_overflow_witness :
  exists currTemp,
    getCurrTemp (sensor_file "47000") default_globals = Returns currTemp /\
    in_int (currTemp - TEMP_LOW default_globals) /\
    int_sub currTemp (TEMP_LOW default_globals)
      = currTemp - TEMP_LOW default_globals.
Proof.
  apply (tempDiff_does_not_overflow (sensor_file "47000") default_globals
           "47000" EmptyString 47000);
    try reflexivity; unfold INT_MIN, INT_MAX; simpl; lia.
Defined.

Lemma below_zero_check_from_spec (fuel : nat) :
  forall k0, below_zero_check_from fuel k0 = true ->
  forall k, k0 <= k < k0 + Z.of_nat fuel -> below_zero_check k = true.
Proof.
  induction fuel as [|fuel IH]; intros k0 H k Hk.
  - simpl in Hk. lia.
  - cbn [below_zero_check_from] in H. apply andb_prop in H as [H0 H1].
    destruct (Z.eq_dec k k0) as [->|Ne]; [exact H0|].
    apply (IH (k0 + 1) H1). rewrite Nat2Z.inj_succ in Hk. lia.
Qed.

(** Line 80 evaluated at both ends of each of the 273 intervals. *)
Lemma below_zero_checked : below_zero_check_from (Z.to_nat 273) 0 = true.
Proof. vm_compute. reflexivity. Qed.

Lemma milli_to_degrees_below_zero (n : Z) :
  absolute_zero <= n <= 0 -> milli_to_degrees n = Z.quot (n + 500) 1000.
Proof.
  unfold absolute_zero. intros Hn.
  destruct (Z.eq_dec n 0) as [->|Nz]; [reflexivity|].
  set (k := (- n - 500) / 1000).
  assert (Hk0 : -1 <= k < 273).
  { unfold k. split.
    - apply Z.div_le_lower_bound; lia.
    - apply Z.div_lt_upper_bound; lia. }
  pose proof (Z.div_mod (- n - 500) 1000 ltac:(lia)) as D.
  pose proof (Z.mod_pos_bound (- n - 500) 1000 ltac:(lia)) as B.
  fold k in D.
  set (j := Z.max k 0).
  assert (Hj : 0 <= j < 0 + Z.of_nat (Z.to_nat 273)).
  { rewrite Z2Nat.id by lia. unfold j. lia. }
  pose proof (below_zero_check_from_spec _ 0 below_zero_checked j Hj) as C.
  unfold below_zero_check in C. apply andb_prop in C as [C1 C2].
  apply Z.eqb_eq in C1, C2.
  assert (Q : Z.quot (n + 500) 1000 = - j).
  { destruct (Z.le_gt_cases (n + 500) 0) as [Le|Gt].
    - replace (n + 500) with (- (- n - 500)) by lia.
      rewrite Z.quot_opp_l by lia. rewrite Z.quot_div_nonneg by lia.
      fold k. unfold j. assert (0 <= k) by (unfold k; apply Z.div_pos; lia). lia.
    - rewrite Z.quot_small by lia. unfold j. lia. }
  rewrite Q.
  assert (L : below_zero_low j <= n).
  { unfold below_zero_low, j. lia. }
  assert (U : n <= below_zero_high j).
  { unfold below_zero_high, j. destruct (Z.eqb_spec (Z.max k 0) 0); lia. }
  assert (U1 : below_zero_high j <= -1).
  { unfold below_zero_high, j. destruct (Z.eqb_spec (Z.max k 0) 0); lia. }
  assert (L1 : - INT_MAX <= below_zero_low j).
  { unfold below_zero_low, INT_MAX, j. lia. }
  pose proof (milli_to_degrees_mono_below_zero (below_zero_low j) n L1 L ltac:(lia)).
  pose proof (milli_to_degrees_mono_below_zero n (below_zero_high j) ltac:(lia) U U1).
  lia.
Qed.

(** A reading below zero is not rounded to the nearest degree: line 80
    adds half a degree and the conversion to [int] drops the fraction
    toward zero.  From absolute zero up to 0 the result is the quotient of
    [n + 500] by 1000 truncated toward zero; -2499 millidegrees reads as
    -1 degree. *)
Theorem getCurrTemp_below_zero (fs : filesystem) (g : globals)
        (content rest : string) (n : Z) :
  fs (thermalFilename g) = Some content ->
  scan_int content = Some (n, rest) ->
  absolute_zero <= n <= 0 ->
  getCurrTemp fs g = Returns (Z.quot (n + 500) 1000) /\
  milli_to_degrees (-2499) = -1.
Proof.
  intros Hf Hs Hn. split; [|reflexivity].
  unfold getCurrTemp. rewrite Hf, fscanf_int, Hs.
  assert (F : fits (SInt n) = true).
  { unfold fits, INT_MIN, INT_MAX, absolute_zero in *. apply andb_true_intro.
    split; apply Z.leb_le; lia. }
  rewrite F, milli_to_degrees_below_zero by exact Hn. reflexivity.
Qed.

Lemma getCurrTemp_below_zero_witness :
  getCurrTemp (sensor_file "-2499") default_globals
    = Returns (Z.quot (-2499 + 500) 1000) /\
  milli_to_degrees (-2499) = -1.
Proof.
  apply (getCurrTemp_below_zero (sensor_file "-2499") default_globals
           "-2499" EmptyString (-2499)); [reflexivity|reflexivity|].
  unfold absolute_zero. lia.
Defined.

(** ** Reading decimal text *)

Lemma scan_digits_uint (d : Decimal.uint) (rest : string) :
  no_digit_ahead rest ->
  forall acc,
    scan_digits (DecimalString.NilEmpty.string_of_uint d ++ rest) acc
    = (uint_value d acc, rest).
Proof.
  intros Hr. induction d as [|d IH|d IH|d IH|d IH|d IH|d IH|d IH|d IH|d IH|d IH];
    intros acc;
    try (cbn [DecimalString.NilEmpty.string_of_uint append scan_digits uint_value];
         change (digit_value "0") with (Some 0);
         change (digit_value "1") with (Some 1);
         change (digit_value "2") with (Some 2);
         change (digit_value "3") with (Some 3);
         change (digit_value "4") with (Some 4);
         change (digit_value "5") with (Some 5);
         change (digit_value "6") with (Some 6);
         change (digit_value "7") with (Some 7);
         change (digit_value "8") with (Some 8);
         change (digit_value "9") with (Some 9);
         cbv iota beta; rewrite ?Z.add_0_r; apply IH).
  cbn [DecimalString.NilEmpty.string_of_uint append uint_value].
  destruct rest as [|c r]; [reflexivity|].
  cbn [scan_digits]. simpl in Hr. rewrite Hr. reflexivity.
Qed.

Lemma of_uint_acc_value (d : Decimal.uint) :
  forall acc, Zpos (Pos.of_uint_acc d acc) = uint_value d (Zpos acc).
Proof.
  induction d as [|d IH|d IH|d IH|d IH|d IH|d IH|d IH|d IH|d IH|d IH];
    intros acc; cbn [Pos.of_uint_acc uint_value];
    [reflexivity|rewrite IH; f_equal; lia..].
Qed.

Lemma of_uint_value (d : Decimal.uint) :
  Z.of_N (Pos.of_uint d) = uint_value d 0.
Proof.
  induction d as [|d IH|d IH|d IH|d IH|d IH|d IH|d IH|d IH|d IH|d IH];
    cbn [Pos.of_uint uint_value Z.of_N];
    [reflexivity|exact IH|rewrite of_uint_acc_value; reflexivity..].
Qed.

Lemma to_uint_value (p : positive) : uint_value (Pos.to_uint p) 0 = Zpos p.
Proof.
  rewrite <- of_uint_value, DecimalPos.Unsigned.of_to. reflexivity.
Qed.

(** The text of a [uint] that is not empty starts with a digit, which is
    neither white space nor a sign. *)
Lemma scan_int_uint (d : Decimal.uint) (rest : string) :
  d <> Decimal.Nil -> no_digit_ahead rest ->
  scan_int (DecimalString.NilEmpty.string_of_uint d ++ rest)
  = Some (uint_value d 0, rest) /\
  scan_int (String "-" (DecimalString.NilEmpty.string_of_uint d ++ rest))
  = Some (- uint_value d 0, rest).
Proof.
  intros Hd Hr.
  pose proof (scan_digits_uint d rest Hr 0) as S.
  destruct d; [contradiction|..];
    cbn [DecimalString.NilEmpty.string_of_uint append] in S |- *;
    unfold scan_int; cbn [skip_space isspace];
    cbv beta iota zeta;
    (split; [|]);
    match goal with
    | |- context [digit_value ?c] =>
        let v := eval vm_compute in (digit_value c) in
        change (digit_value c) with v
    end; cbv beta iota; rewrite S; reflexivity.
Qed.

Lemma scan_int_decimal (z : Z) (rest : string) :
  no_digit_ahead rest -> scan_int (decimal z ++ rest) = Some (z, rest).
Proof.
  intros Hr. unfold decimal. destruct z as [|p|p]; cbn [Z.to_int].
  - destruct rest as [|c r]; [reflexivity|]. simpl in Hr.
    unfold scan_int. cbn. rewrite Hr. reflexivity.
  - cbn [DecimalString.NilEmpty.string_of_int].
    destruct (scan_int_uint (Pos.to_uint p) rest
                (DecimalPos.Unsigned.to_uint_nonnil p) Hr) as [E _].
    rewrite E, to_uint_value. reflexivity.
  - cbn [DecimalString.NilEmpty.string_of_int append].
    destruct (scan_int_uint (Pos.to_uint p) rest
                (DecimalPos.Unsigned.to_uint_nonnil p) Hr) as [_ E].
    rewrite E, to_uint_value. reflexivity.
Qed.

Lemma skip_space_blank (ws s : string) :
  blank ws = true -> skip_space (ws ++ s) = skip_space s.
Proof.
  induction ws as [|c ws IH]; intros H; [reflexivity|].
  cbn [blank] in H. apply andb_prop in H as [Hc Hw].
  cbn [append skip_space]. rewrite Hc. apply IH. exact Hw.
Qed.

Lemma skip_space_idem (s : string) : skip_space (skip_space s) = skip_space s.
Proof.
  induction s as [|c s IH]; [reflexivity|].
  cbn [skip_space]. destruct (isspace c) eqn:E; [exact IH|].
  cbn [skip_space]. rewrite E. reflexivity.
Qed.

Lemma scan_int_skip (s : string) : scan_int (skip_space s) = scan_int s.
Proof. unfold scan_int. rewrite skip_space_idem. reflexivity. Qed.

Lemma scan_int_blank (ws s : string) :
  blank ws = true -> scan_int (ws ++ s) = scan_int s.
Proof.
  intros H. rewrite <- (scan_int_skip (ws ++ s)), skip_space_blank by exact H.
  apply scan_int_skip.
Qed.

(** ** Reading a well-formed [params.conf] *)

Lemma run_literal (s : string) (ds : list directive) (input : string) :
  run (literal s ++ ds) (s ++ input) = run ds input.
Proof.
  induction s as [|c s IH]; [reflexivity|].
  cbn [literal app append run]. rewrite Ascii.eqb_refl. exact IH.
Qed.

Lemma isspace_no_digit (c : ascii) : isspace c = true -> digit_value c = None.
Proof.
  destruct c as [[] [] [] [] [] [] [] []]; intros H;
    solve [reflexivity | discriminate H].
Qed.

Lemma no_digit_ahead_blank (sep rest : string) :
  blank sep = true -> no_digit_ahead rest -> no_digit_ahead (sep ++ rest).
Proof.
  destruct sep as [|c sep]; intros H Hr; [exact Hr|].
  cbn [blank] in H. apply andb_prop in H as [Hc _].
  cbn [append no_digit_ahead]. apply isspace_no_digit. exact Hc.
Qed.

(** A number, the separator and the name of the next field. *)
Lemma run_int_then (z : Z) (sep name rest : string) (ds : list directive) :
  blank sep = true -> no_digit_ahead (name ++ rest) ->
  skip_space (name ++ rest) = (name ++ rest)%string ->
  run (DInt :: DSpace :: literal name ++ ds) (decimal z ++ sep ++ name ++ rest)
  = SInt z :: run ds rest.
Proof.
  intros Hs Hn Hk. cbn [run].
  rewrite scan_int_decimal by (apply no_digit_ahead_blank; assumption).
  rewrite skip_space_blank by exact Hs. rewrite Hk, run_literal. reflexivity.
Qed.

Lemma scan_word_solid (w tail : string) :
  solid w = true -> ends_word tail -> scan_word (w ++ tail) = (w, tail).
Proof.
  intros Hw Ht. induction w as [|c w IH].
  - cbn [append]. destruct tail as [|c r]; [reflexivity|].
    simpl in Ht. cbn [scan_word]. rewrite Ht. reflexivity.
  - cbn [solid] in Hw. apply andb_prop in Hw as [Hc Hw].
    apply negb_true_iff in Hc.
    cbn [append scan_word]. rewrite Hc, (IH Hw). reflexivity.
Qed.

Lemma scan_str_word (w tail : string) :
  word w -> ends_word tail -> scan_str (w ++ tail) = Some (w, tail).
Proof.
  intros [Hne Hw] Ht. destruct w as [|c w]; [contradiction|].
  pose proof (scan_word_solid (String c w) tail Hw Ht) as S.
  cbn [solid] in Hw. apply andb_prop in Hw as [Hc _].
  apply negb_true_iff in Hc.
  unfold scan_str. cbn [append skip_space]. rewrite Hc.
  cbn [append] in S. rewrite S. reflexivity.
Qed.

Lemma confFormat_directives :
  parse_format confFormat =
    literal "PWM_PIN=" ++ DInt :: DSpace ::
    literal "RPM_MAX=" ++ DInt :: DSpace ::
    literal "RPM_MIN=" ++ DInt :: DSpace ::
    literal "RPM_OFF=" ++ DInt :: DSpace ::
    literal "TEMP_MAX=" ++ DInt :: DSpace ::
    literal "TEMP_LOW=" ++ DInt :: DSpace ::
    literal "WAIT=" ++ DInt :: DSpace ::
    literal "THERMAL_FILE=" ++ [DStr].
Proof. reflexivity. Qed.

Lemma fscanf_conf_text (sep : string)
      (pin rpmMax rpmMin rpmOff tempMax tempLow wait : Z)
      (thermalFile tail : string) :
  blank sep = true -> word thermalFile -> ends_word tail ->
  fscanf confFormat
    (conf_text sep pin rpmMax rpmMin rpmOff tempMax tempLow wait thermalFile tail)
  = [SInt pin; SInt rpmMax; SInt rpmMin; SInt rpmOff; SInt tempMax;
     SInt tempLow; SInt wait; SStr thermalFile].
Proof.
  intros Hs Hw Ht. unfold fscanf, conf_text.
  rewrite confFormat_directives, run_literal.
  do 7 (rewrite run_int_then; [|exact Hs|reflexivity|reflexivity]).
  cbn [run]. rewrite scan_str_word by assumption. reflexivity.
Qed.

Lemma one_file_same (path content : string) :
  one_file path content path = Some content.
Proof. unfold one_file. rewrite String.eqb_refl. reflexivity. Qed.

(** A complete [params.conf] is honoured field by field.  The eight
    fields, written in the order of the format with any white space (or
    none) between them, set the eight variables; [tempLimitDiffPct] is
    computed from the thresholds read; [FREQUENCY] and [origPwmPinMode]
    keep their initialisers. *)
Theorem initFanControl_reads_conf_text (sep : string)
        (pin rpmMax rpmMin rpmOff tempMax tempLow wait : Z)
        (thermalFile tail : string) :
  blank sep = true ->
  in_int pin -> in_int rpmMax -> in_int rpmMin -> in_int rpmOff ->
  in_int tempMax -> in_int tempLow -> in_int wait ->
  word thermalFile -> (String.length thermalFile <= 37)%nat ->
  ends_word tail ->
  initFanControl
    (one_file confFilename
       (conf_text sep pin rpmMax rpmMin rpmOff tempMax tempLow wait
                  thermalFile tail))
    initial_globals
  = Returns
      {| PWM_PIN := pin;
         FREQUENCY := 25000;
         RPM_MAX := rpmMax;
         RPM_MIN := rpmMin;
         RPM_OFF := rpmOff;
         TEMP_MAX := tempMax;
         TEMP_LOW := tempLow;
         WAIT := wait;
         origPwmPinMode := -1;
         tempLimitDiffPct :=
           f32_div (f32_of_int (int_sub tempMax tempLow)) (f32_of_int 100);
         thermalFilename := thermalFile |}.
Proof.
  intros Hs H1 H2 H3 H4 H5 H6 H7 Hw Hl Ht.
  unfold initFanControl. rewrite one_file_same. cbv zeta.
  rewrite fscanf_conf_text by assumption.
  assert (F : forall z, in_int z -> fits (SInt z) = true).
  { intros z [Ha Hb]. unfold fits. apply andb_true_intro.
    split; apply Z.leb_le; assumption. }
  assert (Fw : fits (SStr thermalFile) = true).
  { unfold fits, thermalFilename_size. apply Nat.ltb_lt. lia. }
  cbn [forallb]. rewrite !F, Fw by assumption. reflexivity.
Qed.

Lemma initFanControl_reads_conf_text_witness :
  initFanControl
    (one_file confFilename
       (conf_text newline 12 4000 1000 0 60 (-5) 2500 "/tmp/temp" newline))
    initial_globals
  = Returns
      {| PWM_PIN := 12;
         FREQUENCY := 25000;
         RPM_MAX := 4000;
         RPM_MIN := 1000;
         RPM_OFF := 0;
         TEMP_MAX := 60;
         TEMP_LOW := -5;
         WAIT := 2500;
         origPwmPinMode := -1;
         tempLimitDiffPct :=
           f32_div (f32_of_int (int_sub 60 (-5))) (f32_of_int 100);
         thermalFilename := "/tmp/temp" |}.
Proof.
  apply (initFanControl_reads_conf_text newline
           12 4000 1000 0 60 (-5) 2500 "/tmp/temp" newline);
    try (unfold in_int, INT_MIN, INT_MAX; lia);
    try reflexivity.
  - split; [discriminate|reflexivity].
  - simpl. lia.
Defined.

(** A [THERMAL_FILE] of more than 37 characters does not fit
    [thermalFilename], an array of 38 characters that the [%s] of line 43
    fills without a bound: loading such a configuration overruns the
    array, and has no defined behaviour. *)
Theorem initFanControl_long_THERMAL_FILE (sep : string)
        (pin rpmMax rpmMin rpmOff tempMax tempLow wait : Z)
        (thermalFile tail : string) :
  blank sep = true -> word thermalFile -> ends_word tail ->
  (37 < String.length thermalFile)%nat ->
  initFanControl
    (one_file confFilename
       (conf_text sep pin rpmMax rpmMin rpmOff tempMax tempLow wait
                  thermalFile tail))
    initial_globals
  = Undefined.
Proof.
  intros Hs Hw Ht Hl.
  unfold initFanControl. rewrite one_file_same. cbv zeta.
  rewrite fscanf_conf_text by assumption.
  assert (Fw : fits (SStr thermalFile) = false).
  { unfold fits, thermalFilename_size. apply Nat.ltb_ge. lia. }
  cbn [forallb]. rewrite Fw, !andb_false_r. reflexivity.
Qed.

Lemma initFanControl_long_THERMAL_FILE_witness :
  initFanControl
    (one_file confFilename
       (conf_text " " 18 5000 1500 0 55 40 5000
                  "/sys/devices/virtual/thermal/thermal_zone0/temp" EmptyString))
    initial_globals
  = Undefined.
Proof.
  apply (initFanControl_long_THERMAL_FILE " " 18 5000 1500 0 55 40 5000
           "/sys/devices/virtual/thermal/thermal_zone0/temp" EmptyString).
  - reflexivity.
  - split; [discriminate|reflexivity].
  - exact I.
  - simpl. lia.
Defined.

(** ** The start of [params.conf] *)

Lemma run_literal_mismatch (s : string) (ds : list directive) :
  forall input, String.prefix s input = false -> run (literal s ++ ds) input = [].
Proof.
  induction s as [|a s IH]; intros input H.
  - destruct input; discriminate H.
  - destruct input as [|b r]; [reflexivity|].
    cbn [String.prefix] in H. cbn [literal app run].
    destruct (ascii_dec a b) as [->|Ne].
    + rewrite Ascii.eqb_refl. apply IH. exact H.
    + apply Ascii.eqb_neq in Ne. rewrite Ne. reflexivity.
Qed.

(** A [params.conf] that does not begin with the characters [PWM_PIN=]
    (a leading blank or comment line is enough) overrides nothing: the
    program runs with its defaults. *)
Theorem initFanControl_needs_PWM_PIN_first (fs : filesystem) (content : string) :
  fs confFilename = Some content ->
  String.prefix "PWM_PIN=" content = false ->
  initFanControl fs initial_globals = Returns default_globals.
Proof.
  intros Hf Hp. unfold initFanControl. rewrite Hf. cbv zeta.
  assert (E : fscanf confFormat content = []).
  { unfold fscanf. rewrite confFormat_directives.
    apply run_literal_mismatch. exact Hp. }
  rewrite E. reflexivity.
Qed.

Lemma initFanControl_needs_PWM_PIN_first_witness :
  initFanControl
    (one_file confFilename " PWM_PIN=12 RPM_MAX=4000") initial_globals
  = Returns default_globals.
Proof.
  apply (initFanControl_needs_PWM_PIN_first
           (one_file confFilename " PWM_PIN=12 RPM_MAX=4000")
           " PWM_PIN=12 RPM_MAX=4000");
    reflexivity.
Defined.

(** ** The leading fields of [params.conf] *)

Lemma confFormat_int_fields :
  parse_format confFormat =
    int_fields int_field_names (literal thermal_field_name ++ [DStr]).
Proof. reflexivity. Qed.

Lemma no_digit_ahead_sep (sep s : string) :
  blank sep = true -> sep <> EmptyString -> no_digit_ahead (sep ++ s).
Proof.
  destruct sep as [|c sep]; intros H Hne; [contradiction|].
  cbn [blank] in H. apply andb_prop in H as [Hc _].
  cbn [append no_digit_ahead]. apply isspace_no_digit. exact Hc.
Qed.

Lemma fields_text_nil (sep : string) (names : list string) (rest : string) :
  fields_text sep names [] rest = rest.
Proof. destruct names; reflexivity. Qed.

(** The leading fields are converted in order; what follows them is left
    to the rest of the format. *)
Lemma run_int_fields (sep rest : string) (ds : list directive) :
  blank sep = true -> sep <> EmptyString ->
  forall names vals,
    Forall (fun name => forall s, skip_space (name ++ s) = (name ++ s)%string) names ->
    (List.length vals <= List.length names)%nat ->
    run (int_fields names ds) (fields_text sep names vals rest)
    = map SInt vals ++
      run (int_fields (skipn (List.length vals) names) ds)
          (match vals with [] => rest | _ :: _ => skip_space rest end).
Proof.
  intros Hs Hne. induction names as [|name names IH]; intros vals Hn Hl.
  - destruct vals as [|v vals]; [reflexivity|]. simpl in Hl. lia.
  - destruct vals as [|v vals]; [reflexivity|].
    inversion Hn as [|? ? Hname Hnames]; subst.
    cbn [fields_text int_fields List.length skipn map app].
    rewrite run_literal. cbn [run].
    rewrite scan_int_decimal by (apply no_digit_ahead_sep; assumption).
    rewrite skip_space_blank by exact Hs.
    f_equal. cbn [List.length] in Hl.
    destruct vals as [|v' vals].
    + rewrite fields_text_nil. reflexivity.
    + destruct names as [|name' names']; [simpl in Hl; lia|].
      inversion Hnames as [|? ? Hname' _]; subst.
      assert (K : skip_space (fields_text sep (name' :: names') (v' :: vals) rest)
                  = fields_text sep (name' :: names') (v' :: vals) rest).
      { cbn [fields_text]. apply Hname'. }
      rewrite K. apply (IH (v' :: vals) Hnames). lia.
Qed.

Lemma int_field_names_solid :
  Forall (fun name => forall s, skip_space (name ++ s) = (name ++ s)%string)
         int_field_names.
Proof. repeat constructor. Qed.

(** A field whose name or value does not match stops the conversions. *)
Lemma run_int_field_fails (name : string) (ds : list directive) (input : string) :
  String.prefix name input = false \/
  (exists r, input = (name ++ r)%string /\ scan_int r = None) ->
  run (literal name ++ DInt :: ds) input = [].
Proof.
  intros [H|(r & -> & H)].
  - apply run_literal_mismatch. exact H.
  - rewrite run_literal. cbn [run]. rewrite H. reflexivity.
Qed.

Lemma run_thermal_field_fails (input : string) :
  String.prefix thermal_field_name input = false \/
  (exists r, input = (thermal_field_name ++ r)%string /\ scan_str r = None) ->
  run (literal thermal_field_name ++ [DStr]) input = [].
Proof.
  intros [H|(r & -> & H)].
  - apply run_literal_mismatch. exact H.
  - rewrite run_literal. cbn [run]. rewrite H. reflexivity.
Qed.

Lemma run_no_next_field (k : nat) (rest : string) :
  (k <= 7)%nat -> no_next_field k rest ->
  run (int_fields (skipn k int_field_names) (literal thermal_field_name ++ [DStr]))
      (match k with O => rest | S _ => skip_space rest end) = [].
Proof.
  intros Hk H. unfold no_next_field in H. cbv zeta in H.
  do 7 (destruct k as [|k];
        [cbn [skipn int_field_names int_fields];
         apply run_int_field_fails; exact H|]).
  destruct k as [|k]; [|lia].
  cbn [skipn int_field_names int_fields].
  apply run_thermal_field_fails. exact H.
Qed.

(** The items [fscanf] converts from a file that begins with [k] fields. *)
Lemma fscanf_fields_text (sep rest : string) (vals : list Z) :
  blank sep = true -> sep <> EmptyString ->
  (List.length vals <= 7)%nat -> no_next_field (List.length vals) rest ->
  fscanf confFormat (fields_text sep int_field_names vals rest) = map SInt vals.
Proof.
  intros Hs Hne Hl Hn. unfold fscanf. rewrite confFormat_int_fields.
  rewrite (run_int_fields sep rest _ Hs Hne int_field_names vals
             int_field_names_solid Hl).
  pose proof (run_no_next_field (List.length vals) rest Hl Hn) as E.
  destruct vals as [|v vals]; cbn [List.length] in E |- *;
    rewrite E, app_nil_r; reflexivity.
Qed.

Lemma forallb_fits_ints (vals : list Z) :
  Forall in_int vals -> forallb fits (map SInt vals) = true.
Proof.
  induction 1 as [|v vals [Ha Hb] _ IH]; [reflexivity|].
  cbn [map forallb fits]. rewrite IH.
  replace (INT_MIN <=? v) with true by (symmetry; apply Z.leb_le; exact Ha).
  replace (v <=? INT_MAX) with true by (symmetry; apply Z.leb_le; exact Hb).
  reflexivity.
Qed.

(** C7, amended.  With no [params.conf] every field keeps its default.
    With a [params.conf] that begins with the first [k] fields of the
    fixed order [PWM_PIN, RPM_MAX, RPM_MIN, RPM_OFF, TEMP_MAX, TEMP_LOW,
    WAIT] ([0 <= k <= 7]), each written as its name and an integer that
    fits an [int] and followed by white space, and that does not go on
    with the next field (another name comes, or a value that does not
    parse), exactly those [k] fields are overridden: the later ones keep
    their defaults, [FREQUENCY] keeps its own, and [tempLimitDiffPct] is
    computed from the result. *)
Theorem initFanControl_positional (fs0 : filesystem) (sep rest : string)
        (vals : list Z) :
  fs0 confFilename = None ->
  blank sep = true -> sep <> EmptyString ->
  (List.length vals <= 7)%nat -> Forall in_int vals ->
  no_next_field (List.length vals) rest ->
  (initFanControl fs0 initial_globals = Returns default_globals /\
   FREQUENCY default_globals = 25000 /\
   conf_fields default_globals =
     [SInt 18; SInt 5000; SInt 1500; SInt 0; SInt 55; SInt 40; SInt 5000;
      SStr "/sys/class/thermal/thermal_zone0/temp"]) /\
  exists g,
    initFanControl
      (one_file confFilename (fields_text sep int_field_names vals rest))
      initial_globals = Returns g /\
    conf_fields g =
      map SInt vals ++ skipn (List.length vals) (conf_fields initial_globals) /\
    FREQUENCY g = 25000 /\
    tempLimitDiffPct g =
      f32_div (f32_of_int (int_sub (TEMP_MAX g) (TEMP_LOW g))) (f32_of_int 100).
Proof.
  intros Hf Hs Hne Hl Hv Hn. split.
  - unfold initFanControl. rewrite Hf.
    split; [reflexivity|]. split; reflexivity.
  - pose proof (fscanf_fields_text sep rest vals Hs Hne Hl Hn) as E.
    pose proof (fscanf_confFormat_kinds
                  (fields_text sep int_field_names vals rest)) as K.
    rewrite E in K.
    apply (store_from_fields _ initial_globals) in K.
    destruct K as (_ & Kf & Kfreq & _ & _).
    rewrite length_map in Kf.
    destruct (calcTempLimitDiffPct_fields
                (store_from 0 (map SInt vals) initial_globals))
      as (Cfreq & Cf & Ct).
    unfold initFanControl. rewrite one_file_same. cbv zeta.
    rewrite E, forallb_fits_ints by exact Hv.
    eexists. split; [reflexivity|].
    rewrite Cfreq, Cf, Kfreq.
    split; [exact Kf|]. split; [reflexivity|exact Ct].
Qed.

Lemma initFanControl_positional_witness :
  (initFanControl no_files initial_globals = Returns default_globals /\
   FREQUENCY default_globals = 25000 /\
   conf_fields default_globals =
     [SInt 18; SInt 5000; SInt 1500; SInt 0; SInt 55; SInt 40; SInt 5000;
      SStr "/sys/class/thermal/thermal_zone0/temp"]) /\
  exists g,
    initFanControl
      (one_file confFilename
         (fields_text " " int_field_names [12; 4000] "RPM_MIN=low"))
      initial_globals = Returns g /\
    conf_fields g =
      map SInt [12; 4000] ++ skipn 2 (conf_fields initial_globals) /\
    FREQUENCY g = 25000 /\
    tempLimitDiffPct g =
      f32_div (f32_of_int (int_sub (TEMP_MAX g) (TEMP_LOW g))) (f32_of_int 100).
Proof.
  apply (initFanControl_positional no_files " " "RPM_MIN=low" [12; 4000]).
  - reflexivity.
  - reflexivity.
  - discriminate.
  - simpl. lia.
  - repeat constructor; unfold INT_MIN, INT_MAX; lia.
  - right. exists "low"%string. split; reflexivity.
Defined.

(** ** The text of the sensor file *)

(** [getCurrTemp] takes the leading decimal number of the sensor file:
    white space before it is skipped and what follows the digits (the
    newline the kernel writes) is ignored. *)
Theorem getCurrTemp_leading_decimal (fs : filesystem) (g : globals)
        (ws rest : string) (n : Z) :
  fs (thermalFilename g) = Some (ws ++ decimal n ++ rest)%string ->
  blank ws = true -> no_digit_ahead rest -> in_int n ->
  getCurrTemp fs g = Returns (milli_to_degrees n).
Proof.
  intros Hf Hws Hr [Ha Hb]. unfold getCurrTemp.
  rewrite Hf, fscanf_int, scan_int_blank, scan_int_decimal by assumption.
  assert (F : fits (SInt n) = true).
  { unfold fits. apply andb_true_intro. split; apply Z.leb_le; assumption. }
  rewrite F. reflexivity.
Qed.

Lemma getCurrTemp_leading_decimal_witness :
  getCurrTemp (sensor_file (" " ++ decimal 41500 ++ newline)) default_globals
  = Returns (milli_to_degrees 41500).
Proof.
  apply (getCurrTemp_leading_decimal
           (sensor_file (" " ++ decimal 41500 ++ newline)) default_globals
           " " newline 41500);
    try reflexivity.
  unfold in_int, INT_MIN, INT_MAX. lia.
Defined.

(** ** The duties written by the loop *)

Lemma written_no_repeat (rs : list Z) :
  forall last, no_repeat last (written last rs).
Proof.
  induction rs as [|r rs IH]; intros last; simpl; [exact I|].
  destruct (Z.eqb_spec last r) as [->|Ne].
  - apply IH.
  - simpl. split; [congruence|apply IH].
Qed.

Lemma last_cons {A : Type} (l : list A) :
  forall a d, List.last (a :: l) d = List.last l a.
Proof.
  induction l as [|b l IH]; intros a d; [reflexivity|].
  change (List.last (a :: b :: l) d) with (List.last (b :: l) d).
  rewrite (IH b d), (IH b a). reflexivity.
Qed.

Lemma written_last (rs : list Z) :
  forall last, List.last (written last rs) last = List.last rs last.
Proof.
  induction rs as [|r rs IH]; intros last; [reflexivity|].
  cbn [written]. rewrite (last_cons rs r last).
  destruct (Z.eqb_spec last r) as [->|Ne].
  - apply IH.
  - rewrite last_cons. apply IH.
Qed.

Lemma written_incl (rs : list Z) :
  forall last d, In d (written last rs) -> In d rs.
Proof.
  induction rs as [|r rs IH]; intros last d H; simpl in H; [contradiction|].
  destruct (last =? r).
  - right. eapply IH; eassumption.
  - destruct H as [<-|H]; [left; reflexivity|right; eapply IH; eassumption].
Qed.

Section Loop.
Variable pwm_mode : Z -> Z.

(** One iteration with a reading [t]. *)
Lemma setFanRpm_step (fs : filesystem) (st : state) (t : Z) :
  getCurrTemp fs (vars st) = Returns t ->
  exists st1,
    setFanRpm pwm_mode fs st = Returns st1 /\
    vars st1 = vars st /\
    lastRpm st1 = setFanRpm_rpm (vars st) t /\
    slept st1 = slept st /\
    calls (hw st1) =
      calls (hw st) ++
      map (PWM (PWM_PIN (vars st))) (written (lastRpm st) [setFanRpm_rpm (vars st) t]) /\
    (forall p, p <> PWM_PIN (vars st) -> pin_mode (hw st1) p = pin_mode (hw st) p).
Proof.
  intros H. unfold setFanRpm. rewrite H. eexists. split; [reflexivity|].
  cbn [vars lastRpm slept hw written].
  split; [reflexivity|]. split; [reflexivity|]. split; [reflexivity|].
  destruct (lastRpm st =? setFanRpm_rpm (vars st) t).
  - split; [simpl; rewrite app_nil_r; reflexivity|]. reflexivity.
  - split; [reflexivity|]. intros p Hp. simpl. unfold set_pin.
    destruct (Z.eqb_spec p (PWM_PIN (vars st))); [contradiction|reflexivity].
Qed.

Lemma written_app (rs1 rs2 : list Z) :
  forall last,
    written last (rs1 ++ rs2) =
    written last rs1 ++ written (List.last rs1 last) rs2.
Proof.
  induction rs1 as [|r rs1 IH]; intros last; [reflexivity|].
  cbn [written app].
  rewrite last_cons. destruct (last =? r); rewrite IH; reflexivity.
Qed.

(** The loop, for the readings of its iterations. *)
Lemma start_run (env : list filesystem) :
  forall (ts : list Z) (st : state),
    readings (vars st) env ts ->
    exists st',
      start pwm_mode env st = Returns st' /\
      vars st' = vars st /\
      lastRpm st' =
        List.last (map (setFanRpm_rpm (vars st)) ts) (lastRpm st) /\
      slept st' =
        slept st ++
        repeat (delay (wrap_uint (WAIT (vars st)))) (List.length env) /\
      calls (hw st') =
        calls (hw st) ++
        map (PWM (PWM_PIN (vars st)))
            (written (lastRpm st) (map (setFanRpm_rpm (vars st)) ts)) /\
      (forall p, p <> PWM_PIN (vars st) ->
                 pin_mode (hw st') p = pin_mode (hw st) p).
Proof.
  induction env as [|fs env IH]; intros ts st R; inversion R; subst.
  - exists st. cbn [start map written List.last List.length repeat].
    rewrite !app_nil_r. repeat split; reflexivity.
  - rename y into t, l' into ts'.
    destruct (setFanRpm_step fs st t H1) as (st1 & E1 & V1 & L1 & S1 & C1 & P1).
    cbn [start]. rewrite E1.
    set (st2 := mkState (vars st1) (lastRpm st1) (hw st1)
                        (slept st1 ++ [delay (wrap_uint (WAIT (vars st1)))])).
    assert (R2 : readings (vars st2) env ts') by (cbn [st2 vars]; rewrite V1; exact H3).
    destruct (IH ts' st2 R2) as (st' & E & V & L & S & C & P).
    cbn [st2 vars lastRpm slept hw] in V, L, S, C, P.
    rewrite V1 in V, L, S, C, P. rewrite L1 in L, C. rewrite S1 in S. rewrite C1 in C.
    exists st'. split; [exact E|]. split; [exact V|].
    split.
    { rewrite L. cbn [map]. rewrite last_cons. reflexivity. }
    split.
    { rewrite S. cbn [List.length repeat]. rewrite <- app_assoc. reflexivity. }
    split.
    { rewrite C. rewrite <- app_assoc, <- map_app. do 2 f_equal.
      cbn [map].
      change (setFanRpm_rpm (vars st) t :: map (setFanRpm_rpm (vars st)) ts')
        with ([setFanRpm_rpm (vars st) t] ++ map (setFanRpm_rpm (vars st)) ts').
      rewrite written_app. reflexivity. }
    intros p Hp. rewrite (P p Hp). apply P1. exact Hp.
Qed.
End Loop.

(** The duty is [RPM_OFF] or within the bounds, whatever the thresholds. *)
Lemma setFanRpm_rpm_cases (g : globals) (t : Z) :
  RPM_MIN g <= RPM_MAX g ->
  setFanRpm_rpm g t = RPM_OFF g \/ RPM_MIN g <= setFanRpm_rpm g t <= RPM_MAX g.
Proof.
  intros H. unfold setFanRpm_rpm.
  destruct (0 <? int_sub t (TEMP_LOW g)); [right|left; reflexivity].
  apply clamp_range. exact H.
Qed.

(** ** The loop *)

(** Running [setFanRpm] again on the same reading changes nothing: the
    duty just computed is not written a second time. *)
Theorem setFanRpm_same_reading_is_silent (pwm_mode : Z -> Z) (fs : filesystem)
        (st st1 : state) :
  setFanRpm pwm_mode fs st = Returns st1 ->
  setFanRpm pwm_mode fs st1 = Returns st1.
Proof.
  unfold setFanRpm.
  destruct (getCurrTemp fs (vars st)) as [t|] eqn:E; [|discriminate].
  intros H. injection H as <-. cbn [vars lastRpm hw slept].
  rewrite E, Z.eqb_refl. reflexivity.
Qed.

Lemma setFanRpm_same_reading_is_silent_witness :
  setFanRpm pigpio_pwm_mode (sensor_file "47000")
    (mkState (vars default_ready) 2333
       (setFanSpeed pigpio_pwm_mode (hw default_ready) 18 2333) [])
  = Returns
      (mkState (vars default_ready) 2333
         (setFanSpeed pigpio_pwm_mode (hw default_ready) 18 2333) []).
Proof.
  apply (setFanRpm_same_reading_is_silent pigpio_pwm_mode (sensor_file "47000")
           default_ready).
  reflexivity.
Defined.

(** Every iteration of the loop ends with one sleep of [WAIT]
    milliseconds, [WAIT] being converted to [unsigned int]: after [n]
    iterations [nanosleep] has been called [n] times with the interval
    [delay] builds for it. *)
Theorem start_sleeps_every_iteration (pwm_mode : Z -> Z)
        (env : list filesystem) (ts : list Z) (st : state) :
  readings (vars st) env ts ->
  exists st',
    start pwm_mode env st = Returns st' /\
    slept st' =
      slept st ++ repeat (delay (wrap_uint (WAIT (vars st)))) (List.length env).
Proof.
  intros R. destruct (start_run pwm_mode env ts st R) as (st' & E & _ & _ & S & _).
  exists st'. split; assumption.
Qed.

Lemma start_sleeps_every_iteration_witness :
  exists st',
    start pigpio_pwm_mode [sensor_file "47000"; sensor_file "52000"] default_ready
      = Returns st' /\
    slept st' =
      slept default_ready ++
      repeat (delay (wrap_uint (WAIT (vars default_ready)))) 2.
Proof.
  apply (start_sleeps_every_iteration pigpio_pwm_mode
           [sensor_file "47000"; sensor_file "52000"] [47; 52] default_ready).
  repeat constructor.
Defined.

(** The loop only calls [gpioPWM], on [PWM_PIN], and never writes the
    duty it wrote last: no duty in the trace equals the one before it, the
    first differs from the initial [lastRpm], and after the loop [lastRpm]
    is the duty written last. *)
Theorem start_never_repeats_a_duty (pwm_mode : Z -> Z)
        (env : list filesystem) (ts : list Z) (st : state) :
  readings (vars st) env ts ->
  exists st' ds,
    start pwm_mode env st = Returns st' /\
    ds = written (lastRpm st) (map (setFanRpm_rpm (vars st)) ts) /\
    calls (hw st') = calls (hw st) ++ map (PWM (PWM_PIN (vars st))) ds /\
    no_repeat (lastRpm st) ds /\
    lastRpm st' = List.last ds (lastRpm st).
Proof.
  intros R. destruct (start_run pwm_mode env ts st R) as (st' & E & _ & L & _ & C & _).
  exists st', (written (lastRpm st) (map (setFanRpm_rpm (vars st)) ts)).
  split; [exact E|]. split; [reflexivity|]. split; [exact C|].
  split; [apply written_no_repeat|].
  rewrite written_last. exact L.
Qed.

Lemma start_never_repeats_a_duty_witness :
  exists st' ds,
    start pigpio_pwm_mode
      [sensor_file "47000"; sensor_file "47400"; sensor_file "52000"]
      default_ready = Returns st' /\
    ds = written (lastRpm default_ready)
           (map (setFanRpm_rpm (vars default_ready)) [47; 47; 52]) /\
    calls (hw st') =
      calls (hw default_ready) ++ map (PWM (PWM_PIN (vars default_ready))) ds /\
    no_repeat (lastRpm default_ready) ds /\
    lastRpm st' = List.last ds (lastRpm default_ready).
Proof.
  apply (start_never_repeats_a_duty pigpio_pwm_mode
           [sensor_file "47000"; sensor_file "47400"; sensor_file "52000"]
           [47; 47; 52] default_ready).
  repeat constructor.
Defined.

(** With [RPM_MIN <= RPM_MAX], every duty the loop writes is [RPM_OFF] or
    lies in [[RPM_MIN, RPM_MAX]], whatever the sensor reads. *)
Theorem start_writes_valid_duties (pwm_mode : Z -> Z)
        (env : list filesystem) (ts : list Z) (st : state) :
  RPM_MIN (vars st) <= RPM_MAX (vars st) ->
  readings (vars st) env ts ->
  exists st' ds,
    start pwm_mode env st = Returns st' /\
    calls (hw st') = calls (hw st) ++ map (PWM (PWM_PIN (vars st))) ds /\
    Forall (fun d => d = RPM_OFF (vars st) \/
                     RPM_MIN (vars st) <= d <= RPM_MAX (vars st)) ds.
Proof.
  intros Hm R.
  destruct (start_run pwm_mode env ts st R) as (st' & E & _ & _ & _ & C & _).
  exists st', (written (lastRpm st) (map (setFanRpm_rpm (vars st)) ts)).
  split; [exact E|]. split; [exact C|].
  apply Forall_forall. intros d Hd. apply written_incl in Hd.
  apply in_map_iff in Hd as (t & <- & _).
  apply setFanRpm_rpm_cases. exact Hm.
Qed.

Lemma start_writes_valid_duties_witness :
  exists st' ds,
    start pigpio_pwm_mode [sensor_file "47000"; sensor_file "99000"] default_ready
      = Returns st' /\
    calls (hw st') =
      calls (hw default_ready) ++ map (PWM (PWM_PIN (vars default_ready))) ds /\
    Forall (fun d => d = RPM_OFF (vars default_ready) \/
                     RPM_MIN (vars default_ready) <= d
                       <= RPM_MAX (vars default_ready)) ds.
Proof.
  apply (start_writes_valid_duties pigpio_pwm_mode
           [sensor_file "47000"; sensor_file "99000"] [47; 99] default_ready).
  - simpl. lia.
  - repeat constructor.
Defined.

(** ** A complete run *)

Section Run.
Variable pwm_mode : Z -> Z.

(** The state after [main], for a configuration that loads, a driver
    that starts and the readings of the iterations. *)
Lemma main_run (fs0 : filesystem) (b0 : board) (env : list filesystem)
      (ts : list Z) (g : globals) :
  initFanControl fs0 initial_globals = Returns g ->
  readings g env ts ->
  exists st,
    main pwm_mode fs0 true b0 env = Returns (0, st) /\
    slept st = repeat (delay (wrap_uint (WAIT g))) (List.length env) /\
    calls (hw st) =
      calls b0 ++
      [SetMode (PWM_PIN g) PI_OUTPUT;
       SetPWMfrequency (PWM_PIN g) (FREQUENCY g);
       SetPWMrange (PWM_PIN g) (RPM_MAX g);
       PWM (PWM_PIN g) (RPM_OFF g)] ++
      map (PWM (PWM_PIN g)) (written initial_lastRpm (map (setFanRpm_rpm g) ts)) ++
      [PWM (PWM_PIN g) (RPM_OFF g);
       SetMode (PWM_PIN g) (pin_mode b0 (PWM_PIN g));
       Terminate] /\
    (forall p, pin_mode (hw st) p = pin_mode b0 p).
Proof.
  intros Hi R. unfold main. rewrite Hi.
  cbn [initPigpio Z.ltb Z.compare].
  set (st0 := setupPwm pwm_mode (mkState g initial_lastRpm b0 [])).
  assert (R0 : readings (vars st0) env ts) by exact R.
  destruct (start_run pwm_mode env ts st0 R0) as (st' & E & V & _ & S & C & P).
  rewrite E. eexists. split; [reflexivity|].
  unfold cleanup, setFanSpeed, gpioTerminate, gpioSetMode, gpioPWM.
  cbn [slept hw calls pin_mode]. rewrite V.
  split; [exact S|]. split.
  - rewrite C. unfold st0, setupPwm, setFanSpeed, gpioPWM, gpioSetPWMrange,
      gpioSetPWMfrequency, gpioSetMode, getPinMode, gpioGetMode.
    cbn. rewrite <- !app_assoc. reflexivity.
  - intros p. unfold set_pin at 1.
    destruct (Z.eqb_spec p (PWM_PIN (vars st0))) as [->|Ne]; [reflexivity|].
    unfold set_pin at 1.
    destruct (Z.eqb_spec p (PWM_PIN (vars st0))); [contradiction|].
    rewrite (P p Ne). cbn. unfold set_pin.
    change (PWM_PIN (vars st0)) with (PWM_PIN g) in Ne.
    destruct (Z.eqb_spec p (PWM_PIN g)); [contradiction|reflexivity].
Qed.
End Run.

(** The driver calls of a complete run, in order: the four of [setupPwm]
    (output mode, frequency, range [RPM_MAX], duty [RPM_OFF]), the duties
    of the loop, then the three of [cleanup] (duty [RPM_OFF], the mode
    found on entry, [gpioTerminate]); [main] returns 0. *)
Theorem main_driver_calls (pwm_mode : Z -> Z) (fs0 : filesystem) (b0 : board)
        (env : list filesystem) (ts : list Z) (g : globals) :
  initFanControl fs0 initial_globals = Returns g ->
  readings g env ts ->
  exists st,
    main pwm_mode fs0 true b0 env = Returns (0, st) /\
    calls (hw st) =
      calls b0 ++
      [SetMode (PWM_PIN g) PI_OUTPUT;
       SetPWMfrequency (PWM_PIN g) (FREQUENCY g);
       SetPWMrange (PWM_PIN g) (RPM_MAX g);
       PWM (PWM_PIN g) (RPM_OFF g)] ++
      map (PWM (PWM_PIN g)) (written initial_lastRpm (map (setFanRpm_rpm g) ts)) ++
      [PWM (PWM_PIN g) (RPM_OFF g);
       SetMode (PWM_PIN g) (pin_mode b0 (PWM_PIN g));
       Terminate].
Proof.
  intros Hi R.
  destruct (main_run pwm_mode fs0 b0 env ts g Hi R) as (st & E & _ & C & _).
  exists st. split; assumption.
Qed.

Lemma main_driver_calls_witness :
  exists st,
    main pigpio_pwm_mode no_files true idle_board
         [sensor_file "47000"; sensor_file "47000"] = Returns (0, st) /\
    calls (hw st) =
      calls idle_board ++
      [SetMode 18 PI_OUTPUT; SetPWMfrequency 18 25000; SetPWMrange 18 5000;
       PWM 18 0] ++
      map (PWM 18)
          (written initial_lastRpm (map (setFanRpm_rpm default_globals) [47; 47])) ++
      [PWM 18 0; SetMode 18 (pin_mode idle_board 18); Terminate].
Proof.
  apply (main_driver_calls pigpio_pwm_mode no_files idle_board
           [sensor_file "47000"; sensor_file "47000"] [47; 47] default_globals).
  - reflexivity.
  - repeat constructor.
Defined.

(** A complete run never addresses another pin than [PWM_PIN], and leaves
    the mode of every pin as it found it. *)
Theorem main_touches_only_PWM_PIN (pwm_mode : Z -> Z) (fs0 : filesystem)
        (b0 : board) (env : list filesystem) (ts : list Z) (g : globals) :
  initFanControl fs0 initial_globals = Returns g ->
  readings g env ts ->
  exists st cs,
    main pwm_mode fs0 true b0 env = Returns (0, st) /\
    calls (hw st) = calls b0 ++ cs /\
    Forall (fun c => call_gpio c = Some (PWM_PIN g) \/ c = Terminate) cs /\
    (forall p, gpioGetMode (hw st) p = gpioGetMode b0 p).
Proof.
  intros Hi R.
  destruct (main_run pwm_mode fs0 b0 env ts g Hi R) as (st & E & _ & C & P).
  exists st. eexists. split; [exact E|]. split; [exact C|]. split; [|exact P].
  apply Forall_app. split.
  { do 4 (constructor; [left; reflexivity|]). constructor. }
  apply Forall_app. split.
  - apply Forall_forall. intros c Hc. apply in_map_iff in Hc as (d & <- & _).
    left. reflexivity.
  - constructor; [left; reflexivity|].
    constructor; [left; reflexivity|].
    constructor; [right; reflexivity|constructor].
Qed.

Lemma main_touches_only_PWM_PIN_witness :
  exists st cs,
    main pigpio_pwm_mode no_files true idle_board [sensor_file "47000"]
      = Returns (0, st) /\
    calls (hw st) = calls idle_board ++ cs /\
    Forall (fun c => call_gpio c = Some (PWM_PIN default_globals) \/ c = Terminate) cs /\
    (forall p, gpioGetMode (hw st) p = gpioGetMode idle_board p).
Proof.
  apply (main_touches_only_PWM_PIN pigpio_pwm_mode no_files idle_board
           [sensor_file "47000"] [47] default_globals).
  - reflexivity.
  - repeat constructor.
Defined.

(** Membership in the calls of a complete run. *)
Lemma in_main_calls (g : globals) (m : Z) (ds : list Z) (c : call) :
  In c ([SetMode (PWM_PIN g) PI_OUTPUT;
         SetPWMfrequency (PWM_PIN g) (FREQUENCY g);
         SetPWMrange (PWM_PIN g) (RPM_MAX g);
         PWM (PWM_PIN g) (RPM_OFF g)] ++
        map (PWM (PWM_PIN g)) ds ++
        [PWM (PWM_PIN g) (RPM_OFF g); SetMode (PWM_PIN g) m; Terminate]) ->
  c = SetMode (PWM_PIN g) PI_OUTPUT \/
  c = SetPWMfrequency (PWM_PIN g) (FREQUENCY g) \/
  c = SetPWMrange (PWM_PIN g) (RPM_MAX g) \/
  c = PWM (PWM_PIN g) (RPM_OFF g) \/
  (exists d, In d ds /\ c = PWM (PWM_PIN g) d) \/
  c = SetMode (PWM_PIN g) m \/
  c = Terminate.
Proof.
  rewrite !in_app_iff, in_map_iff. cbn [In].
  intros [[H|[H|[H|[H|[]]]]]|[(d & H & Hd)|[H|[H|[H|[]]]]]]; subst c; auto 8.
  do 4 right. left. exists d. split; [exact Hd|reflexivity].
Qed.

(** The program never asks for a duty outside the PWM range it has set:
    with [0 <= RPM_OFF <= RPM_MIN <= RPM_MAX], the only range [setupPwm]
    sets is [RPM_MAX], and every duty written during the run, by
    [setupPwm], the loop and [cleanup], lies between 0 and [RPM_MAX]. *)
Theorem main_duties_within_PWM_range (pwm_mode : Z -> Z) (fs0 : filesystem)
        (b0 : board) (env : list filesystem) (ts : list Z) (g : globals) :
  initFanControl fs0 initial_globals = Returns g ->
  readings g env ts ->
  0 <= RPM_OFF g <= RPM_MIN g -> RPM_MIN g <= RPM_MAX g ->
  exists st cs,
    main pwm_mode fs0 true b0 env = Returns (0, st) /\
    calls (hw st) = calls b0 ++ cs /\
    In (SetPWMrange (PWM_PIN g) (RPM_MAX g)) cs /\
    (forall gpio range, In (SetPWMrange gpio range) cs -> range = RPM_MAX g) /\
    (forall gpio d, In (PWM gpio d) cs -> 0 <= d <= RPM_MAX g).
Proof.
  intros Hi R Hoff Hm.
  destruct (main_run pwm_mode fs0 b0 env ts g Hi R) as (st & E & _ & C & _).
  exists st. eexists. split; [exact E|]. split; [exact C|]. split; [|split].
  - cbn. auto.
  - intros gpio range H. apply in_main_calls in H.
    destruct H as [H|[H|[H|[H|[(d & _ & H)|[H|H]]]]]]; try discriminate H.
    injection H as _ ->. reflexivity.
  - intros gpio d H. apply in_main_calls in H.
    destruct H as [H|[H|[H|[H|[(d' & Hd & H)|[H|H]]]]]]; try discriminate H.
    + injection H as _ ->. lia.
    + injection H as _ ->.
      apply written_incl in Hd. apply in_map_iff in Hd as (t & <- & _).
      destruct (setFanRpm_rpm_cases g t Hm) as [->|B]; lia.
Qed.

Lemma main_duties_within_PWM_range_witness :
  exists st cs,
    main pigpio_pwm_mode no_files true idle_board [sensor_file "47000"]
      = Returns (0, st) /\
    calls (hw st) = calls idle_board ++ cs /\
    In (SetPWMrange (PWM_PIN default_globals) (RPM_MAX default_globals)) cs /\
    (forall gpio range,
       In (SetPWMrange gpio range) cs -> range = RPM_MAX default_globals) /\
    (forall gpio d, In (PWM gpio d) cs -> 0 <= d <= RPM_MAX default_globals).
Proof.
  apply (main_duties_within_PWM_range pigpio_pwm_mode no_files idle_board
           [sensor_file "47000"] [47] default_globals).
  - reflexivity.
  - repeat constructor.
  - simpl. lia.
  - simpl. lia.
Defined.

Lemma initFanControl_FREQUENCY (fs : filesystem) (g : globals) :
  initFanControl fs initial_globals = Returns g -> FREQUENCY g = 25000.
Proof.
  unfold initFanControl.
  destruct (fs confFilename) as [content|].
  - cbv zeta.
    pose proof (fscanf_confFormat_kinds content) as K.
    apply (store_from_fields _ initial_globals) in K.
    destruct K as (_ & _ & K & _).
    generalize dependent (fscanf confFormat content). intros items K.
    destruct (forallb fits items); [|discriminate].
    intros H. injection H as <-. exact K.
  - intros H. injection H as <-. reflexivity.
Qed.

(** Whenever the configuration loads, whatever [params.conf] then holds,
    the PWM frequency handed to the driver is 25 kHz: the file has no
    field for [FREQUENCY], and [setupPwm] sets no other frequency. *)
Theorem main_frequency_is_fixed (pwm_mode : Z -> Z) (fs0 : filesystem)
        (b0 : board) (env : list filesystem) (ts : list Z) (g : globals) :
  initFanControl fs0 initial_globals = Returns g ->
  readings g env ts ->
  exists st cs,
    main pwm_mode fs0 true b0 env = Returns (0, st) /\
    calls (hw st) = calls b0 ++ cs /\
    In (SetPWMfrequency (PWM_PIN g) 25000) cs /\
    (forall gpio frequency,
       In (SetPWMfrequency gpio frequency) cs -> frequency = 25000).
Proof.
  intros Hi R.
  pose proof (initFanControl_FREQUENCY fs0 g Hi) as F.
  destruct (main_run pwm_mode fs0 b0 env ts g Hi R) as (st & E & _ & C & _).
  exists st. eexists. split; [exact E|]. split; [exact C|]. split.
  - rewrite F. cbn. auto.
  - intros gpio frequency H. apply in_main_calls in H.
    destruct H as [H|[H|[H|[H|[(d & _ & H)|[H|H]]]]]]; try discriminate H.
    injection H as _ ->. exact F.
Qed.

Lemma main_frequency_is_fixed_witness :
  exists st cs,
    main pigpio_pwm_mode (one_file confFilename "PWM_PIN=12 RPM_MAX=4000")
         true idle_board [] = Returns (0, st) /\
    calls (hw st) = calls idle_board ++ cs /\
    In (SetPWMfrequency 12 25000) cs /\
    (forall gpio frequency,
       In (SetPWMfrequency gpio frequency) cs -> frequency = 25000).
Proof.
  apply (main_frequency_is_fixed pigpio_pwm_mode
           (one_file confFilename "PWM_PIN=12 RPM_MAX=4000") idle_board [] []
           (calcTempLimitDiffPct
              (set_RPM_MAX 4000 (set_PWM_PIN 12 initial_globals)))).
  - reflexivity.
  - constructor.
Defined.

Lemma calcTempLimitDiffPct_origPwmPinMode (g : globals) :
  origPwmPinMode (calcTempLimitDiffPct g) = origPwmPinMode g.
Proof. reflexivity. Qed.

Lemma initFanControl_origPwmPinMode (fs : filesystem) (g : globals) :
  initFanControl fs initial_globals = Returns g -> origPwmPinMode g = -1.
Proof.
  unfold initFanControl.
  destruct (fs confFilename) as [content|].
  - cbv zeta.
    pose proof (fscanf_confFormat_kinds content) as K.
    apply (store_from_fields _ initial_globals) in K.
    destruct K as (_ & _ & _ & K & _).
    generalize dependent (fscanf confFormat content). intros items K.
    destruct (forallb fits items); [|discriminate].
    intros H. injection H as <-.
    rewrite calcTempLimitDiffPct_origPwmPinMode. exact K.
  - intros H. injection H as <-. reflexivity.
Qed.

(** When pigpio does not start, [main] returns 1 at once: no driver call
    is made (not even those of [cleanup]), the loop does not run and
    nothing sleeps. *)
Theorem main_without_pigpio (pwm_mode : Z -> Z) (fs0 : filesystem) (b0 : board)
        (env : list filesystem) (g : globals) :
  initFanControl fs0 initial_globals = Returns g ->
  exists st,
    main pwm_mode fs0 false b0 env = Returns (1, st) /\
    hw st = b0 /\ slept st = [] /\ vars st = g /\
    origPwmPinMode g = -1.
Proof.
  intros Hi. pose proof (initFanControl_origPwmPinMode fs0 g Hi) as O.
  unfold main. rewrite Hi. cbn [initPigpio Z.ltb Z.compare].
  eexists. split; [reflexivity|]. cbn [hw slept vars].
  split; [reflexivity|]. split; [reflexivity|]. split; [reflexivity|exact O].
Qed.

Lemma main_without_pigpio_witness :
  exists st,
    main pigpio_pwm_mode no_files false idle_board [sensor_file "47000"]
      = Returns (1, st) /\
    hw st = idle_board /\ slept st = [] /\ vars st = default_globals /\
    origPwmPinMode default_globals = -1.
Proof.
  apply (main_without_pigpio pigpio_pwm_mode no_files idle_board
           [sensor_file "47000"] default_globals).
  reflexivity.
Defined.

(** ** [delay] in the loop *)

(** A negative [WAIT] does not shorten the pause: the call [delay(WAIT)]
    converts it to [unsigned int], and the loop sleeps [2^32 + WAIT]
    milliseconds, more than 24 days. *)
Theorem delay_of_negative_WAIT (wait : Z) :
  INT_MIN <= wait < 0 ->
  let interval := delay (wrap_uint wait) in
  tv_sec interval * 1000000000 + tv_nsec interval
    = (4294967296 + wait) * 1000000 /\
  0 <= tv_nsec interval < 1000000000 /\
  2147483 <= tv_sec interval.
Proof.
  unfold INT_MIN. intros H. cbv zeta.
  assert (W : wrap_uint wait = 4294967296 + wait).
  { unfold wrap_uint. symmetry. apply (Z.mod_unique wait 4294967296 (-1)); lia. }
  set (u := wrap_uint wait) in *.
  unfold delay, uint_div, uint_rem, long_mul, wrap_long. cbn [tv_sec tv_nsec].
  change (wrap_uint 1000) with 1000.
  pose proof (Z.mod_pos_bound u 1000 ltac:(lia)) as Hm.
  pose proof (Z.div_mod u 1000 ltac:(lia)) as Hd.
  rewrite wrap_int_id by (unfold in_int, INT_MIN, INT_MAX; lia).
  lia.
Qed.

Lemma delay_of_negative_WAIT_witness :
  let interval := delay (wrap_uint (-1)) in
  tv_sec interval * 1000000000 + tv_nsec interval
    = (4294967296 + -1) * 1000000 /\
  0 <= tv_nsec interval < 1000000000 /\
  2147483 <= tv_sec interval.
Proof.
  apply (delay_of_negative_WAIT (-1)). unfold INT_MIN. lia.
Defined.
